(** * Infection-resistant networks: the network generators

    A shallow embedding of [networkgen.py] (the clique-gate composer, the
    graph serializer and the command-line entry point) and of
    [networkgen/_social_circles.py] (the randomized social-circles
    generator), together with the properties their specification states.

    Python integers are [Z]; a [networkx.Graph] is its ordered adjacency
    structure; exceptions are a constructor of the result type; loops that
    may run forever take fuel. *)

From stdpp Require Import gmap list strings sorting.
From Stdlib Require Import ZArith QArith Reals Lia.

Open Scope Z_scope.

(** ** Results of fallible code *)

(** The exceptions the two modules can raise. *)
Inductive exn : Type :=
  | ValueError
  | IndexError
  | KeyError
  | NetworkXPointlessConcept.

(** [Ok a]: normal return; [Raise e]: an uncaught exception; [OutOfFuel]:
    a [while] loop did not finish within the fuel it was given. *)
Inductive result (A : Type) : Type :=
  | Ok (a : A)
  | Raise (e : exn)
  | OutOfFuel.
Arguments Ok {A} a.
Arguments Raise {A} e.
Arguments OutOfFuel {A}.

Definition rbind {A B : Type} (r : result A) (f : A → result B) : result B :=
  match r with
  | Ok a => f a
  | Raise e => Raise e
  | OutOfFuel => OutOfFuel
  end.

Notation "x ←ᵣ r ; k" := (rbind r (λ x, k))
  (at level 20, r at level 100, k at level 200, right associativity,
   format "x  ←ᵣ  r ;  '/' k").
Notation "' p ←ᵣ r ; k" := (rbind r (λ p, k))
  (at level 20, p pattern, r at level 100, k at level 200,
   right associativity, only parsing).

(** A [for] loop whose body may raise. *)
Fixpoint foldM {A S : Type} (f : S → A → result S) (s : S) (l : list A)
    : result S :=
  match l with
  | [] => Ok s
  | a :: l' => s' ←ᵣ f s a; foldM f s' l'
  end.

(** ** Python built-ins used by the code *)

(** [range(start, stop)]. *)
Definition py_range (start stop : Z) : list Z := seqZ start (stop - start).

(** Number of elements of [range(start, stop, step)], [step] non-zero. *)
Definition range_len (start stop step : Z) : Z :=
  if 0 <? step then (stop - start + step - 1) `div` step
  else (start - stop - step - 1) `div` (- step).

(** [range(start, stop, step)]; a zero step raises [ValueError]. *)
Definition py_range_step (start stop step : Z) : result (list Z) :=
  if step =? 0 then Raise ValueError
  else Ok ((λ i, start + i * step) <$> seqZ 0 (range_len start stop step)).

(** [sum(l)] for a list of integers. *)
Definition py_sum (l : list Z) : Z := foldr Z.add 0 l.

(** [l[i]] for a non-negative index. *)
Definition py_index {A : Type} (l : list A) (i : nat) : result A :=
  match l !! i with
  | Some a => Ok a
  | None => Raise IndexError
  end.

(** [d[k]] on a dictionary. *)
Definition dict_get {K V : Type} `{Countable K} (d : gmap K V) (k : K)
    : result V :=
  match d !! k with
  | Some v => Ok v
  | None => Raise KeyError
  end.

(** [enumerate(l)]. *)
Definition enumerate {A : Type} (l : list A) : list (nat * A) :=
  imap (λ i a, (i, a)) l.

(** [itertools.combinations(l, 2)], in the order Python yields them. *)
Fixpoint combinations2 {A : Type} (l : list A) : list (A * A) :=
  match l with
  | [] => []
  | x :: xs => (pair x <$> xs) ++ combinations2 xs
  end.

(** ** networkx.Graph

    An undirected graph is a dictionary from node to the dictionary of
    its neighbours; both keep insertion order, which the edge view
    exposes.  The model is the list of (node, neighbours) entries in
    insertion order. *)

Section graph.
Context {A : Type} `{EqDecision A}.

Definition Graph : Type := list (A * list A).

(** [nx.Graph()] *)
Definition empty_graph : Graph := [].

(** [G.nodes], in insertion order *)
Definition nodes (G : Graph) : list A := fst <$> G.

(** [n in G] *)
Definition has_node (G : Graph) (n : A) : bool := bool_decide (n ∈ nodes G).

(** [G.adj[n]], the neighbours of [n] in insertion order (empty when
    [n] is not a node). *)
Fixpoint neighbors (G : Graph) (n : A) : list A :=
  match G with
  | [] => []
  | (m, nbrs) :: G' => if decide (m = n) then nbrs else neighbors G' n
  end.

(** [G.has_edge(u, v)] *)
Definition has_edge (G : Graph) (u v : A) : bool :=
  bool_decide (v ∈ neighbors G u).

(** [G.add_node(n)] *)
Definition add_node (G : Graph) (n : A) : Graph :=
  if has_node G n then G else G ++ [(n, [])].

(** [d[v] = {}] on a neighbour dictionary: a key that is present keeps
    its place. *)
Definition adj_insert (nbrs : list A) (v : A) : list A :=
  if decide (v ∈ nbrs) then nbrs else nbrs ++ [v].

(** [G._adj[u][v] = {}] *)
Definition add_half (G : Graph) (u v : A) : Graph :=
  (λ entry : A * list A,
     if decide (entry.1 = u) then (entry.1, adj_insert entry.2 v)
     else entry) <$> G.

(** [G.add_edge(u, v)] *)
Definition add_edge (G : Graph) (u v : A) : Graph :=
  add_half (add_half (add_node (add_node G u) v) u v) v u.

(** [G.add_nodes_from(ns)] *)
Definition add_nodes_from (G : Graph) (ns : list A) : Graph :=
  foldl add_node G ns.

(** [G.add_edges_from(es)] *)
Definition add_edges_from (G : Graph) (es : list (A * A)) : Graph :=
  foldl (λ G e, add_edge G e.1 e.2) G es.

(** [G.edges]: every node in insertion order, then each of its
    neighbours that has not itself been visited yet. *)
Fixpoint edges_from (seen : list A) (G : Graph) : list (A * A) :=
  match G with
  | [] => []
  | (n, nbrs) :: G' =>
      (pair n <$> filter (λ nbr, nbr ∉ seen) nbrs)
      ++ edges_from (n :: seen) G'
  end.

Definition edges (G : Graph) : list (A * A) := edges_from [] G.

(** [nx.complete_graph(ns)] for an iterable of nodes [ns]. *)
Definition complete_graph (ns : list A) : Graph :=
  let G := add_nodes_from empty_graph ns in
  if decide (1 < length ns)%nat then add_edges_from G (combinations2 ns)
  else G.

(** What every graph built with [add_node] and [add_edge] satisfies:
    a node has one entry, adjacency is symmetric, and neighbours are
    nodes. *)
Definition graph_wf (G : Graph) : Prop :=
  NoDup (nodes G)
  ∧ (∀ a b, b ∈ neighbors G a → a ∈ neighbors G b)
  ∧ (∀ a b, b ∈ neighbors G a → b ∈ nodes G).

(** Connectivity as a relation: a walk along edges. *)
Inductive connected_to (G : Graph) : A → A → Prop :=
  | connected_refl u : connected_to G u u
  | connected_step u v w :
      v ∈ neighbors G u → connected_to G v w → connected_to G u w.

(** The graph is not null and has exactly one connected component. *)
Definition connected (G : Graph) : Prop :=
  nodes G ≠ [] ∧ ∀ u v, u ∈ nodes G → v ∈ nodes G → connected_to G u v.

(** One level of [_plain_bfs]: the nodes of [level] not seen before are
    marked, and their neighbours form the next level. *)
Fixpoint bfs_level (G : Graph) (seen level : list A) : list A * list A :=
  match level with
  | [] => (seen, [])
  | v :: level' =>
      if decide (v ∈ seen) then bfs_level G seen level'
      else
        let '(seen', next) := bfs_level G (seen ++ [v]) level' in
        (seen', neighbors G v ++ next)
  end.

(** [_plain_bfs(G, source)]: the nodes reached, in the order they are
    yielded.  Every level but the last marks a new node, so at most
    [len(G) + 1] levels are needed; [levels] is that bound. *)
Fixpoint plain_bfs (levels : nat) (G : Graph) (seen level : list A)
    : list A :=
  match levels with
  | O => seen
  | S k =>
      match level with
      | [] => seen
      | _ => let '(seen', next) := bfs_level G seen level in
             plain_bfs k G seen' next
      end
  end.

(** [nx.is_connected(G)] *)
Definition is_connected (G : Graph) : result bool :=
  match nodes G with
  | [] => Raise NetworkXPointlessConcept
  | source :: _ =>
      Ok (bool_decide
            (length (plain_bfs (S (length G)) G [] [source]) = length G))
  end.
End graph.
Arguments Graph A : clear implicits.

(** ** networkgen.py *)

(** [union_components] *)
Definition union_components {A : Type} `{EqDecision A}
    (components : list (Graph A)) : Graph A :=
  foldl (λ master_graph comp,
           add_edges_from (add_nodes_from master_graph (nodes comp))
                          (edges comp))
        empty_graph components.

(** The two inner loops of the composer:
    [for i, node in enumerate(half): master_graph.add_edge(node, comp_nodes[i])] *)
Definition connect_half (master_graph : Graph Z) (half comp_nodes : list Z)
    : result (Graph Z) :=
  foldM (λ G (p : nat * Z),
           target ←ᵣ py_index comp_nodes p.1; Ok (add_edge G p.2 target))
        master_graph (enumerate half).

(** Body of the loop over [dest_comp]. *)
Definition insert_gate (gates : list (Graph Z)) (src_comp : Graph Z)
    (st : Graph Z * nat) (dest_comp : Graph Z) : result (Graph Z * nat) :=
  let '(master_graph, current_gate_ind) := st in
  gate ←ᵣ py_index gates current_gate_ind;
  let gate_nodes := nodes gate in
  let half := (length gate_nodes `div` 2)%nat in
  G1 ←ᵣ connect_half master_graph (take half gate_nodes) (nodes src_comp);
  G2 ←ᵣ connect_half G1 (drop half gate_nodes) (nodes dest_comp);
  Ok (G2, S current_gate_ind).

(** Body of the loop over [enumerate(big_comps[:-1])]. *)
Definition insert_gates_from (gates big_comps : list (Graph Z))
    (st : Graph Z * nat) (p : nat * Graph Z) : result (Graph Z * nat) :=
  foldM (insert_gate gates p.2) st (drop (S p.1) big_comps).

(** [gate_node_ids] *)
Definition gate_node_ids (num_big_components gate_size : Z)
    : result (list (list Z)) :=
  starts ←ᵣ py_range_step 0
              (py_sum (py_range 0 num_big_components) * gate_size) gate_size;
  Ok ((λ start, py_range start (start + gate_size)) <$> starts).

(** [component_node_ids], given [len(gate_node_ids)] *)
Definition component_node_ids (num_gates : nat)
    (num_big_components big_component_size gate_size : Z)
    : result (list (list Z)) :=
  starts ←ᵣ py_range_step (Z.of_nat num_gates * gate_size)
              (Z.of_nat num_gates * gate_size
               + num_big_components * big_component_size)
              big_component_size;
  Ok ((λ start, py_range start (start + big_component_size)) <$> starts).

(** [make_complete_clique_gate_graph] *)
Definition make_complete_clique_gate_graph
    (num_big_components big_component_size gate_size : Z) : result (Graph Z) :=
  gate_ids ←ᵣ gate_node_ids num_big_components gate_size;
  let gates := complete_graph <$> gate_ids in
  comp_ids ←ᵣ component_node_ids (length gate_ids) num_big_components
                big_component_size gate_size;
  let big_comps := complete_graph <$> comp_ids in
  let master_graph := union_components (gates ++ big_comps) in
  ' (master_graph, _) ←ᵣ
      foldM (insert_gates_from gates big_comps) (master_graph, O)
            (enumerate (take (length big_comps - 1) big_comps));
  Ok master_graph.

(** *** The serializer and the entry point *)

(** A line written to standard output. *)
Inductive line (coord : Type) : Type :=
  | LText (s : string)                 (* a message *)
  | LCount (n : nat)                   (* the number of nodes *)
  | LEdge (id0 id1 : nat)              (* "<id0> <id1>" *)
  | LBlank                             (* an empty line *)
  | LLayout (id : nat) (c : coord).    (* "<id> <x> <y>" *)
Arguments LText {coord} s.
Arguments LCount {coord} n.
Arguments LEdge {coord} id0 id1.
Arguments LBlank {coord}.
Arguments LLayout {coord} id c.

(** Code that prints: the lines written so far are threaded through, and
    are kept when an exception ends the run. *)
Definition printer (coord X : Type) : Type :=
  list (line coord) → list (line coord) * result X.

Definition pret {coord X} (x : X) : printer coord X := λ out, (out, Ok x).

Definition pbind {coord X Y} (m : printer coord X) (f : X → printer coord Y)
    : printer coord Y :=
  λ out, match m out with
         | (out', Ok x) => f x out'
         | (out', Raise e) => (out', Raise e)
         | (out', OutOfFuel) => (out', OutOfFuel)
         end.

Definition print {coord} (l : line coord) : printer coord unit :=
  λ out, (out ++ [l], Ok tt).

Definition plift {coord X} (r : result X) : printer coord X := λ out, (out, r).

Notation "x ←ₚ m ; k" := (pbind m (λ x, k))
  (at level 20, m at level 100, k at level 200, right associativity,
   format "x  ←ₚ  m ;  '/' k").
Notation "m ;;ₚ k" := (pbind m (λ _, k))
  (at level 100, k at level 200, right associativity,
   format "m  ;;ₚ  '/' k").

Fixpoint pfoldM {coord X S} (f : S → X → printer coord S) (s : S)
    (l : list X) : printer coord S :=
  match l with
  | [] => pret s
  | x :: l' => s' ←ₚ f s x; pfoldM f s' l'
  end.

Section serializer.
Context {A : Type} `{Countable A} {coord : Type}.

(** The coordinate [nx.kamada_kawai_layout(G)] computes for a node.  The
    layout algorithm is an external collaborator; what the serializer
    relies on is its shape: a dictionary with one entry per node of [G],
    in node order. *)
Variable layout_position : Graph A → A → coord.

Definition kamada_kawai_layout (G : Graph A) : list (A * coord) :=
  (λ n, (n, layout_position G n)) <$> nodes G.

(** [if n not in node_to_id: node_to_id[n] = current_id; current_id += 1] *)
Definition remap_node (st : gmap A nat * nat) (n : A) : gmap A nat * nat :=
  match st.1 !! n with
  | Some _ => st
  | None => (<[n := st.2]> st.1, S st.2)
  end.

(** Body of [for e in G.edges] *)
Definition output_edge (st : gmap A nat * nat) (e : A * A)
    : printer coord (gmap A nat * nat) :=
  let st := remap_node (remap_node st e.1) e.2 in
  id0 ←ₚ plift (dict_get st.1 e.1);
  id1 ←ₚ plift (dict_get st.1 e.2);
  print (LEdge id0 id1) ;;ₚ
  pret st.

(** Body of [for node, coordinate in layout.items()] *)
Definition output_position (node_to_id : gmap A nat) (_ : unit)
    (item : A * coord) : printer coord unit :=
  id ←ₚ plift (dict_get node_to_id item.1);
  print (LLayout id item.2).

(** [output_graph] *)
Definition output_graph (G : Graph A) : printer coord unit :=
  print (LCount (length (nodes G))) ;;ₚ
  st ←ₚ pfoldM output_edge (∅, O) (edges G);
  print LBlank ;;ₚ
  pfoldM (output_position st.1) tt (kamada_kawai_layout G) ;;ₚ
  print LBlank.
End serializer.

Section entry_point.
Context {coord : Type}.
Variable layout_position : Graph Z → Z → coord.

(** The integer a string denotes for the built-in [int], if any. *)
Variable int_of_string : string → option Z.

(** [int(s)] *)
Definition py_int (s : string) : result Z :=
  match int_of_string s with
  | Some z => Ok z
  | None => Raise ValueError
  end.

Definition usage (prog : string) : string :=
  "Usage: " +:+ prog
  +:+ " <num-big-components> <big-component-size> <gate-size>".

(** [main]: what it prints, and the graph it built ([None] when it
    returned before building one).  Drawing the graph is left out. *)
Definition main (argv : list string) : printer coord (option (Graph Z)) :=
  if decide (length argv < 3)%nat then
    prog ←ₚ plift (py_index argv 0);
    print (LText (usage prog)) ;;ₚ
    pret None
  else
    a1 ←ₚ plift (py_index argv 1);
    num_big_components ←ₚ plift (py_int a1);
    a2 ←ₚ plift (py_index argv 2);
    big_component_size ←ₚ plift (py_int a2);
    a3 ←ₚ plift (py_index argv 3);
    gate_size ←ₚ plift (py_int a3);
    graph ←ₚ plift (make_complete_clique_gate_graph num_big_components
                      big_component_size gate_size);
    output_graph layout_position graph ;;ₚ
    pret (Some graph).
End entry_point.

(** ** networkgen/_social_circles.py *)

(** [Agent.color]: a colour name or an RGB triple. *)
Inductive Color : Type :=
  | Named (name : string)
  | RGB (r g b : Z).

(** [Agent] *)
Record Agent : Type := { color : Color; reach : Z }.

(** The placement grid, [np.zeros(grid_size, dtype='uint8')] or its
    [dok_matrix] fallback: the cells that were written, every other cell
    reading 0. *)
Record Grid : Type := { shape : Z * Z; cells : gmap (Z * Z) Z }.

(** [np.zeros(grid_size, dtype='uint8')]; a negative dimension raises. *)
Definition grid_zeros (grid_size : Z * Z) : result Grid :=
  if (grid_size.1 <? 0) || (grid_size.2 <? 0) then Raise ValueError
  else Ok {| shape := grid_size; cells := ∅ |}.

(** An index along an axis of length [dim]: negative indices count from
    the end, anything outside [-dim, dim) raises. *)
Definition axis_index (dim i : Z) : result Z :=
  if (0 <=? i) && (i <? dim) then Ok i
  else if (- dim <=? i) && (i <? 0) then Ok (i + dim)
  else Raise IndexError.

Definition grid_key (grid : Grid) (x y : Z) : result (Z * Z) :=
  x' ←ᵣ axis_index (shape grid).1 x;
  y' ←ᵣ axis_index (shape grid).2 y;
  Ok (x', y').

(** [grid[x, y]] *)
Definition grid_get (grid : Grid) (x y : Z) : result Z :=
  key ←ᵣ grid_key grid x y;
  Ok (default 0 (cells grid !! key)).

(** [grid[x, y] = v]: the cell is an unsigned byte.  A value outside
    0..255 wraps around, as NumPy 1 stores it (NumPy 2 raises
    [OverflowError] instead). *)
Definition grid_set (grid : Grid) (x y v : Z) : result Grid :=
  key ←ᵣ grid_key grid x y;
  Ok {| shape := shape grid; cells := <[key := v `mod` 256]> (cells grid) |}.

(** [distance]: the Euclidean distance between two cells. *)
Definition distance (x0 y0 x1 y1 : Z) : R :=
  sqrt (IZR ((x0 - x1) ^ 2 + (y0 - y1) ^ 2)).

(** The test [distance(x0, y0, x1, y1) <= r] for an unsigned byte [r],
    decided on the squares ([distance_le_spec] relates it to
    [distance]).  The code computes the square root in floating point;
    the square root of an integer below 2^53 is rounded correctly, so
    its comparison with an integer agrees with the exact one. *)
Definition distance_le (x0 y0 x1 y1 r : Z) : bool :=
  (x0 - x1) ^ 2 + (y0 - y1) ^ 2 <=? r ^ 2.

(** [itertools.product(xs, ys)] *)
Definition product (xs ys : list Z) : list (Z * Z) :=
  x ← xs; y ← ys; [(x, y)].

(** [search_for_neighbors].  The result is a Python set; the list holds
    its elements in the order the comprehension meets them. *)
Definition search_for_neighbors (grid : Grid) (x y : Z)
    : result (list (Z * Z)) :=
  reach ←ᵣ grid_get grid x y;
  let min_x := Z.max 0 (x - reach) in
  let max_x := Z.min ((shape grid).1 - 1) (x + reach) in
  let min_y := Z.max 0 (y - reach) in
  let max_y := Z.min ((shape grid).2 - 1) (y + reach) in
  foldM (λ neighbors (c : Z * Z),
           v ←ᵣ grid_get grid c.1 c.2;
           if (0 <? v) && distance_le x y c.1 c.2 reach
              && negb (bool_decide ((x, y) = c))
           then Ok (neighbors ++ [c]) else Ok neighbors)
        [] (product (py_range min_x max_x) (py_range min_y max_y)).

Section social_circles.
(** The source of randomness: the raw value of the [k]-th draw. *)
Variable rand : nat → Z.
(** The number of times each rejection-sampling loop may redraw. *)
Variable fuel : nat.

(** [rand.integers(high)]: a value in [0, high); the argument counts
    the draws made so far. *)
Definition integers (high : Z) (k : nat) : result (Z * nat) :=
  if high <=? 0 then Raise ValueError else Ok (rand k `mod` high, S k).

(** [rand.integers(grid.shape[0]), rand.integers(grid.shape[1])] *)
Definition draw_spot (grid : Grid) (k : nat) : result (Z * Z * nat) :=
  ' (x, k) ←ᵣ integers (shape grid).1 k;
  ' (y, k) ←ᵣ integers (shape grid).2 k;
  Ok (x, y, k).

(** The [while] loop of [choose_empty_spot]. *)
Fixpoint choose_loop (n : nat) (grid : Grid) (x y : Z) (k : nat)
    : result (Z * Z * nat) :=
  v ←ᵣ grid_get grid x y;
  if 0 <? v then
    match n with
    | O => OutOfFuel
    | S n' => ' (x, y, k) ←ᵣ draw_spot grid k; choose_loop n' grid x y k
    end
  else Ok (x, y, k).

(** [choose_empty_spot] *)
Definition choose_empty_spot (grid : Grid) (k : nat)
    : result (Z * Z * nat) :=
  ' (x, y, k) ←ᵣ draw_spot grid k;
  choose_loop fuel grid x y k.

(** The state of one generation attempt. *)
Record attempt_state : Type := {
  grid : Grid;
  M : list (list Z);
  loc_to_id : gmap (Z * Z) nat;
  current_id : nat;
  draws : nat
}.

(** [M[a, b] = v] on the adjacency matrix *)
Definition matrix_set (M : list (list Z)) (a b : nat) (v : Z)
    : result (list (list Z)) :=
  row ←ᵣ py_index M a;
  if decide (b < length row)%nat then Ok (<[a := <[b := v]> row]> M)
  else Raise IndexError.

(** Body of [for _ in range_quantity] *)
Definition place_agent (agent : Agent)
    (acc : attempt_state * list (Z * Z)) (_ : Z)
    : result (attempt_state * list (Z * Z)) :=
  let '(st, new_agents) := acc in
  ' (x, y, k) ←ᵣ choose_empty_spot (grid st) (draws st);
  grid' ←ᵣ grid_set (grid st) x y (reach agent);
  Ok ({| grid := grid'; M := M st;
         loc_to_id := <[(x, y) := current_id st]> (loc_to_id st);
         current_id := S (current_id st); draws := k |},
      new_agents ++ [(x, y)]).

(** Body of [for i, j in neighbors] *)
Definition connect_pair (st : attempt_state) (xy : Z * Z)
    (M : list (list Z)) (ij : Z * Z) : result (list (list Z)) :=
  a ←ᵣ dict_get (loc_to_id st) xy;
  b ←ᵣ dict_get (loc_to_id st) ij;
  M ←ᵣ matrix_set M a b 1;
  b ←ᵣ dict_get (loc_to_id st) ij;
  a ←ᵣ dict_get (loc_to_id st) xy;
  matrix_set M b a 1.

(** Body of [for x, y in new_agents] *)
Definition connect_agent (st : attempt_state) (xy : Z * Z)
    : result attempt_state :=
  neighbors ←ᵣ search_for_neighbors (grid st) xy.1 xy.2;
  M' ←ᵣ foldM (connect_pair st xy) (M st) neighbors;
  Ok {| grid := grid st; M := M'; loc_to_id := loc_to_id st;
        current_id := current_id st; draws := draws st |}.

(** Body of [for agent, quantity in agents] *)
Definition place_and_connect (st : attempt_state) (aq : Agent * Z)
    : result attempt_state :=
  ' (st, new_agents) ←ᵣ
      foldM (place_agent aq.1) (st, []) (py_range 0 aq.2);
  foldM connect_agent st new_agents.

(** [sorted(items, key=lambda aq: aq[0].reach, reverse=True)]: larger
    reach first, equal reaches in their original order. *)
Fixpoint insert_by_reach (aq : Agent * Z) (l : list (Agent * Z))
    : list (Agent * Z) :=
  match l with
  | [] => [aq]
  | aq' :: l' =>
      if reach aq.1 <? reach aq'.1 then aq' :: insert_by_reach aq l'
      else aq :: aq' :: l'
  end.

Definition sorted_by_reach (items : list (Agent * Z)) : list (Agent * Z) :=
  foldr insert_by_reach [] items.

(** [np.zeros((n, n), dtype='uint8')] *)
Definition matrix_zeros (n : Z) : result (list (list Z)) :=
  if n <? 0 then Raise ValueError
  else Ok (replicate (Z.to_nat n) (replicate (Z.to_nat n) 0)).

(** The index pairs of the non-zero entries, row by row. *)
Definition nonzero (M : list (list Z)) : list (nat * nat) :=
  ' (a, row) ← enumerate M;
  ' (b, v) ← enumerate row;
  if decide (v = 0) then [] else [(a, b)].

(** [nx.Graph(M)] for a square matrix [M] *)
Definition graph_of_matrix (M : list (list Z)) : Graph nat :=
  add_edges_from (add_nodes_from empty_graph (seq 0 (length M)))
                 (nonzero M).

(** A layout coordinate [2*x/dim - 1], as an exact fraction ([dim] is
    positive whenever an agent has been placed). *)
Definition rescale (x dim : Z) : Q :=
  Qminus (Qdiv (inject_Z (2 * x)) (inject_Z dim)) (inject_Z 1).

(** The dictionary comprehension that builds [layout]. *)
Definition make_layout (grid_size : Z * Z) (loc_to_id : gmap (Z * Z) nat)
    : gmap nat (Q * Q) :=
  list_to_map
    ((λ item : Z * Z * nat,
        (item.2, (rescale item.1.1 grid_size.1,
                  rescale item.1.2 grid_size.2)))
     <$> map_to_list loc_to_id).

(** The colour list: [colors += [agent.color]*quantity] for every item
    of the dictionary. *)
Definition make_colors (agent_type_to_quantity : list (Agent * Z))
    : list Color :=
  aq ← agent_type_to_quantity; replicate (Z.to_nat aq.2) (color aq.1).

(** The state in which the agents are placed. *)
Definition initial_state (agent_type_to_quantity : list (Agent * Z))
    (grid_size : Z * Z) (k : nat) : result attempt_state :=
  grid ←ᵣ grid_zeros grid_size;
  let num_nodes := py_sum (snd <$> agent_type_to_quantity) in
  M ←ᵣ matrix_zeros num_nodes;
  Ok {| grid := grid; M := M; loc_to_id := ∅; current_id := O;
        draws := k |}.

(** The placement and connection loops of one attempt. *)
Definition generate (agent_type_to_quantity : list (Agent * Z))
    (grid_size : Z * Z) (k : nat) : result attempt_state :=
  let agents := sorted_by_reach agent_type_to_quantity in
  st ←ᵣ initial_state agent_type_to_quantity grid_size k;
  foldM place_and_connect st agents.

Definition network : Type := Graph nat * gmap nat (Q * Q) * list Color.

(** The body of [for attempt in range(max_tries)], up to the test that
    decides whether the network is returned. *)
Definition attempt (agent_type_to_quantity : list (Agent * Z))
    (grid_size : Z * Z) (k : nat) : result (network * nat) :=
  st ←ᵣ generate agent_type_to_quantity grid_size k;
  let colors := make_colors agent_type_to_quantity in
  let layout := make_layout grid_size (loc_to_id st) in
  let G := graph_of_matrix (M st) in
  Ok (G, layout, colors, draws st).

(** [(not force_connected) or nx.is_connected(G)] *)
Definition accepted (force_connected : bool) (G : Graph nat) : result bool :=
  if negb force_connected then Ok true else is_connected G.

(** The loop over the attempts. *)
Fixpoint attempts (tries : nat) (agent_type_to_quantity : list (Agent * Z))
    (grid_size : Z * Z) (force_connected : bool) (k : nat)
    : result (option network) :=
  match tries with
  | O => Ok None
  | S tries' =>
      ' (net, k') ←ᵣ attempt agent_type_to_quantity grid_size k;
      ok ←ᵣ accepted force_connected net.1.1;
      if ok then Ok (Some net)
      else attempts tries' agent_type_to_quantity grid_size
                    force_connected k'
  end.

(** [make_social_circles_network]; the dictionary is the list of its
    items in insertion order, progress messages are left out. *)
Definition make_social_circles_network
    (agent_type_to_quantity : list (Agent * Z)) (grid_size : Z * Z)
    (force_connected : bool) (max_tries : Z) : result (option network) :=
  attempts (Z.to_nat max_tries) agent_type_to_quantity grid_size
           force_connected O.
End social_circles.

(** ** Vocabulary of the statements *)

(** The edges one gate receives: its first half is joined, position by
    position, to the source component, its second half to the
    destination component. *)
Definition gate_edges (gate_nodes src_nodes dest_nodes : list Z)
    : list (Z * Z) :=
  let half := (length gate_nodes `div` 2)%nat in
  zip (take half gate_nodes) src_nodes ++ zip (drop half gate_nodes) dest_nodes.

(** Both components have a node for every node of their half. *)
Definition gate_fits (gate_nodes src_nodes dest_nodes : list Z) : Prop :=
  (length gate_nodes `div` 2 ≤ length src_nodes
   ∧ length gate_nodes - length gate_nodes `div` 2 ≤ length dest_nodes)%nat.

(** The edges the wiring loops add when the gates [gs] are assigned, in
    order, to the pairs of components [pairs]; [None] when an index is
    out of range. *)
Fixpoint wiring (gs : list (list Z)) (pairs : list (list Z * list Z))
    {struct pairs} : option (list (Z * Z)) :=
  match pairs, gs with
  | [], _ => Some []
  | p :: pairs', gate_nodes :: gs' =>
      if decide (gate_fits gate_nodes p.1 p.2) then
        (gate_edges gate_nodes p.1 p.2 ++.) <$> wiring gs' pairs'
      else None
  | _ :: _, [] => None
  end.

(** The number of gates the composer creates, [sum(range(n))]. *)
Definition num_gates (num_big_components : Z) : Z :=
  py_sum (py_range 0 num_big_components).

(** The number of unordered pairs of [n] things, C(n, 2). *)
Definition choose2 (n : Z) : Z := (n * (n - 1)) `div` 2.

(** The node identifiers of the [k]-th gate. *)
Definition gate_block (gate_size k : Z) : list Z :=
  seqZ (k * gate_size) gate_size.

(** The node identifiers of the [c]-th big component, the gates taking
    the first [base] identifiers. *)
Definition comp_block (base big_component_size c : Z) : list Z :=
  seqZ (base + c * big_component_size) big_component_size.

Definition gate_blocks (num_big_components gate_size : Z) : list (list Z) :=
  gate_block gate_size <$> seqZ 0 (num_gates num_big_components).

Definition comp_blocks (num_big_components big_component_size gate_size : Z)
    : list (list Z) :=
  comp_block (num_gates num_big_components * gate_size) big_component_size
    <$> seqZ 0 num_big_components.

(** [x] is a node of the [k]-th clique of [blocks]. *)
Definition in_block (blocks : list (list Z)) (k : nat) (x : Z) : Prop :=
  ∃ l, blocks !! k = Some l ∧ x ∈ l.

(** The nodes [l] are distinct nodes of [G], any two of them adjacent:
    [G] restricted to [l] is a complete graph on [length l] nodes. *)
Definition complete_on (G : Graph Z) (l : list Z) : Prop :=
  NoDup l
  ∧ (∀ x, x ∈ l → x ∈ nodes G)
  ∧ (∀ x y, x ∈ l → y ∈ l → x ≠ y → has_edge G x y = true).

(** The value a cell of the grid holds. *)
Definition grid_cell (grid : Grid) (c : Z * Z) : Z :=
  default 0 (cells grid !! c).

(** [c] is a cell of a grid of the given size. *)
Definition in_grid (grid_size : Z * Z) (c : Z * Z) : Prop :=
  (0 ≤ c.1 < grid_size.1) ∧ (0 ≤ c.2 < grid_size.2).

(** The cells of the grid hold unsigned bytes. *)
Definition uint8_grid (grid : Grid) : Prop :=
  ∀ c v, cells grid !! c = Some v → 0 ≤ v < 256.

(** The Euclidean distance between two cells is at most [r]. *)
Definition euclid_le (c1 c2 : Z * Z) (r : Z) : Prop :=
  (distance c1.1 c1.2 c2.1 c2.2 <= IZR r)%R.

(** [M[a, b]], reading 0 outside the matrix. *)
Definition matrix_entry (M : list (list Z)) (a b : nat) : Z :=
  default 0 (row ← M !! a; row !! b).

(** One copy of the agent type for each agent requested. *)
Definition expand (aqs : list (Agent * Z)) : list Agent :=
  aq ← aqs; replicate (Z.to_nat aq.2) aq.1.

(** The agent types in the order their agents are placed: the agent
    that receives node identifier [k] is the [k]-th element. *)
Definition placement_order (agent_type_to_quantity : list (Agent * Z))
    : list Agent :=
  expand (sorted_by_reach agent_type_to_quantity).

(** The neighbour cell [c] justifies an edge from the agent at [xy]. *)
Definition reaches (grid : Grid) (xy c : Z * Z) : Prop :=
  0 < grid_cell grid c
  ∧ distance_le xy.1 xy.2 c.1 c.2 (grid_cell grid xy) = true
  ∧ c ≠ xy.

(** The non-zero entries of the matrix join agents one of which reaches
    the other. *)
Definition edges_ok (st : attempt_state) (Mx : list (list Z)) : Prop :=
  ∀ a b, matrix_entry Mx a b ≠ 0 →
    ∃ ca cb, loc_to_id st !! ca = Some a
             ∧ loc_to_id st !! cb = Some b
             ∧ grid_cell (grid st) ca ≠ 0
             ∧ grid_cell (grid st) cb ≠ 0
             ∧ (distance_le ca.1 ca.2 cb.1 cb.2
                  (grid_cell (grid st) ca) = true
                ∨ distance_le cb.1 cb.2 ca.1 ca.2
                    (grid_cell (grid st) cb) = true).

(** The requests for which the generator is meant: no negative
    quantity, at least one agent, a grid with cells. *)
Definition valid_request (agent_type_to_quantity : list (Agent * Z))
    (grid_size : Z * Z) : Prop :=
  Forall (λ aq : Agent * Z, 0 ≤ aq.2) agent_type_to_quantity
  ∧ 1 ≤ py_sum (snd <$> agent_type_to_quantity)
  ∧ 0 < grid_size.1 ∧ 0 < grid_size.2.

(** Every agent type marks the cell it occupies: the byte the grid
    stores for its reach is not 0. *)
Definition stored_reach_nonzero (agent_type_to_quantity : list (Agent * Z))
    : Prop :=
  Forall (λ aq : Agent * Z, reach aq.1 `mod` 256 ≠ 0) agent_type_to_quantity.

(** What a run satisfies: [P] when it returns, [may_raise] when it
    raises; nothing is said of a run that is out of fuel. *)
Definition outcome {A : Type} (may_raise : Prop) (P : A → Prop)
    (r : result A) : Prop :=
  match r with
  | Ok a => P a
  | Raise _ => may_raise
  | OutOfFuel => True
  end.

(** The invariant of a generation attempt; [placed] lists the agent
    types of the agents placed so far, in placement order. *)
Record attempt_inv (agent_type_to_quantity : list (Agent * Z))
    (grid_size : Z * Z) (placed : list Agent) (st : attempt_state)
    : Prop := {
  inv_shape : shape (grid st) = grid_size;
  inv_bytes : uint8_grid (grid st);
  inv_count : current_id st = length placed;
  inv_dom : ∀ c, is_Some (cells (grid st) !! c) ↔ is_Some (loc_to_id st !! c);
  inv_ids : ∀ c id, loc_to_id st !! c = Some id →
                    in_grid grid_size c ∧ (id < current_id st)%nat;
  inv_inj : ∀ c1 c2 id, loc_to_id st !! c1 = Some id →
                        loc_to_id st !! c2 = Some id → c1 = c2;
  inv_reach : ∀ c id, loc_to_id st !! c = Some id →
                      grid_cell (grid st) c ≠ 0 →
                      ∃ a, placed !! id = Some a
                           ∧ grid_cell (grid st) c = reach a `mod` 256;
  inv_matrix :
    length (M st) = Z.to_nat (py_sum (snd <$> agent_type_to_quantity))
    ∧ Forall (λ row, length row
                     = Z.to_nat (py_sum (snd <$> agent_type_to_quantity)))
             (M st);
  inv_edges : edges_ok st (M st);
  inv_bound : valid_request agent_type_to_quantity grid_size →
              (current_id st
               ≤ Z.to_nat (py_sum (snd <$> agent_type_to_quantity)))%nat;
  inv_occupied : stored_reach_nonzero agent_type_to_quantity →
                 ∀ c, is_Some (loc_to_id st !! c) → grid_cell (grid st) c ≠ 0;
  inv_onto : stored_reach_nonzero agent_type_to_quantity →
             ∀ id, (id < current_id st)%nat → ∃ c, loc_to_id st !! c = Some id
}.


(** The endpoints of the edges, in the order the serializer meets
    them. *)
Definition endpoints {A : Type} (es : list (A * A)) : list A :=
  e ← es; [e.1; e.2].

(** The distinct elements of a list, in the order of their first
    occurrence. *)
Definition first_seen {A : Type} `{EqDecision A} (l : list A) : list A :=
  foldl (λ acc x, if decide (x ∈ acc) then acc else acc ++ [x]) [] l.

(** The identifier map [st.1] numbers the nodes [acc] met so far, in the
    order they were met, and [st.2] is the next identifier. *)
Definition numbers {A : Type} `{Countable A} (acc : list A)
    (st : gmap A nat * nat) : Prop :=
  (∀ k i, st.1 !! k = Some i ↔ acc !! i = Some k)
  ∧ st.2 = length acc ∧ NoDup acc.

(** ** Vocabulary of the further properties *)

(** The [j]-th spot [choose_empty_spot] draws when it starts at position
    [k] of the random source. *)
Definition drawn_spot (rand : nat → Z) (grid : Grid) (k j : nat) : Z * Z :=
  (rand (2 * j + k)%nat `mod` (shape grid).1,
   rand (S (2 * j + k)) `mod` (shape grid).2).

(** The agent type [b] is placed no earlier than [a]: its reach is not
    larger. *)
Definition reach_ge (a b : Agent) : Prop := reach b ≤ reach a.

(** The non-zero entries of the matrix lie off the diagonal, come in
    symmetric pairs, and join two placed agents whose distance is within
    the stored reach of an agent type [ar] that was placed no earlier
    than either of them. *)
Definition edges_mutual (placed : list Agent) (st : attempt_state)
    (Mx : list (list Z)) : Prop :=
  ∀ a b, matrix_entry Mx a b ≠ 0 →
    a ≠ b ∧ matrix_entry Mx b a ≠ 0
    ∧ ∃ ca cb aa ab ar,
        loc_to_id st !! ca = Some a ∧ loc_to_id st !! cb = Some b
        ∧ grid_cell (grid st) ca ≠ 0 ∧ grid_cell (grid st) cb ≠ 0
        ∧ placed !! a = Some aa ∧ placed !! b = Some ab ∧ ar ∈ placed
        ∧ distance_le ca.1 ca.2 cb.1 cb.2 (reach ar `mod` 256) = true
        ∧ reach ar ≤ reach aa ∧ reach ar ≤ reach ab.

(** The frontier of a breadth-first search: every neighbour of a marked
    node is marked, queued in the current level, or in [extra]. *)
Definition frontier {A : Type} `{EqDecision A} (G : Graph A)
    (seen level extra : list A) : Prop :=
  ∀ x y, x ∈ seen → y ∈ neighbors G x → y ∈ seen ∨ y ∈ level ∨ y ∈ extra.

(** [tries] attempts in a row, the first drawing from position [k] of
    the random source and the next one after the last from position
    [k_end], each building a graph with nodes that is not connected. *)
Fixpoint attempts_disconnected (rand : nat → Z) (fuel tries : nat)
    (agent_type_to_quantity : list (Agent * Z)) (grid_size : Z * Z)
    (k k_end : nat) : Prop :=
  match tries with
  | O => k_end = k
  | S tries' =>
      ∃ net k',
        attempt rand fuel agent_type_to_quantity grid_size k = Ok (net, k')
        ∧ nodes net.1.1 ≠ [] ∧ ¬ connected net.1.1
        ∧ attempts_disconnected rand fuel tries' agent_type_to_quantity
            grid_size k' k_end
  end.

(** ** Inputs of the examples *)

(** A random source that yields the given raw values, then zeros. *)
Definition rand_of_list (values : list Z) : nat → Z :=
  λ k, default 0 (values !! k).

(** A grid of 4 by 4 cells with an agent of reach 2 at (1, 1) and one of
    reach 1 at (2, 1). *)
Definition example_grid : Grid :=
  {| shape := (4, 4); cells := <[(1, 1) := 2]> (<[(2, 1) := 1]> ∅) |}.

Definition green : Agent := {| color := Named "green"; reach := 1 |}.
Definition blue : Agent := {| color := Named "blue"; reach := 2 |}.
(** Two agent types whose reach the grid stores as 0. *)
Definition ghost : Agent := {| color := Named "grey"; reach := 0 |}.
Definition giant : Agent := {| color := Named "red"; reach := 256 |}.

(** * Properties *)

Lemma foldM_app {A S : Type} (f : S → A → result S) (s : S) (l1 l2 : list A) :
  foldM f s (l1 ++ l2) = (s' ←ᵣ foldM f s l1; foldM f s' l2).
Proof.
  revert s. induction l1 as [|a l1 IH]; intros s; simpl; [done|].
  destruct (f s a); simpl; auto.
Qed.

(** ** Graphs *)

Section graph_facts.
Context {A : Type} `{EqDecision A}.
Implicit Types (G : Graph A) (a b n u v x : A).

Lemma neighbors_not_node G a : a ∉ nodes G → neighbors G a = [].
Proof.
  induction G as [|[m nbrs] G IH]; simpl; [done|].
  rewrite not_elem_of_cons. intros [? ?]. case_decide; [congruence|auto].
Qed.

Lemma elem_of_neighbors_node G a x : x ∈ neighbors G a → a ∈ nodes G.
Proof.
  intros Hx. destruct (decide (a ∈ nodes G)) as [|Hn]; [done|].
  rewrite (neighbors_not_node _ _ Hn) in Hx. by apply elem_of_nil in Hx.
Qed.

Lemma neighbors_app G G' a :
  neighbors (G ++ G') a
  = if decide (a ∈ nodes G) then neighbors G a else neighbors G' a.
Proof.
  induction G as [|[m nbrs] G IH]; simpl; [done|].
  - destruct (decide (m = a)) as [->|Hne].
    + rewrite decide_True; [done|]. left.
    + rewrite IH. destruct (decide (a ∈ nodes G)) as [Hin|Hin].
      * rewrite decide_True; [done|]. by right.
      * rewrite decide_False; [done|]. rewrite not_elem_of_cons. auto.
Qed.

Lemma nodes_add_node G n :
  nodes (add_node G n)
  = if decide (n ∈ nodes G) then nodes G else nodes G ++ [n].
Proof.
  unfold add_node, has_node. case_bool_decide.
  - by rewrite decide_True.
  - rewrite decide_False; [|done]. unfold nodes. by rewrite fmap_app.
Qed.

Lemma elem_of_nodes_add_node G n x :
  x ∈ nodes (add_node G n) ↔ x ∈ nodes G ∨ x = n.
Proof.
  rewrite nodes_add_node. case_decide.
  - naive_solver.
  - rewrite elem_of_app, list_elem_of_singleton. done.
Qed.

Lemma neighbors_add_node G n a : neighbors (add_node G n) a = neighbors G a.
Proof.
  unfold add_node, has_node. case_bool_decide; [done|].
  rewrite neighbors_app. case_decide; [done|]. simpl.
  rewrite neighbors_not_node; [|done]. by case_decide.
Qed.

Lemma NoDup_nodes_add_node G n : NoDup (nodes G) → NoDup (nodes (add_node G n)).
Proof.
  intros HG. rewrite nodes_add_node. case_decide; [done|].
  apply NoDup_app. split_and!; [done| |apply NoDup_singleton].
  intros x Hx ->%list_elem_of_singleton. done.
Qed.

Lemma elem_of_adj_insert (l : list A) v x :
  x ∈ adj_insert l v ↔ x ∈ l ∨ x = v.
Proof.
  unfold adj_insert. case_decide.
  - naive_solver.
  - by rewrite elem_of_app, list_elem_of_singleton.
Qed.

Lemma nodes_add_half G u v : nodes (add_half G u v) = nodes G.
Proof.
  unfold add_half, nodes. rewrite <- list_fmap_compose.
  apply list_fmap_ext. intros i [m nbrs] _. simpl. by case_decide.
Qed.

Lemma neighbors_add_half G u v a :
  neighbors (add_half G u v) a
  = if decide (a = u ∧ u ∈ nodes G) then adj_insert (neighbors G a) v
    else neighbors G a.
Proof.
  induction G as [|[m nbrs] G IH]; simpl.
  - rewrite decide_False; [done|]. intros [_ []%elem_of_nil].
  - destruct (decide (m = u)) as [->|Hmu]; simpl.
    + destruct (decide (u = a)) as [->|Hua].
      * rewrite decide_True; [done|]. split; [done|left].
      * rewrite IH. rewrite !decide_False; naive_solver.
    + destruct (decide (m = a)) as [->|Hma].
      * rewrite decide_False; naive_solver.
      * rewrite IH. destruct (decide (a = u ∧ u ∈ nodes G)) as [[-> Hin]|Hn].
        -- rewrite decide_True; [done|]. split; [done|by right].
        -- rewrite decide_False; [done|]. intros [-> Hin].
           apply elem_of_cons in Hin as [|]; naive_solver.
Qed.

Lemma nodes_add_edge G u v :
  nodes (add_edge G u v) = nodes (add_node (add_node G u) v).
Proof. unfold add_edge. by rewrite !nodes_add_half. Qed.

Lemma elem_of_nodes_add_edge G u v x :
  x ∈ nodes (add_edge G u v) ↔ x ∈ nodes G ∨ x = u ∨ x = v.
Proof.
  rewrite nodes_add_edge, !elem_of_nodes_add_node. naive_solver.
Qed.

Lemma nodes_add_edge_id G u v :
  u ∈ nodes G → v ∈ nodes G → nodes (add_edge G u v) = nodes G.
Proof.
  intros Hu Hv. rewrite nodes_add_edge, !nodes_add_node.
  rewrite (decide_True _ _ Hu). by rewrite decide_True.
Qed.

Lemma NoDup_nodes_add_edge G u v :
  NoDup (nodes G) → NoDup (nodes (add_edge G u v)).
Proof.
  intros. rewrite nodes_add_edge. by do 2 apply NoDup_nodes_add_node.
Qed.

Lemma elem_of_neighbors_add_edge G u v a x :
  x ∈ neighbors (add_edge G u v) a
  ↔ x ∈ neighbors G a ∨ (a = u ∧ x = v) ∨ (a = v ∧ x = u).
Proof.
  unfold add_edge. rewrite !neighbors_add_half, !nodes_add_half.
  assert (u ∈ nodes (add_node (add_node G u) v)) as Hu.
  { rewrite !elem_of_nodes_add_node. auto. }
  assert (v ∈ nodes (add_node (add_node G u) v)) as Hv.
  { rewrite !elem_of_nodes_add_node. auto. }
  repeat case_decide; rewrite ?elem_of_adj_insert, ?neighbors_add_node;
    naive_solver.
Qed.

Lemma graph_wf_empty : graph_wf (@empty_graph A).
Proof.
  split_and!; [apply NoDup_nil_2| |]; intros a b []%elem_of_nil.
Qed.

Lemma graph_wf_add_node G n : graph_wf G → graph_wf (add_node G n).
Proof.
  intros (Hnd & Hsym & Hcl). split_and!.
  - by apply NoDup_nodes_add_node.
  - intros a b. rewrite !neighbors_add_node. apply Hsym.
  - intros a b. rewrite neighbors_add_node, elem_of_nodes_add_node.
    intros. left. eauto.
Qed.

Lemma graph_wf_add_edge G u v : graph_wf G → graph_wf (add_edge G u v).
Proof.
  intros (Hnd & Hsym & Hcl). split_and!.
  - by apply NoDup_nodes_add_edge.
  - intros a b. rewrite !elem_of_neighbors_add_edge. naive_solver.
  - intros a b. rewrite elem_of_neighbors_add_edge, elem_of_nodes_add_edge.
    naive_solver.
Qed.

Lemma graph_wf_add_nodes_from G ns : graph_wf G → graph_wf (add_nodes_from G ns).
Proof.
  revert G. induction ns as [|n ns IH]; intros G HG; simpl; [done|].
  apply IH. by apply graph_wf_add_node.
Qed.

Lemma graph_wf_add_edges_from G es : graph_wf G → graph_wf (add_edges_from G es).
Proof.
  revert G. induction es as [|e es IH]; intros G HG; simpl; [done|].
  apply IH. by apply graph_wf_add_edge.
Qed.

Lemma elem_of_nodes_add_nodes_from G ns x :
  x ∈ nodes (add_nodes_from G ns) ↔ x ∈ nodes G ∨ x ∈ ns.
Proof.
  revert G. induction ns as [|n ns IH]; intros G; simpl.
  - rewrite elem_of_nil. naive_solver.
  - rewrite IH, elem_of_nodes_add_node, elem_of_cons. naive_solver.
Qed.

Lemma neighbors_add_nodes_from G ns a :
  neighbors (add_nodes_from G ns) a = neighbors G a.
Proof.
  revert G. induction ns as [|n ns IH]; intros G; simpl; [done|].
  by rewrite IH, neighbors_add_node.
Qed.

Lemma elem_of_nodes_add_edges_from G es x :
  x ∈ nodes (add_edges_from G es)
  ↔ x ∈ nodes G ∨ ∃ e, e ∈ es ∧ (x = e.1 ∨ x = e.2).
Proof.
  revert G. induction es as [|e es IH]; intros G; simpl.
  - split; [auto|]. intros [|(e & []%elem_of_nil & _)]. done.
  - rewrite IH, elem_of_nodes_add_edge. split.
    + intros [[|]|(e' & ? & ?)]; [auto| |].
      * right. exists e. split; [left|done].
      * right. exists e'. split; [by right|done].
    + intros [|(e' & [->|]%elem_of_cons & ?)]; [auto|auto|].
      right. eauto.
Qed.

Lemma nodes_add_edges_from_id G es :
  (∀ e, e ∈ es → e.1 ∈ nodes G ∧ e.2 ∈ nodes G) →
  nodes (add_edges_from G es) = nodes G.
Proof.
  revert G. induction es as [|e es IH]; intros G Hes; simpl; [done|].
  destruct (Hes e) as [H1 H2]; [left|].
  rewrite IH; [by apply nodes_add_edge_id|].
  intros e' He'. rewrite nodes_add_edge_id by done. apply Hes. by right.
Qed.

Lemma elem_of_neighbors_add_edges_from G es a x :
  x ∈ neighbors (add_edges_from G es) a
  ↔ x ∈ neighbors G a ∨ (a, x) ∈ es ∨ (x, a) ∈ es.
Proof.
  revert G. induction es as [|[u v] es IH]; intros G; simpl.
  - rewrite !elem_of_nil. naive_solver.
  - rewrite IH, elem_of_neighbors_add_edge, !elem_of_cons. naive_solver.
Qed.

(** *** The edge view *)

Lemma elem_of_edges_from seen G a b :
  (a, b) ∈ edges_from seen G
  ↔ ∃ G1 nbrs G2,
      G = G1 ++ ((a, nbrs) :: G2) ∧ b ∈ nbrs ∧ b ∉ seen ∧ b ∉ nodes G1.
Proof.
  revert seen. induction G as [|[n nb] G IH]; intros seen; simpl.
  - rewrite elem_of_nil. split; [done|].
    intros (G1 & nbrs & G2 & HG & _). by destruct G1.
  - rewrite elem_of_app, list_elem_of_fmap, IH. split.
    + intros [(y & [= -> ->] & [Hy1 Hy2]%list_elem_of_filter)
             |(G1 & nbrs & G2 & HG & Hb & Hs & Hn)]; [|subst G].
      * exists [], nb, G. split_and!; [done..|]. apply not_elem_of_nil.
      * apply not_elem_of_cons in Hs as [? ?].
        exists ((n, nb) :: G1), nbrs, G2. split_and!; [done..|].
        simpl. rewrite not_elem_of_cons. done.
    + intros (G1 & nbrs & G2 & HG & Hb & Hs & Hn).
      destruct G1 as [|e G1]; simpl in HG.
      * injection HG as -> -> ->. left. exists b. split; [done|].
        by apply list_elem_of_filter.
      * injection HG as <- ->. simpl in Hn.
        apply not_elem_of_cons in Hn as [? ?].
        right. exists G1, nbrs, G2. split_and!; [done..| |done].
        rewrite not_elem_of_cons. done.
Qed.

Lemma nodes_split G a :
  a ∈ nodes G →
  ∃ G1 G2, G = G1 ++ ((a, neighbors G a) :: G2) ∧ a ∉ nodes G1.
Proof.
  induction G as [|[m nbrs] G IH]; simpl.
  - intros []%elem_of_nil.
  - intros Ha. destruct (decide (m = a)) as [->|Hne].
    + exists [], G. split; [done|]. apply not_elem_of_nil.
    + apply elem_of_cons in Ha as [->|Ha]; [done|].
      destruct (IH Ha) as (G1 & G2 & HG & Hn).
      exists ((m, nbrs) :: G1), G2. split.
      * simpl. by rewrite <- HG.
      * simpl. rewrite not_elem_of_cons. auto.
Qed.

Lemma edges_neighbors G a b :
  NoDup (nodes G) → (a, b) ∈ edges G → b ∈ neighbors G a.
Proof.
  intros Hnd (G1 & nbrs & G2 & HG & Hb & _)%elem_of_edges_from. subst G.
  unfold nodes in Hnd. rewrite fmap_app in Hnd.
  apply NoDup_app in Hnd as (_ & Hd & _).
  rewrite neighbors_app. rewrite decide_False.
  - simpl. by rewrite decide_True.
  - intros Ha. apply (Hd a Ha). simpl. left.
Qed.

Lemma neighbors_edges G a b :
  graph_wf G → b ∈ neighbors G a → (a, b) ∈ edges G ∨ (b, a) ∈ edges G.
Proof.
  intros (Hnd & Hsym & Hcl) Hb.
  destruct (nodes_split G a) as (G1 & G2 & HG & Hn).
  { by eapply elem_of_neighbors_node. }
  destruct (decide (b ∈ nodes G1)) as [Hb1|Hb1].
  - right. destruct (nodes_split G1 b Hb1) as (H1 & H2 & HG1 & Hn1).
    apply elem_of_edges_from.
    exists H1, (neighbors G1 b), (H2 ++ ((a, neighbors G a) :: G2)).
    split_and!.
    + rewrite HG at 1. rewrite HG1 at 1. by rewrite <- app_assoc.
    + apply Hsym in Hb. rewrite HG, neighbors_app in Hb.
      by rewrite decide_True in Hb.
    + apply not_elem_of_nil.
    + intros Ha. apply Hn. rewrite HG1. unfold nodes.
      rewrite fmap_app. apply elem_of_app. by left.
  - left. apply elem_of_edges_from.
    exists G1, (neighbors G a), G2. split_and!; [done..| |done].
    apply not_elem_of_nil.
Qed.

Lemma edges_nodes G e :
  graph_wf G → e ∈ edges G → e.1 ∈ nodes G ∧ e.2 ∈ nodes G.
Proof.
  intros HG He. destruct e as [a b].
  apply edges_neighbors in He; [|apply HG]. destruct HG as (_ & _ & Hcl).
  simpl. split; [by eapply elem_of_neighbors_node | by eapply Hcl].
Qed.

(** *** Complete graphs *)

Lemma elem_of_combinations2 (l : list A) a b :
  (a, b) ∈ combinations2 l → a ∈ l ∧ b ∈ l.
Proof.
  induction l as [|x l IH]; simpl.
  - intros []%elem_of_nil.
  - rewrite elem_of_app, list_elem_of_fmap, !elem_of_cons.
    intros [(y & [= -> ->] & Hy)|Hab]; [auto|]. naive_solver.
Qed.

Lemma combinations2_ne (l : list A) a b :
  NoDup l → (a, b) ∈ combinations2 l → a ≠ b.
Proof.
  induction 1 as [|x l Hx Hl IH]; simpl.
  - intros []%elem_of_nil.
  - rewrite elem_of_app, list_elem_of_fmap.
    intros [(y & [= -> ->] & Hy)|Hab]; [naive_solver|auto].
Qed.

Lemma combinations2_total (l : list A) a b :
  a ∈ l → b ∈ l → a ≠ b →
  (a, b) ∈ combinations2 l ∨ (b, a) ∈ combinations2 l.
Proof.
  induction l as [|x l IH]; simpl; [by intros []%elem_of_nil|].
  rewrite !elem_of_cons, !elem_of_app, !list_elem_of_fmap.
  intros [->|Ha] [->|Hb] Hne; [done| | |].
  - left. left. eauto.
  - right. left. eauto.
  - destruct (IH Ha Hb Hne); auto.
Qed.

Lemma nodes_add_nodes_from_fresh G ns :
  NoDup (nodes G ++ ns) → nodes (add_nodes_from G ns) = nodes G ++ ns.
Proof.
  revert G. induction ns as [|n ns IH]; intros G Hnd; simpl.
  - by rewrite app_nil_r.
  - assert (n ∉ nodes G) as Hn.
    { apply NoDup_app in Hnd as (_ & Hd & _). intros Hin.
      apply (Hd n Hin). left. }
    rewrite IH; rewrite nodes_add_node, decide_False by done.
    + by rewrite <- app_assoc.
    + by rewrite <- app_assoc.
Qed.

Lemma graph_wf_complete_graph (l : list A) : graph_wf (complete_graph l).
Proof.
  unfold complete_graph. case_decide.
  - apply graph_wf_add_edges_from, graph_wf_add_nodes_from, graph_wf_empty.
  - apply graph_wf_add_nodes_from, graph_wf_empty.
Qed.

Lemma nodes_complete_graph (l : list A) :
  NoDup l → nodes (complete_graph l) = l.
Proof.
  intros Hl. unfold complete_graph.
  assert (nodes (add_nodes_from (@empty_graph A) l) = l) as Hn.
  { by rewrite nodes_add_nodes_from_fresh. }
  case_decide; [|done].
  rewrite nodes_add_edges_from_id; [done|].
  intros [a b] Hab%elem_of_combinations2. by rewrite Hn.
Qed.

Lemma elem_of_neighbors_complete_graph (l : list A) a x :
  NoDup l →
  x ∈ neighbors (complete_graph l) a ↔ a ∈ l ∧ x ∈ l ∧ a ≠ x.
Proof.
  intros Hl.
  assert (x ∈ neighbors (add_edges_from (add_nodes_from empty_graph l)
                           (combinations2 l)) a
          ↔ a ∈ l ∧ x ∈ l ∧ a ≠ x) as Hall.
  { rewrite elem_of_neighbors_add_edges_from, neighbors_add_nodes_from.
    simpl. rewrite elem_of_nil. split.
    - intros [[]|[Hc|Hc]].
      + pose proof (combinations2_ne _ _ _ Hl Hc).
        apply elem_of_combinations2 in Hc. naive_solver.
      + pose proof (combinations2_ne _ _ _ Hl Hc).
        apply elem_of_combinations2 in Hc. naive_solver.
    - intros (Ha & Hx & Hne). right. by apply combinations2_total. }
  unfold complete_graph. case_decide as Hlen; [done|].
  rewrite neighbors_add_nodes_from. simpl. rewrite elem_of_nil.
  split; [done|]. intros (Ha & Hx & Hne).
  destruct l as [|y [|z l]]; simpl in Hlen; [| |lia].
  - by apply elem_of_nil in Ha.
  - apply list_elem_of_singleton in Ha, Hx. congruence.
Qed.

(** *** Walks *)

Lemma connected_to_trans G u v w :
  connected_to G u v → connected_to G v w → connected_to G u w.
Proof.
  induction 1 as [|u x v Hx Hxv IH]; [done|].
  intros Hvw. eapply connected_step; eauto.
Qed.

Lemma connected_to_edge G u v : v ∈ neighbors G u → connected_to G u v.
Proof. intros. eapply connected_step; [done|apply connected_refl]. Qed.

Lemma connected_to_sym G u v :
  (∀ a b, b ∈ neighbors G a → a ∈ neighbors G b) →
  connected_to G u v → connected_to G v u.
Proof.
  intros Hsym. induction 1 as [|u x v Hx Hxv IH]; [apply connected_refl|].
  eapply connected_to_trans; [exact IH|]. by apply connected_to_edge, Hsym.
Qed.

(** A graph all of whose nodes reach one root is connected. *)
Lemma connected_via_root G r :
  (∀ a b, b ∈ neighbors G a → a ∈ neighbors G b) →
  r ∈ nodes G → (∀ u, u ∈ nodes G → connected_to G u r) → connected G.
Proof.
  intros Hsym Hr Hall. split.
  - intros Hnil. rewrite Hnil in Hr. by apply elem_of_nil in Hr.
  - intros u v Hu Hv. eapply connected_to_trans; [by apply Hall|].
    apply connected_to_sym; [done|]. by apply Hall.
Qed.

(** *** Breadth-first search *)

Section bfs.
Variable G : Graph A.
(** A set of nodes closed under taking neighbours. *)
Variable P : A → Prop.
Hypothesis P_closed : ∀ x y, P x → y ∈ neighbors G x → P y.

Lemma bfs_level_inv seen level seen' next :
  bfs_level G seen level = (seen', next) →
  NoDup seen → Forall P seen → Forall P level →
  NoDup seen' ∧ Forall P seen' ∧ Forall P next.
Proof.
  revert seen seen' next.
  induction level as [|v level IH]; intros seen seen' next; simpl.
  - intros [= <- <-]. auto.
  - intros Hb Hnd Hs Hl. apply Forall_cons in Hl as [Hv Hl].
    case_decide as Hin; [eauto|].
    destruct (bfs_level G (seen ++ [v]) level) as [s1 n1] eqn:Hrec.
    injection Hb as <- <-.
    destruct (IH _ _ _ Hrec) as (? & ? & ?); [| |done|].
    + apply NoDup_app. split_and!; [done| |apply NoDup_singleton].
      by intros x Hx ->%list_elem_of_singleton.
    + apply Forall_app. split; [done|]. by apply Forall_singleton.
    + split_and!; [done..|]. apply Forall_app. split; [|done].
      apply Forall_forall. intros y Hy. by eapply P_closed.
Qed.

Lemma plain_bfs_inv levels seen level :
  NoDup seen → Forall P seen → Forall P level →
  NoDup (plain_bfs levels G seen level)
  ∧ Forall P (plain_bfs levels G seen level).
Proof.
  revert seen level. induction levels as [|k IH]; intros seen level;
    simpl; [auto|].
  intros Hnd Hs Hl. destruct level as [|v level]; [auto|].
  destruct (bfs_level G seen (v :: level)) as [s1 n1] eqn:Hlev.
  destruct (bfs_level_inv _ _ _ _ Hlev) as (? & ? & ?); auto.
Qed.
End bfs.

(** A graph that [nx.is_connected] accepts has one connected
    component. *)
Lemma is_connected_sound G :
  graph_wf G → is_connected G = Ok true → connected G.
Proof.
  intros (Hnd & Hsym & Hcl). unfold is_connected.
  case_eq (nodes G); [done|]. intros s ns Hns Hok.
  set (R := plain_bfs (S (length G)) G [] [s]) in *.
  assert (length R = length G) as Hlen.
  { eapply bool_decide_eq_true_1. congruence. }
  clear Hok.
  assert (s ∈ nodes G) as Hs by (rewrite Hns; left).
  destruct (plain_bfs_inv G (λ x, connected_to G s x ∧ x ∈ nodes G)
              (λ x y Hx Hy, conj (connected_to_trans _ _ _ _ (proj1 Hx)
                                     (connected_to_edge _ _ _ Hy))
                                 (Hcl _ _ Hy))
              (S (length G)) [] [s]) as [Hnd' Hall].
  { apply NoDup_nil_2. }
  { apply Forall_nil_2. }
  { apply Forall_singleton. split; [apply connected_refl|done]. }
  fold R in Hnd', Hall.
  assert (R ≡ₚ nodes G) as Hperm.
  { apply submseteq_length_Permutation.
    - apply NoDup_submseteq; [done|]. intros x Hx.
      rewrite Forall_forall in Hall. by apply Hall.
    - unfold nodes. rewrite length_fmap. lia. }
  apply (connected_via_root G s); [done|done|].
  intros u Hu. apply connected_to_sym; [done|].
  rewrite <- Hperm in Hu. rewrite Forall_forall in Hall. by apply Hall.
Qed.
End graph_facts.

(** ** The clique-gate composer *)

Section union_facts.
Context {A : Type} `{EqDecision A}.

Lemma union_step_spec (G C : Graph A) :
  graph_wf G → graph_wf C →
  let G' := add_edges_from (add_nodes_from G (nodes C)) (edges C) in
  graph_wf G'
  ∧ (∀ x, x ∈ nodes G' ↔ x ∈ nodes G ∨ x ∈ nodes C)
  ∧ (∀ a x, x ∈ neighbors G' a ↔ x ∈ neighbors G a ∨ x ∈ neighbors C a).
Proof.
  intros HG HC G'. split_and!.
  - by apply graph_wf_add_edges_from, graph_wf_add_nodes_from.
  - intros x. unfold G'.
    rewrite elem_of_nodes_add_edges_from, elem_of_nodes_add_nodes_from.
    split; [|tauto]. intros [?|(e & He & Hx)]; [done|].
    right. apply edges_nodes in He as [? ?]; [|done].
    by destruct Hx as [-> | ->].
  - intros a x. unfold G'.
    rewrite elem_of_neighbors_add_edges_from, neighbors_add_nodes_from.
    destruct HC as (Hnd & Hsym & Hcl). split.
    + intros [?|[He|He]]; [by left|right..].
      * by apply edges_neighbors.
      * by apply Hsym, edges_neighbors.
    + intros [?|Hx]; [by left|right].
      by apply neighbors_edges.
Qed.

Lemma union_fold_spec (G : Graph A) (components : list (Graph A)) :
  graph_wf G → Forall graph_wf components →
  let G' := foldl (λ master_graph comp,
                     add_edges_from
                       (add_nodes_from master_graph (nodes comp))
                       (edges comp)) G components in
  graph_wf G'
  ∧ (∀ x, x ∈ nodes G'
          ↔ x ∈ nodes G ∨ ∃ C, C ∈ components ∧ x ∈ nodes C)
  ∧ (∀ a x, x ∈ neighbors G' a
            ↔ x ∈ neighbors G a ∨ ∃ C, C ∈ components ∧ x ∈ neighbors C a).
Proof.
  intros HG Hall. revert G HG.
  induction Hall as [|C components HC Hall IH]; intros G HG; simpl.
  - split_and!; [done|..]; intros; split; auto.
    + intros [|(C & []%elem_of_nil & _)]; done.
    + intros [|(C & []%elem_of_nil & _)]; done.
  - destruct (union_step_spec G C HG HC) as (Hwf & Hn & He).
    destruct (IH _ Hwf) as (Hwf' & Hn' & He'). split_and!; [done|..].
    + intros x. rewrite Hn', Hn. split.
      * intros [[|]|(C' & ? & ?)]; [by left|right..].
        -- exists C. split; [left|done].
        -- exists C'. split; [by right|done].
      * intros [|(C' & [->|]%elem_of_cons & ?)]; [auto|auto|].
        right. eauto.
    + intros a x. rewrite He', He. split.
      * intros [[|]|(C' & ? & ?)]; [by left|right..].
        -- exists C. split; [left|done].
        -- exists C'. split; [by right|done].
      * intros [|(C' & [->|]%elem_of_cons & ?)]; [auto|auto|].
        right. eauto.
Qed.

Lemma union_components_spec (components : list (Graph A)) :
  Forall graph_wf components →
  graph_wf (union_components components)
  ∧ (∀ x, x ∈ nodes (union_components components)
          ↔ ∃ C, C ∈ components ∧ x ∈ nodes C)
  ∧ (∀ a x, x ∈ neighbors (union_components components) a
            ↔ ∃ C, C ∈ components ∧ x ∈ neighbors C a).
Proof.
  intros Hall.
  destruct (union_fold_spec empty_graph components graph_wf_empty Hall)
    as (Hwf & Hn & He).
  split_and!; [done|..].
  - intros x. rewrite Hn. simpl. rewrite elem_of_nil. tauto.
  - intros a x. rewrite He. simpl. rewrite elem_of_nil. tauto.
Qed.
End union_facts.

Lemma connect_half_from (G : Graph Z) (half comp_nodes : list Z) (k : nat) :
  foldM (λ G (p : nat * Z),
           target ←ᵣ py_index comp_nodes p.1; Ok (add_edge G p.2 target))
        G (imap (λ i a, ((k + i)%nat, a)) half)
  = if decide (length half ≤ length (drop k comp_nodes))%nat
    then Ok (add_edges_from G (zip half (drop k comp_nodes)))
    else Raise IndexError.
Proof.
  revert G k. induction half as [|x half IH]; intros G k.
  - done.
  - rewrite imap_cons. cbn [foldM fst snd]. unfold py_index at 1.
    rewrite Nat.add_0_r.
    destruct (comp_nodes !! k) as [c|] eqn:Hk; simpl.
    + rewrite (drop_S _ _ _ Hk).
      rewrite (imap_ext _ (λ i a, ((S k + i)%nat, a))).
      2:{ intros i y _. simpl. f_equal. lia. }
      rewrite IH. simpl. repeat case_decide; done || lia.
    + apply lookup_ge_None in Hk. rewrite drop_ge by done.
      rewrite decide_False; [done|]. simpl. lia.
Qed.

Lemma connect_half_eq (G : Graph Z) (half comp_nodes : list Z) :
  connect_half G half comp_nodes
  = if decide (length half ≤ length comp_nodes)%nat
    then Ok (add_edges_from G (zip half comp_nodes))
    else Raise IndexError.
Proof. apply (connect_half_from G half comp_nodes 0). Qed.

Lemma add_edges_from_app {A : Type} `{EqDecision A} (G : Graph A)
    (es1 es2 : list (A * A)) :
  add_edges_from G (es1 ++ es2) = add_edges_from (add_edges_from G es1) es2.
Proof. apply foldl_app. Qed.

Lemma insert_gate_eq (gates : list (Graph Z)) (src_comp dest_comp : Graph Z)
    (G : Graph Z) (k : nat) :
  insert_gate gates src_comp (G, k) dest_comp
  = match gates !! k with
    | None => Raise IndexError
    | Some gate =>
        if decide (gate_fits (nodes gate) (nodes src_comp) (nodes dest_comp))
        then Ok (add_edges_from G (gate_edges (nodes gate) (nodes src_comp)
                                              (nodes dest_comp)), S k)
        else Raise IndexError
    end.
Proof.
  unfold insert_gate, py_index. destruct (gates !! k) as [gate|]; [|done].
  cbn [rbind]. rewrite connect_half_eq.
  pose proof (Nat.Div0.div_le_upper_bound (length (nodes gate)) 2
                (length (nodes gate))) as Hhalf.
  unfold gate_fits, gate_edges.
  set (h := (length (nodes gate) `div` 2)%nat) in *.
  assert (h ≤ length (nodes gate))%nat as Hh by (apply Hhalf; lia).
  rewrite length_take, Nat.min_l by done.
  destruct (decide (h ≤ length (nodes src_comp))%nat); simpl.
  - rewrite connect_half_eq, length_drop.
    destruct (decide (length (nodes gate) - h ≤ length (nodes dest_comp))%nat).
    + rewrite decide_True by done. simpl. by rewrite add_edges_from_app.
    + rewrite decide_False; [done|]. tauto.
  - rewrite decide_False; [done|]. tauto.
Qed.

(** The two nested loops visit the pairs of components in the order of
    [combinations2]. *)
Lemma insert_gates_flatten (gates : list (Graph Z)) (pre l : list (Graph Z))
    (st : Graph Z * nat) :
  foldM (insert_gates_from gates (pre ++ l)) st
        (imap (λ i a, ((length pre + i)%nat, a)) (take (length l - 1) l))
  = foldM (λ st (p : Graph Z * Graph Z), insert_gate gates p.1 st p.2) st
          (combinations2 l).
Proof.
  revert pre st. induction l as [|x l IH]; intros pre st; [done|].
  destruct l as [|y l]; [done|].
  replace (length (x :: y :: l) - 1)%nat with (S (length (y :: l) - 1))
    by (simpl; lia).
  rewrite firstn_cons, imap_cons. cbn [foldM combinations2].
  rewrite foldM_app. unfold insert_gates_from at 1. cbn [fst snd].
  assert (drop (S (length pre + 0)) (pre ++ (x :: y :: l)) = y :: l) as ->.
  { rewrite Nat.add_0_r. rewrite (cons_middle x pre (y :: l)), app_assoc.
    apply drop_app_length'. rewrite length_app. simpl. lia. }
  replace (foldM (λ st0 (p : Graph Z * Graph Z), insert_gate gates p.1 st0 p.2)
             st (pair x <$> y :: l))
    with (foldM (insert_gate gates x) st (y :: l)).
  2:{ generalize (y :: l). intros l'. revert st.
      induction l' as [|z l' IH']; intros st; [done|].
      simpl. destruct (insert_gate gates x st z); simpl; auto. }
  destruct (foldM (insert_gate gates x) st (y :: l)) as [st'| |];
    cbn [rbind]; [|done..].
  change ((pair y <$> l) ++ combinations2 l) with (combinations2 (y :: l)).
  rewrite <- (IH (pre ++ [x]) st'). rewrite <- app_assoc.
  change ([x] ++ y :: l) with (x :: y :: l).
  f_equal. apply imap_ext. intros i z _. simpl. f_equal.
  rewrite length_app. simpl. lia.
Qed.

Lemma combinations2_fmap {A B : Type} (f : A → B) (l : list A) :
  combinations2 (f <$> l) = prod_map f f <$> combinations2 l.
Proof.
  induction l as [|x l IH]; [done|]. rewrite fmap_cons.
  cbn [combinations2]. rewrite fmap_app, IH. f_equal.
  rewrite <- !list_fmap_compose. done.
Qed.

Lemma insert_pairs_eq (gates : list (Graph Z))
    (pairs : list (Graph Z * Graph Z)) (G : Graph Z) (k : nat) :
  foldM (λ st (p : Graph Z * Graph Z), insert_gate gates p.1 st p.2)
        (G, k) pairs
  = match wiring (nodes <$> drop k gates) (prod_map nodes nodes <$> pairs) with
    | Some es => Ok (add_edges_from G es, (k + length pairs)%nat)
    | None => Raise IndexError
    end.
Proof.
  revert G k. induction pairs as [|[src dst] pairs IH]; intros G k.
  - cbn. do 2 f_equal. lia.
  - cbn [foldM fst snd]. rewrite insert_gate_eq.
    destruct (gates !! k) as [gate|] eqn:Hk.
    + rewrite (drop_S _ _ _ Hk), !fmap_cons. cbn [wiring prod_map fst snd].
      destruct (decide (gate_fits (nodes gate) (nodes src) (nodes dst)));
        cbn [rbind]; [|done].
      rewrite IH.
      destruct (wiring (nodes <$> drop (S k) gates)
                       (prod_map nodes nodes <$> pairs)) as [es|];
        cbn [fmap option_fmap option_map]; [|done].
      rewrite add_edges_from_app. cbn [length]. by rewrite Nat.add_succ_r.
    + apply lookup_ge_None in Hk. rewrite drop_ge by done. done.
Qed.

(** *** The identifier ranges *)

Lemma py_sum_app (l1 l2 : list Z) : py_sum (l1 ++ l2) = py_sum l1 + py_sum l2.
Proof. induction l1 as [|x l1 IH]; simpl; [done|]. rewrite IH. lia. Qed.

Lemma py_sum_seqZ (k : nat) :
  2 * py_sum (seqZ 0 (Z.of_nat k)) = Z.of_nat k * (Z.of_nat k - 1).
Proof.
  induction k as [|k IH]; [done|].
  rewrite seqZ_S, py_sum_app. simpl. lia.
Qed.

Lemma num_gates_nonneg (n : Z) : 0 ≤ num_gates n.
Proof.
  unfold num_gates, py_range. destruct (decide (0 ≤ n)) as [Hn|Hn].
  - pose proof (py_sum_seqZ (Z.to_nat n)) as Hs.
    rewrite Z2Nat.id in Hs by done. rewrite Z.sub_0_r. nia.
  - rewrite seqZ_nil by lia. done.
Qed.

Lemma num_gates_choose2 (n : Z) : 0 ≤ n → num_gates n = choose2 n.
Proof.
  intros Hn. unfold num_gates, choose2, py_range.
  pose proof (py_sum_seqZ (Z.to_nat n)) as Hs.
  rewrite Z2Nat.id in Hs by done. rewrite Z.sub_0_r, <- Hs.
  by rewrite Z.mul_comm, Z.div_mul.
Qed.

Lemma range_len_multiple (start count step : Z) :
  step ≠ 0 → range_len start (start + count * step) step = count.
Proof.
  intros Hstep. unfold range_len. destruct (0 <? step) eqn:Hpos.
  - apply Z.ltb_lt in Hpos.
    replace (start + count * step - start + step - 1)
      with (count * step + (step - 1)) by lia.
    rewrite Z.div_add_l by lia. rewrite Z.div_small by lia. lia.
  - apply Z.ltb_ge in Hpos.
    replace (start - (start + count * step) - step - 1)
      with (count * (- step) + (- step - 1)) by lia.
    rewrite Z.div_add_l by lia. rewrite Z.div_small by lia. lia.
Qed.

Lemma gate_node_ids_eq (n g : Z) :
  gate_node_ids n g
  = if decide (g = 0) then Raise ValueError else Ok (gate_blocks n g).
Proof.
  unfold gate_node_ids, py_range_step. fold (num_gates n).
  destruct (decide (g = 0)) as [->|Hg]; [done|].
  rewrite (proj2 (Z.eqb_neq g 0) Hg). cbn [rbind].
  replace (num_gates n * g) with (0 + num_gates n * g) by lia.
  rewrite range_len_multiple by done.
  unfold gate_blocks. rewrite <- list_fmap_compose. f_equal.
  apply list_fmap_ext. intros i k _. simpl. unfold py_range, gate_block.
  f_equal; lia.
Qed.

Lemma length_gate_blocks (n g : Z) :
  Z.of_nat (length (gate_blocks n g)) = num_gates n.
Proof.
  unfold gate_blocks. rewrite length_fmap, length_seqZ.
  apply Z2Nat.id, num_gates_nonneg.
Qed.

Lemma component_node_ids_eq (n b g : Z) :
  component_node_ids (length (gate_blocks n g)) n b g
  = if decide (b = 0) then Raise ValueError else Ok (comp_blocks n b g).
Proof.
  unfold component_node_ids, py_range_step. rewrite length_gate_blocks.
  destruct (decide (b = 0)) as [->|Hb]; [done|].
  rewrite (proj2 (Z.eqb_neq b 0) Hb). cbn [rbind].
  rewrite range_len_multiple by done.
  unfold comp_blocks. rewrite <- list_fmap_compose. f_equal.
  apply list_fmap_ext. intros i k _. simpl. unfold py_range, comp_block.
  f_equal; lia.
Qed.

Lemma Forall_NoDup_gate_blocks (n g : Z) : Forall NoDup (gate_blocks n g).
Proof.
  apply Forall_fmap, Forall_forall. intros k _. apply NoDup_seqZ.
Qed.

Lemma Forall_NoDup_comp_blocks (n b g : Z) : Forall NoDup (comp_blocks n b g).
Proof.
  apply Forall_fmap, Forall_forall. intros k _. apply NoDup_seqZ.
Qed.

Lemma nodes_complete_graph_fmap {A : Type} `{EqDecision A} (ls : list (list A)) :
  Forall NoDup ls → nodes <$> (complete_graph <$> ls) = ls.
Proof.
  intros Hls. rewrite <- list_fmap_compose.
  rewrite <- (list_fmap_id ls) at 2. apply Forall_fmap_ext_1.
  eapply Forall_impl; [exact Hls|]. intros l Hl. simpl.
  by apply nodes_complete_graph.
Qed.

(** The composer, with its loops resolved: the union of the cliques plus
    the edges of the wiring. *)
Lemma make_complete_clique_gate_graph_eq (n b g : Z) :
  make_complete_clique_gate_graph n b g
  = if decide (g = 0) then Raise ValueError
    else if decide (b = 0) then Raise ValueError
    else match wiring (gate_blocks n g) (combinations2 (comp_blocks n b g)) with
         | Some es =>
             Ok (add_edges_from
                   (union_components
                      (complete_graph
                         <$> (gate_blocks n g ++ comp_blocks n b g))) es)
         | None => Raise IndexError
         end.
Proof.
  unfold make_complete_clique_gate_graph. rewrite gate_node_ids_eq.
  destruct (decide (g = 0)) as [|Hg]; [done|]. cbn [rbind].
  rewrite component_node_ids_eq.
  destruct (decide (b = 0)) as [|Hb]; [done|]. cbn [rbind].
  pose proof (insert_gates_flatten (complete_graph <$> gate_blocks n g) []
                (complete_graph <$> comp_blocks n b g)) as Hflat.
  cbn [app length] in Hflat. unfold enumerate.
  rewrite (imap_ext _ (λ i a, ((0 + i)%nat, a))) by done.
  rewrite Hflat, insert_pairs_eq, drop_0.
  rewrite <- combinations2_fmap.
  rewrite !nodes_complete_graph_fmap
    by (apply Forall_NoDup_gate_blocks || apply Forall_NoDup_comp_blocks).
  rewrite fmap_app.
  by destruct (wiring _ _).
Qed.

(** *** The wiring *)

Lemma gate_edges_zip (gn src dst : list Z) :
  gate_fits gn src dst →
  gate_edges gn src dst
  = zip gn (take (length gn `div` 2) src ++ dst).
Proof.
  intros [Hs Hd]. unfold gate_edges.
  set (h := (length gn `div` 2)%nat) in *.
  assert (h ≤ length gn)%nat as Hh.
  { apply Nat.Div0.div_le_upper_bound. lia. }
  rewrite <- (take_drop h gn) at 3.
  rewrite zip_with_app.
  - f_equal. symmetry. apply zip_with_take_r'. rewrite length_take. lia.
  - rewrite !length_take. lia.
Qed.

Lemma elem_of_gate_edges (gn src dst : list Z) (u v : Z) :
  gate_fits gn src dst →
  (u, v) ∈ gate_edges gn src dst
  ↔ ∃ i, gn !! i = Some u
         ∧ (take (length gn `div` 2) src ++ dst) !! i = Some v.
Proof.
  intros Hfit. rewrite gate_edges_zip by done.
  rewrite list_elem_of_lookup. setoid_rewrite lookup_zip_Some. done.
Qed.

Lemma gate_edges_endpoints (gn src dst : list Z) (u v : Z) :
  gate_fits gn src dst →
  (u, v) ∈ gate_edges gn src dst → u ∈ gn ∧ (v ∈ src ∨ v ∈ dst).
Proof.
  intros Hfit (i & Hu & Hv)%elem_of_gate_edges; [|done]. split.
  - by eapply list_elem_of_lookup_2.
  - apply list_elem_of_lookup_2, elem_of_app in Hv as [Hv|Hv]; [left|by right].
    apply elem_of_take in Hv as (j & Hj & _). by eapply list_elem_of_lookup_2.
Qed.

(** Every node of a gate that fits has a target. *)
Lemma gate_edges_total (gn src dst : list Z) (u : Z) :
  gate_fits gn src dst → u ∈ gn → ∃ v, (u, v) ∈ gate_edges gn src dst.
Proof.
  intros Hfit (i & Hi)%list_elem_of_lookup.
  pose proof (lookup_lt_Some _ _ _ Hi) as Hlt.
  destruct (lookup_lt_is_Some_2 (take (length gn `div` 2) src ++ dst) i)
    as [v Hv].
  { destruct Hfit as [Hs Hd]. rewrite length_app, length_take. lia. }
  exists v. apply elem_of_gate_edges; eauto.
Qed.

(** A node of a gate has at most one target. *)
Lemma gate_edges_functional (gn src dst : list Z) (u v v' : Z) :
  gate_fits gn src dst → NoDup gn →
  (u, v) ∈ gate_edges gn src dst → (u, v') ∈ gate_edges gn src dst → v = v'.
Proof.
  intros Hfit Hnd (i & Hi & Hv)%elem_of_gate_edges
         (j & Hj & Hv')%elem_of_gate_edges; [|done..].
  assert (i = j) as -> by (eapply NoDup_lookup; eauto). congruence.
Qed.

Lemma wiring_Some_inv (gs : list (list Z)) (pairs : list (list Z * list Z))
    (es : list (Z * Z)) :
  wiring gs pairs = Some es →
  (length pairs ≤ length gs)%nat
  ∧ (∀ i gn p, gs !! i = Some gn → pairs !! i = Some p →
               gate_fits gn p.1 p.2)
  ∧ (∀ e, e ∈ es ↔ ∃ i gn p, gs !! i = Some gn ∧ pairs !! i = Some p
                              ∧ e ∈ gate_edges gn p.1 p.2).
Proof.
  revert gs es. induction pairs as [|p pairs IH]; intros gs es; simpl.
  - intros [= <-]. split_and!; [lia|by intros [|?] ? ? ?|].
    intros e. rewrite elem_of_nil. split; [done|].
    by intros (i & gn & p & _ & Hp & _).
  - destruct gs as [|gn gs]; [done|].
    destruct (decide (gate_fits gn p.1 p.2)) as [Hfit|]; [|done].
    destruct (wiring gs pairs) as [es'|] eqn:Hw; [|done].
    intros [= <-]. destruct (IH _ _ Hw) as (Hlen & Hfits & Hes).
    split_and!.
    + simpl. lia.
    + intros [|i] gn' p'; simpl; [by intros [= <-] [= <-]|apply Hfits].
    + intros e. rewrite elem_of_app, Hes. split.
      * intros [He|(i & gn' & p' & ? & ? & ?)].
        -- by exists O, gn, p.
        -- by exists (S i), gn', p'.
      * intros ([|i] & gn' & p' & Hg & Hp & He); simpl in Hg, Hp.
        -- injection Hg as <-. injection Hp as <-. by left.
        -- right. by exists i, gn', p'.
Qed.

Lemma wiring_is_Some (gs : list (list Z)) (pairs : list (list Z * list Z)) :
  (length pairs ≤ length gs)%nat →
  (∀ i gn p, gs !! i = Some gn → pairs !! i = Some p → gate_fits gn p.1 p.2) →
  is_Some (wiring gs pairs).
Proof.
  revert gs. induction pairs as [|p pairs IH]; intros gs Hlen Hfit; simpl.
  - by eexists.
  - destruct gs as [|gn gs]; simpl in Hlen; [lia|].
    rewrite decide_True by (by apply (Hfit O)).
    destruct (IH gs) as [es ->]; [lia| |by eexists].
    intros i gn' p'. apply (Hfit (S i)).
Qed.

(** *** The cliques and what lies between them *)

Lemma length_combinations2 {A : Type} (l : list A) :
  2 * Z.of_nat (length (combinations2 l))
  = Z.of_nat (length l) * (Z.of_nat (length l) - 1).
Proof.
  induction l as [|x l IH]; [done|].
  cbn [combinations2]. rewrite length_app, length_fmap. cbn [length]. lia.
Qed.

Lemma length_comp_blocks (n b g : Z) :
  length (comp_blocks n b g) = Z.to_nat n.
Proof. unfold comp_blocks. by rewrite length_fmap, length_seqZ. Qed.

(** There are as many gates as pairs of big components. *)
Lemma length_pairs_gates (n b g : Z) :
  length (combinations2 (comp_blocks n b g)) = length (gate_blocks n g).
Proof.
  apply Nat2Z.inj. rewrite length_gate_blocks.
  pose proof (length_combinations2 (comp_blocks n b g)) as Hc.
  rewrite length_comp_blocks in Hc.
  destruct (decide (0 ≤ n)) as [Hn|Hn].
  - rewrite Z2Nat.id in Hc by done.
    unfold num_gates, py_range. rewrite Z.sub_0_r.
    pose proof (py_sum_seqZ (Z.to_nat n)) as Hs.
    rewrite Z2Nat.id in Hs by done. lia.
  - unfold num_gates, py_range. rewrite seqZ_nil by lia.
    replace (Z.to_nat n) with O in Hc by lia. simpl in *. lia.
Qed.

Lemma lookup_gate_blocks (n g : Z) (k : nat) (l : list Z) :
  gate_blocks n g !! k = Some l
  ↔ l = gate_block g (Z.of_nat k) ∧ Z.of_nat k < num_gates n.
Proof.
  unfold gate_blocks. rewrite list_lookup_fmap, fmap_Some.
  setoid_rewrite lookup_seqZ. split.
  - intros (i & [-> ?] & ->). done.
  - intros [-> ?]. eexists. split; [split; [reflexivity|done]|done].
Qed.

Lemma lookup_comp_blocks (n b g : Z) (c : nat) (l : list Z) :
  comp_blocks n b g !! c = Some l
  ↔ l = comp_block (num_gates n * g) b (Z.of_nat c) ∧ Z.of_nat c < n.
Proof.
  unfold comp_blocks. rewrite list_lookup_fmap, fmap_Some.
  setoid_rewrite lookup_seqZ. split.
  - intros (i & [-> ?] & ->). done.
  - intros [-> ?]. eexists. split; [split; [reflexivity|done]|done].
Qed.

Lemma in_gate_block (n g : Z) (k : nat) (x : Z) :
  in_block (gate_blocks n g) k x
  ↔ Z.of_nat k < num_gates n
    ∧ Z.of_nat k * g ≤ x < Z.of_nat k * g + g.
Proof.
  unfold in_block. setoid_rewrite lookup_gate_blocks. split.
  - intros (l & [-> ?] & Hx). by apply elem_of_seqZ in Hx.
  - intros [? ?]. eexists. split; [done|]. by apply elem_of_seqZ.
Qed.

Lemma in_comp_block (n b g : Z) (c : nat) (x : Z) :
  in_block (comp_blocks n b g) c x
  ↔ Z.of_nat c < n
    ∧ num_gates n * g + Z.of_nat c * b ≤ x
      < num_gates n * g + Z.of_nat c * b + b.
Proof.
  unfold in_block. setoid_rewrite lookup_comp_blocks. split.
  - intros (l & [-> ?] & Hx). by apply elem_of_seqZ in Hx.
  - intros [? ?]. eexists. split; [done|]. by apply elem_of_seqZ.
Qed.

Lemma gate_blocks_disjoint (n g : Z) (k k' : nat) (x : Z) :
  in_block (gate_blocks n g) k x → in_block (gate_blocks n g) k' x → k = k'.
Proof. rewrite !in_gate_block. intros [? ?] [? ?]. nia. Qed.

Lemma comp_blocks_disjoint (n b g : Z) (c c' : nat) (x : Z) :
  in_block (comp_blocks n b g) c x → in_block (comp_blocks n b g) c' x →
  c = c'.
Proof. rewrite !in_comp_block. intros [? ?] [? ?]. nia. Qed.

Lemma gate_comp_disjoint (n b g : Z) (k c : nat) (x : Z) :
  in_block (gate_blocks n g) k x → in_block (comp_blocks n b g) c x → False.
Proof. rewrite in_gate_block, in_comp_block. intros [? ?] [? ?]. nia. Qed.

Lemma elem_of_in_block (blocks : list (list Z)) (l : list Z) (x : Z) :
  l ∈ blocks → x ∈ l → ∃ k, in_block blocks k x.
Proof.
  intros (k & Hk)%list_elem_of_lookup Hx. exists k, l. done.
Qed.

Lemma has_edge_true {A : Type} `{EqDecision A} (G : Graph A) (u v : A) :
  has_edge G u v = true ↔ v ∈ neighbors G u.
Proof. unfold has_edge. apply bool_decide_eq_true. Qed.

Lemma composer_inv (n b g : Z) (G : Graph Z) :
  make_complete_clique_gate_graph n b g = Ok G →
  g ≠ 0 ∧ b ≠ 0
  ∧ ∃ es, wiring (gate_blocks n g) (combinations2 (comp_blocks n b g))
          = Some es
          ∧ G = add_edges_from
                  (union_components
                     (complete_graph
                        <$> (gate_blocks n g ++ comp_blocks n b g))) es.
Proof.
  rewrite make_complete_clique_gate_graph_eq.
  destruct (decide (g = 0)); [done|]. destruct (decide (b = 0)); [done|].
  destruct (wiring _ _) as [es|]; [|done]. intros [= <-]. eauto.
Qed.

Section composer.
Variables n b g : Z.
Variable es : list (Z * Z).
Hypothesis Hwiring :
  wiring (gate_blocks n g) (combinations2 (comp_blocks n b g)) = Some es.

Local Abbreviation gates := (gate_blocks n g).
Local Abbreviation comps := (comp_blocks n b g).
Local Abbreviation U :=
  (union_components (complete_graph <$> (gates ++ comps))).
Local Abbreviation G := (add_edges_from U es).

Lemma Forall_NoDup_blocks : Forall NoDup (gates ++ comps).
Proof.
  apply Forall_app. split;
    [apply Forall_NoDup_gate_blocks | apply Forall_NoDup_comp_blocks].
Qed.

Lemma union_cliques_spec :
  graph_wf U
  ∧ (∀ x, x ∈ nodes U ↔ ∃ l, l ∈ gates ++ comps ∧ x ∈ l)
  ∧ (∀ u v, v ∈ neighbors U u
            ↔ ∃ l, l ∈ gates ++ comps ∧ u ∈ l ∧ v ∈ l ∧ u ≠ v).
Proof.
  pose proof Forall_NoDup_blocks as Hnd. rewrite Forall_forall in Hnd.
  destruct (union_components_spec (complete_graph <$> (gates ++ comps)))
    as (Hwf & Hn & He).
  { apply Forall_fmap, Forall_forall. intros l _.
    apply graph_wf_complete_graph. }
  split_and!; [done|..].
  - intros x. rewrite (Hn x). split.
    + intros (C & (l & -> & Hl)%list_elem_of_fmap & Hx).
      rewrite nodes_complete_graph in Hx by auto. eauto.
    + intros (l & Hl & Hx). exists (complete_graph l). split.
      * by apply list_elem_of_fmap_2.
      * by rewrite nodes_complete_graph by auto.
  - intros u v. rewrite (He u v). split.
    + intros (C & (l & -> & Hl)%list_elem_of_fmap & Hx).
      apply elem_of_neighbors_complete_graph in Hx; [|auto]. eauto.
    + intros (l & Hl & Hx). exists (complete_graph l). split.
      * by apply list_elem_of_fmap_2.
      * by apply elem_of_neighbors_complete_graph; auto.
Qed.

Lemma composer_wf : graph_wf G.
Proof. apply graph_wf_add_edges_from, union_cliques_spec. Qed.

Lemma bridge_inv (u v : Z) :
  (u, v) ∈ es ↔
  ∃ i gn p, gates !! i = Some gn
            ∧ combinations2 comps !! i = Some p
            ∧ gate_fits gn p.1 p.2
            ∧ (u, v) ∈ gate_edges gn p.1 p.2.
Proof.
  destruct (wiring_Some_inv _ _ _ Hwiring) as (_ & Hfit & Hes).
  rewrite Hes. split.
  - intros (i & gn & p & ? & ? & ?). exists i, gn, p. eauto.
  - intros (i & gn & p & ? & ? & _ & ?). by exists i, gn, p.
Qed.

Lemma pair_blocks (i : nat) (p : list Z * list Z) :
  combinations2 comps !! i = Some p → p.1 ∈ comps ∧ p.2 ∈ comps.
Proof.
  intros Hp%list_elem_of_lookup_2. destruct p as [src dst].
  by apply elem_of_combinations2 in Hp.
Qed.

(** A wiring edge leaves a gate node for a node of a big component. *)
Lemma bridge_blocks (u v : Z) :
  (u, v) ∈ es → ∃ k c, in_block gates k u ∧ in_block comps c v.
Proof.
  intros (i & gn & p & Hg & Hp & Hfit & He)%bridge_inv.
  apply gate_edges_endpoints in He as [Hu Hv]; [|done].
  apply pair_blocks in Hp as [H1 H2].
  exists i. destruct Hv as [Hv|Hv].
  - destruct (elem_of_in_block comps p.1 v) as [c Hc]; [done..|].
    exists c. split; [by exists gn|done].
  - destruct (elem_of_in_block comps p.2 v) as [c Hc]; [done..|].
    exists c. split; [by exists gn|done].
Qed.

Lemma composer_neighbors (u v : Z) :
  v ∈ neighbors G u
  ↔ (∃ l, l ∈ gates ++ comps ∧ u ∈ l ∧ v ∈ l ∧ u ≠ v)
    ∨ (u, v) ∈ es ∨ (v, u) ∈ es.
Proof.
  destruct union_cliques_spec as (_ & _ & He).
  by rewrite elem_of_neighbors_add_edges_from, He.
Qed.

Lemma in_block_app_l (k : nat) (x : Z) :
  in_block gates k x → ∃ l, l ∈ gates ++ comps ∧ x ∈ l.
Proof.
  intros (l & Hl & Hx). exists l. split; [|done].
  apply elem_of_app. left. by eapply list_elem_of_lookup_2.
Qed.

Lemma in_block_app_r (c : nat) (x : Z) :
  in_block comps c x → ∃ l, l ∈ gates ++ comps ∧ x ∈ l.
Proof.
  intros (l & Hl & Hx). exists l. split; [|done].
  apply elem_of_app. right. by eapply list_elem_of_lookup_2.
Qed.

Lemma composer_nodes (x : Z) :
  x ∈ nodes G ↔ ∃ l, l ∈ gates ++ comps ∧ x ∈ l.
Proof.
  destruct union_cliques_spec as (_ & Hn & _).
  rewrite elem_of_nodes_add_edges_from, Hn. split; [|auto].
  intros [?|([u v] & He & Hx)]; [done|]. simpl in Hx.
  apply bridge_blocks in He as (k & c & Hu & Hv).
  destruct Hx as [-> | ->];
    [by eapply in_block_app_l | by eapply in_block_app_r].
Qed.

(** Every edge lies within one clique or joins a gate node and a node
    of a big component. *)
Lemma composer_edge_kinds (u v : Z) :
  v ∈ neighbors G u →
  (∃ k, in_block gates k u ∧ in_block gates k v)
  ∨ (∃ c, in_block comps c u ∧ in_block comps c v)
  ∨ (∃ k c, in_block gates k u ∧ in_block comps c v)
  ∨ (∃ k c, in_block comps c u ∧ in_block gates k v).
Proof.
  intros [(l & Hl & Hu & Hv & _)|[He|He]]%composer_neighbors.
  - apply elem_of_app in Hl as [Hl|Hl];
      apply list_elem_of_lookup in Hl as [k Hk].
    + left. exists k. split; by exists l.
    + right. left. exists k. split; by exists l.
  - right. right. left. by apply bridge_blocks.
  - right. right. right. apply bridge_blocks in He as (k & c & ? & ?).
    by exists k, c.
Qed.

Lemma composer_no_edge_between_comps (u v : Z) (c c' : nat) :
  v ∈ neighbors G u → in_block comps c u → in_block comps c' v → c = c'.
Proof.
  intros Hadj Hu Hv.
  destruct (composer_edge_kinds u v Hadj)
    as [(k & Hk & _)|[(c0 & Hu0 & Hv0)|[(k & _ & Hk & _)|(k & _ & _ & Hk)]]].
  - by destruct (gate_comp_disjoint n b g k c u).
  - rewrite (comp_blocks_disjoint n b g c c0 u) by done.
    by apply (comp_blocks_disjoint n b g c0 c' v).
  - by destruct (gate_comp_disjoint n b g k c u).
  - by destruct (gate_comp_disjoint n b g k c' v).
Qed.

Lemma composer_no_edge_between_gates (u v : Z) (k k' : nat) :
  v ∈ neighbors G u → in_block gates k u → in_block gates k' v → k = k'.
Proof.
  intros Hadj Hu Hv.
  destruct (composer_edge_kinds u v Hadj)
    as [(k0 & Hu0 & Hv0)|[(c & Hc & _)|[(_ & c & _ & Hc)|(_ & c & Hc & _)]]].
  - rewrite (gate_blocks_disjoint n g k k0 u) by done.
    by apply (gate_blocks_disjoint n g k0 k' v).
  - by destruct (gate_comp_disjoint n b g k c u).
  - by destruct (gate_comp_disjoint n b g k' c v).
  - by destruct (gate_comp_disjoint n b g k c u).
Qed.

(** A gate node has exactly one neighbour outside its gate. *)
Lemma composer_gate_node_exit (u : Z) (k : nat) :
  in_block gates k u →
  exists ! v, v ∈ neighbors G u ∧ ¬ in_block gates k v.
Proof.
  intros Hu. pose proof Hu as (gn & Hgn & Hugn).
  destruct (wiring_Some_inv _ _ _ Hwiring) as (_ & Hfits & _).
  destruct (lookup_lt_is_Some_2 (combinations2 comps) k) as [p Hp].
  { rewrite length_pairs_gates.
    by eapply lookup_lt_Some. }
  pose proof (Hfits k gn p Hgn Hp) as Hfit.
  destruct (gate_edges_total gn p.1 p.2 u Hfit Hugn) as [v Hv].
  assert ((u, v) ∈ es) as Hes.
  { apply bridge_inv. by exists k, gn, p. }
  destruct (bridge_blocks u v Hes) as (_ & c & _ & Hc).
  exists v. split.
  - split; [apply composer_neighbors; auto|].
    intros Hk. by apply (gate_comp_disjoint n b g k c v).
  - intros v' [[(l & Hl & Hul & Hvl & _)|[He|He]]%composer_neighbors Hout].
    + destruct Hout. apply elem_of_app in Hl as [Hl|Hl];
        apply list_elem_of_lookup in Hl as [j Hj].
      * assert (k = j) as ->.
        { apply (gate_blocks_disjoint n g k j u); [done|by exists l]. }
        by exists l.
      * destruct (gate_comp_disjoint n b g k j u); [done|by exists l].
    + apply bridge_inv in He as (i & gn' & p' & Hgn' & Hp' & _ & He).
      assert (k = i) as <-.
      { apply (gate_blocks_disjoint n g k i u); [done|].
        exists gn'. split; [done|].
        by apply gate_edges_endpoints in He as [? _]; [|eapply Hfits]. }
      assert (gn' = gn) as -> by congruence.
      assert (p' = p) as -> by congruence.
      eapply gate_edges_functional; eauto.
      pose proof Forall_NoDup_gate_blocks n g as Hnd.
      rewrite Forall_forall in Hnd. apply Hnd.
      by eapply list_elem_of_lookup_2.
    + apply bridge_blocks in He as (_ & c' & _ & Hc').
      by destruct (gate_comp_disjoint n b g k c' u).
Qed.
End composer.

(** *** Valid inputs *)

Lemma length_gate_block (n g : Z) (l : list Z) :
  l ∈ gate_blocks n g → length l = Z.to_nat g.
Proof.
  intros (k & [-> _]%lookup_gate_blocks)%list_elem_of_lookup.
  apply length_seqZ.
Qed.

Lemma length_comp_block (n b g : Z) (l : list Z) :
  l ∈ comp_blocks n b g → length l = Z.to_nat b.
Proof.
  intros (k & [-> _]%lookup_comp_blocks)%list_elem_of_lookup.
  apply length_seqZ.
Qed.

Lemma lookup_combinations2_head {A : Type} (x y : A) (l : list A) (i : nat) :
  l !! i = Some y → combinations2 (x :: l) !! i = Some (x, y).
Proof.
  intros Hi. cbn [combinations2]. apply lookup_app_l_Some.
  by rewrite list_lookup_fmap, Hi.
Qed.

Section valid_inputs.
Variables n b g : Z.
Hypothesis Hn : 2 ≤ n.
Hypothesis Hb : 1 ≤ b.
Hypothesis Hg : 2 ≤ g.
Hypothesis Heven : Z.even g = true.
Hypothesis Hhalf : g `div` 2 ≤ b.

Lemma half_gate_size : (Z.to_nat g `div` 2)%nat = Z.to_nat (g `div` 2).
Proof. rewrite Z2Nat.inj_div by lia. done. Qed.

Lemma gate_size_halves : g = 2 * (g `div` 2).
Proof.
  apply Z.even_spec in Heven as [m ->].
  by rewrite Z.mul_comm, Z.div_mul, Z.mul_comm.
Qed.

Lemma valid_fits (gn src dst : list Z) :
  gn ∈ gate_blocks n g → src ∈ comp_blocks n b g →
  dst ∈ comp_blocks n b g → gate_fits gn src dst.
Proof.
  intros Hgn%length_gate_block Hsrc%length_comp_block
         Hdst%length_comp_block.
  unfold gate_fits. rewrite Hgn, Hsrc, Hdst, half_gate_size.
  pose proof gate_size_halves. lia.
Qed.

Lemma valid_wiring :
  is_Some (wiring (gate_blocks n g) (combinations2 (comp_blocks n b g))).
Proof.
  apply wiring_is_Some.
  - by rewrite length_pairs_gates.
  - intros i gn [src dst] Hgn%list_elem_of_lookup_2
           [? ?]%list_elem_of_lookup_2%elem_of_combinations2.
    by apply valid_fits.
Qed.

(** The nodes are the identifiers below the total count. *)
Lemma valid_blocks_range (x : Z) :
  (∃ l, l ∈ gate_blocks n g ++ comp_blocks n b g ∧ x ∈ l)
  ↔ 0 ≤ x < num_gates n * g + n * b.
Proof.
  pose proof (num_gates_nonneg n) as HT. split.
  - intros (l & [Hl|Hl]%elem_of_app & Hx).
    + destruct (elem_of_in_block _ _ _ Hl Hx) as [k Hk].
      apply in_gate_block in Hk. nia.
    + destruct (elem_of_in_block _ _ _ Hl Hx) as [c Hc].
      apply in_comp_block in Hc. nia.
  - intros [Hx0 Hx1]. destruct (decide (x < num_gates n * g)) as [Hlt|Hge].
    + assert (in_block (gate_blocks n g) (Z.to_nat (x `div` g)) x) as Hk.
      { apply in_gate_block.
        assert (0 ≤ x `div` g) by (apply Z.div_pos; lia).
        rewrite Z2Nat.id by done.
        pose proof (Z.div_mod x g). pose proof (Z.mod_pos_bound x g).
        split; [apply Z.div_lt_upper_bound; lia|nia]. }
      by eapply in_block_app_l.
    + set (y := x - num_gates n * g).
      assert (in_block (comp_blocks n b g) (Z.to_nat (y `div` b)) x) as Hc.
      { apply in_comp_block.
        assert (0 ≤ y `div` b) by (apply Z.div_pos; unfold y; lia).
        rewrite Z2Nat.id by done.
        pose proof (Z.div_mod y b). pose proof (Z.mod_pos_bound y b).
        split; [apply Z.div_lt_upper_bound; unfold y; lia|unfold y in *; nia]. }
      by eapply in_block_app_r.
Qed.
(** The wiring of a successful run. *)
Variable es : list (Z * Z).
Hypothesis Hwiring :
  wiring (gate_blocks n g) (combinations2 (comp_blocks n b g)) = Some es.

Local Abbreviation gates := (gate_blocks n g).
Local Abbreviation comps := (comp_blocks n b g).
Local Abbreviation G :=
  (add_edges_from
     (union_components (complete_graph <$> (gates ++ comps))) es).
Local Abbreviation base := (num_gates n * g).
(** The first node of the [c]-th big component. *)
Local Abbreviation first c := (base + Z.of_nat c * b).

Lemma clique_adjacent (l : list Z) (x y : Z) :
  l ∈ gates ++ comps → x ∈ l → y ∈ l → x ≠ y → y ∈ neighbors G x.
Proof.
  intros. apply composer_neighbors. left. by exists l.
Qed.

Lemma clique_connected (l : list Z) (x y : Z) :
  l ∈ gates ++ comps → x ∈ l → y ∈ l → connected_to G x y.
Proof.
  intros Hl Hx Hy. destruct (decide (x = y)) as [->|Hne].
  - apply connected_refl.
  - apply connected_to_edge. by eapply clique_adjacent.
Qed.

Lemma bridge_connected (u v : Z) :
  (u, v) ∈ es → connected_to G u v ∧ connected_to G v u.
Proof.
  intros He. split; apply connected_to_edge;
    apply composer_neighbors; auto.
Qed.

Lemma lookup_comp (c : nat) :
  Z.of_nat c < n →
  comps !! c = Some (comp_block base b (Z.of_nat c))
  ∧ first c ∈ comp_block base b (Z.of_nat c).
Proof.
  intros Hc. split; [by apply lookup_comp_blocks|].
  apply elem_of_seqZ. lia.
Qed.

(** The gate of a pair reaches the first node of both components. *)
Lemma gate_reaches (i : nat) (gn src dst : list Z) (cs cd : nat) :
  gates !! i = Some gn → combinations2 comps !! i = Some (src, dst) →
  comps !! cs = Some src → comps !! cd = Some dst →
  (Z.of_nat i * g, first cs) ∈ es
  ∧ (Z.of_nat i * g + g `div` 2, first cd) ∈ es.
Proof.
  intros Hgn Hp Hsrc Hdst.
  assert (gate_fits gn src dst) as Hfit.
  { apply valid_fits; by eapply list_elem_of_lookup_2. }
  apply lookup_gate_blocks in Hgn as Hgn'. destruct Hgn' as [-> Hi].
  apply lookup_comp_blocks in Hsrc as Hsrc'. destruct Hsrc' as [-> Hcs].
  apply lookup_comp_blocks in Hdst as Hdst'. destruct Hdst' as [-> Hcd].
  assert (1 ≤ g `div` 2) as Hh1.
  { pose proof gate_size_halves. lia. }
  assert (length (gate_block g (Z.of_nat i)) `div` 2
          = Z.to_nat (g `div` 2))%nat as Hh.
  { unfold gate_block. rewrite length_seqZ. by apply half_gate_size. }
  assert (length (take (Z.to_nat (g `div` 2))
                    (comp_block base b (Z.of_nat cs)))
          = Z.to_nat (g `div` 2)) as Hlt.
  { rewrite length_take. unfold comp_block. rewrite length_seqZ. lia. }
  split; apply (bridge_inv n b g es Hwiring);
    eexists i, _, _; (split_and!; [exact Hgn|exact Hp|exact Hfit|]);
    apply elem_of_gate_edges; [done| |done|]; rewrite Hh; cbn [fst snd].
  - exists O. split.
    + unfold gate_block. rewrite lookup_seqZ_lt by lia. f_equal. lia.
    + rewrite lookup_app_l by (rewrite Hlt; lia).
      rewrite lookup_take_lt by lia.
      unfold comp_block. rewrite lookup_seqZ_lt by lia.
      f_equal. lia.
  - exists (Z.to_nat (g `div` 2)). split.
    + unfold gate_block. rewrite lookup_seqZ_lt.
      * f_equal. lia.
      * pose proof gate_size_halves. lia.
    + rewrite lookup_app_r by lia. rewrite Hlt, Nat.sub_diag.
      unfold comp_block. rewrite lookup_seqZ_lt by lia.
      f_equal. lia.
Qed.

Lemma gate_nodes_connected (i : nat) (gn : list Z) (x : Z) :
  gates !! i = Some gn → x ∈ gn →
  connected_to G x (Z.of_nat i * g)
  ∧ connected_to G x (Z.of_nat i * g + g `div` 2).
Proof.
  intros Hgn Hx. pose proof gate_size_halves.
  assert (gn ∈ gates ++ comps) as Hl.
  { apply elem_of_app. left. by eapply list_elem_of_lookup_2. }
  apply lookup_gate_blocks in Hgn as [-> Hi].
  split; apply (clique_connected _ _ _ Hl Hx); apply elem_of_seqZ; lia.
Qed.

(** The first node of every big component reaches the first node of
    the first one, through the gate the two components share. *)
Lemma first_connected (c : nat) :
  Z.of_nat c < n → connected_to G (first c) (first O).
Proof.
  intros Hc. destruct c as [|j]; [apply connected_refl|].
  destruct (lookup_comp O) as [H0 _]; [lia|].
  destruct (lookup_comp (S j) Hc) as [Hj _].
  assert (∃ rest, comps = comp_block base b (Z.of_nat 0) :: rest
                  ∧ rest !! j = Some (comp_block base b (Z.of_nat (S j))))
    as (rest & Hcomps & Hj').
  { clear Hwiring.
    destruct (comp_blocks n b g) as [|c0 rest]; [done|].
    simpl in H0, Hj. injection H0 as ->. by exists rest. }
  pose proof (lookup_combinations2_head (comp_block base b (Z.of_nat 0))
                _ rest j Hj') as Hp.
  rewrite <- Hcomps in Hp.
  destruct (lookup_lt_is_Some_2 gates j) as [gn Hgn].
  { rewrite <- (length_pairs_gates n b g).
    by eapply lookup_lt_Some. }
  destruct (gate_reaches j gn _ _ O (S j) Hgn Hp H0 Hj) as [He0 Hej].
  apply bridge_connected in He0 as [He0 _].
  apply bridge_connected in Hej as [_ Hej].
  eapply connected_to_trans; [exact Hej|].
  eapply connected_to_trans; [|exact He0].
  apply connected_to_sym; [apply (composer_wf n b g es)|].
  eapply gate_nodes_connected; [exact Hgn|].
  apply lookup_gate_blocks in Hgn as [-> ?]. apply elem_of_seqZ.
  pose proof gate_size_halves. lia.
Qed.

Lemma comp_node_connected (c : nat) (x : Z) :
  in_block comps c x → connected_to G x (first O).
Proof.
  intros (l & Hl & Hx).
  apply lookup_comp_blocks in Hl as Hl'. destruct Hl' as [-> Hc].
  eapply connected_to_trans; [|by apply first_connected].
  destruct (lookup_comp c Hc) as [_ Hf].
  eapply clique_connected; [|exact Hx|exact Hf].
  apply elem_of_app. right. by eapply list_elem_of_lookup_2.
Qed.

Lemma gate_node_connected (k : nat) (x : Z) :
  in_block gates k x → connected_to G x (first O).
Proof.
  intros (gn & Hgn & Hx).
  destruct (lookup_lt_is_Some_2 (combinations2 comps) k) as [[src dst] Hp].
  { rewrite length_pairs_gates. by eapply lookup_lt_Some. }
  destruct (pair_blocks n b g k _ Hp) as [Hsrc Hdst]. simpl in Hsrc, Hdst.
  apply list_elem_of_lookup in Hsrc as [cs Hcs].
  apply list_elem_of_lookup in Hdst as [cd Hcd].
  destruct (gate_reaches k gn src dst cs cd Hgn Hp Hcs Hcd) as [He _].
  apply bridge_connected in He as [He _].
  destruct (gate_nodes_connected k gn x Hgn Hx) as [Hx0 _].
  eapply connected_to_trans; [exact Hx0|].
  eapply connected_to_trans; [exact He|].
  apply first_connected. by apply lookup_comp_blocks in Hcs as [_ ?].
Qed.

Lemma valid_connected : connected G.
Proof.
  apply (connected_via_root G (first O)).
  - apply (composer_wf n b g es).
  - apply (composer_nodes n b g es Hwiring).
    apply (in_block_app_r n b g O). exists (comp_block base b 0).
    apply (lookup_comp O). lia.
  - intros u (l & [Hl|Hl]%elem_of_app & Hu)%(composer_nodes n b g es Hwiring).
    + destruct (elem_of_in_block _ _ _ Hl Hu) as [k Hk].
      by eapply gate_node_connected.
    + destruct (elem_of_in_block _ _ _ Hl Hu) as [c Hc].
      by eapply comp_node_connected.
Qed.

Lemma valid_complete_on (l : list Z) : l ∈ gates ++ comps → complete_on G l.
Proof.
  intros Hl. split_and!.
  - pose proof (Forall_NoDup_blocks n b g) as Hnd.
    rewrite Forall_forall in Hnd. by apply Hnd.
  - intros x Hx. apply (composer_nodes n b g es Hwiring). eauto.
  - intros x y Hx Hy Hne. apply has_edge_true. by eapply clique_adjacent.
Qed.
End valid_inputs.

Lemma in_block_app (l1 l2 : list (list Z)) (i : nat) (x : Z) :
  in_block (l1 ++ l2) i x
  ↔ in_block l1 i x
    ∨ ((length l1 ≤ i)%nat ∧ in_block l2 (i - length l1) x).
Proof.
  unfold in_block. split.
  - intros (l & Hl & Hx). apply lookup_app_Some in Hl as [Hl|[Hlen Hl]].
    + left. by exists l.
    + right. split; [done|]. by exists l.
  - intros [(l & Hl & Hx)|(Hlen & l & Hl & Hx)]; exists l; split; try done.
    + by apply lookup_app_l_Some.
    + rewrite lookup_app_r by done. done.
Qed.

(** The cliques of the composer share no node. *)
Lemma blocks_disjoint (n b g : Z) (i j : nat) (x : Z) :
  in_block (gate_blocks n g ++ comp_blocks n b g) i x →
  in_block (gate_blocks n g ++ comp_blocks n b g) j x → i = j.
Proof.
  rewrite !in_block_app.
  intros [Hi|[Hli Hi]] [Hj|[Hlj Hj]].
  - by eapply gate_blocks_disjoint.
  - by destruct (gate_comp_disjoint n b g _ _ x Hi Hj).
  - by destruct (gate_comp_disjoint n b g _ _ x Hj Hi).
  - pose proof (comp_blocks_disjoint n b g _ _ x Hi Hj). lia.
Qed.

(** C2: for valid inputs the composer returns a graph with exactly
    [num_big_components * big_component_size + C(num_big_components, 2) *
    gate_size] nodes. *)
Theorem clique_gate_node_count (n b g : Z) :
  2 ≤ n → 1 ≤ b → 2 ≤ g → Z.even g = true → g `div` 2 ≤ b →
  ∃ G, make_complete_clique_gate_graph n b g = Ok G
       ∧ Z.of_nat (length (nodes G)) = n * b + choose2 n * g.
Proof.
  intros Hn Hb Hg Heven Hhalf.
  destruct (valid_wiring n b g) as [es Hes]; [done..|].
  eexists. split.
  - rewrite make_complete_clique_gate_graph_eq.
    rewrite !decide_False by lia. by rewrite Hes.
  - set (G := add_edges_from _ es).
    assert (nodes G ≡ₚ seqZ 0 (num_gates n * g + n * b)) as ->.
    { apply NoDup_Permutation.
      - apply (composer_wf n b g es).
      - apply NoDup_seqZ.
      - intros x. rewrite elem_of_seqZ. unfold G.
        rewrite (composer_nodes n b g es Hes).
        rewrite (valid_blocks_range n b g) by done. lia. }
    rewrite length_seqZ, num_gates_choose2 by lia.
    pose proof (num_gates_nonneg n). rewrite num_gates_choose2 in * by lia.
    rewrite Z2Nat.id by nia. lia.
Qed.

Lemma clique_gate_node_count_witness :
  (2 ≤ 2 ∧ 1 ≤ 3 ∧ 2 ≤ 2 ∧ Z.even 2 = true ∧ 2 `div` 2 ≤ 3)
  ∧ ∃ G, make_complete_clique_gate_graph 2 3 2 = Ok G
         ∧ Z.of_nat (length (nodes G)) = 2 * 3 + choose2 2 * 2.
Proof.
  split; [by vm_compute|].
  apply (clique_gate_node_count 2 3 2); [lia|lia|lia|reflexivity|by vm_compute].
Defined.

(** C1: for valid inputs the composer returns one connected graph made
    of C(num_big_components, 2) gates and num_big_components big
    components; every gate is a complete graph on gate_size nodes, every
    big component a complete graph on big_component_size nodes, and these
    cliques partition the nodes. *)
Theorem clique_gate_graph_structure (n b g : Z) :
  2 ≤ n → 1 ≤ b → 2 ≤ g → Z.even g = true → g `div` 2 ≤ b →
  ∃ G gates comps,
    make_complete_clique_gate_graph n b g = Ok G
    ∧ gate_node_ids n g = Ok gates
    ∧ component_node_ids (length gates) n b g = Ok comps
    ∧ connected G
    ∧ Z.of_nat (length gates) = choose2 n
    ∧ Z.of_nat (length comps) = n
    ∧ (∀ l, l ∈ gates → complete_on G l ∧ Z.of_nat (length l) = g)
    ∧ (∀ l, l ∈ comps → complete_on G l ∧ Z.of_nat (length l) = b)
    ∧ (∀ x, x ∈ nodes G ↔ ∃ i, in_block (gates ++ comps) i x)
    ∧ (∀ i j x, in_block (gates ++ comps) i x →
                in_block (gates ++ comps) j x → i = j).
Proof.
  intros Hn Hb Hg Heven Hhalf.
  destruct (valid_wiring n b g) as [es Hes]; [done..|].
  eexists _, (gate_blocks n g), (comp_blocks n b g). split_and!.
  - rewrite make_complete_clique_gate_graph_eq.
    rewrite !decide_False by lia. by rewrite Hes.
  - rewrite gate_node_ids_eq. by rewrite decide_False by lia.
  - rewrite component_node_ids_eq. by rewrite decide_False by lia.
  - by apply (valid_connected n b g).
  - rewrite length_gate_blocks. apply num_gates_choose2. lia.
  - rewrite length_comp_blocks. lia.
  - intros l Hl. split.
    + apply (valid_complete_on n b g es); try done; apply elem_of_app; auto.
    + rewrite (length_gate_block n g) by done. lia.
  - intros l Hl. split.
    + apply (valid_complete_on n b g es); try done; apply elem_of_app; auto.
    + rewrite (length_comp_block n b g) by done. lia.
  - intros x. rewrite (composer_nodes n b g es Hes). split.
    + intros (l & (i & Hi)%list_elem_of_lookup & Hx). by exists i, l.
    + intros (i & l & Hi & Hx). exists l. split; [|done].
      by eapply list_elem_of_lookup_2.
  - apply blocks_disjoint.
Qed.

Lemma clique_gate_graph_structure_witness :
  (2 ≤ 3 ∧ 1 ≤ 2 ∧ 2 ≤ 4 ∧ Z.even 4 = true ∧ 4 `div` 2 ≤ 2)
  ∧ ∃ G gates comps,
      make_complete_clique_gate_graph 3 2 4 = Ok G
      ∧ gate_node_ids 3 4 = Ok gates
      ∧ component_node_ids (length gates) 3 2 4 = Ok comps
      ∧ connected G
      ∧ Z.of_nat (length gates) = choose2 3
      ∧ Z.of_nat (length comps) = 3
      ∧ (∀ l, l ∈ gates → complete_on G l ∧ Z.of_nat (length l) = 4)
      ∧ (∀ l, l ∈ comps → complete_on G l ∧ Z.of_nat (length l) = 2)
      ∧ (∀ x, x ∈ nodes G ↔ ∃ i, in_block (gates ++ comps) i x)
      ∧ (∀ i j x, in_block (gates ++ comps) i x →
                  in_block (gates ++ comps) j x → i = j).
Proof.
  split; [by vm_compute|].
  apply (clique_gate_graph_structure 3 2 4);
    [lia|lia|lia|reflexivity|by vm_compute].
Defined.

(** C10: in a graph the composer returns, no edge joins two distinct big
    components and none joins two distinct gates: an edge lies within
    one clique or joins a gate node and a node of a big component; and
    every gate node has exactly one edge that leaves its gate. *)
Theorem clique_gate_edges_respect_cliques (n b g : Z) (G : Graph Z) :
  make_complete_clique_gate_graph n b g = Ok G →
  ∃ gates comps,
    gate_node_ids n g = Ok gates
    ∧ component_node_ids (length gates) n b g = Ok comps
    ∧ (∀ u v c c', has_edge G u v = true →
         in_block comps c u → in_block comps c' v → c = c')
    ∧ (∀ u v k k', has_edge G u v = true →
         in_block gates k u → in_block gates k' v → k = k')
    ∧ (∀ u v, has_edge G u v = true →
         (∃ k, in_block gates k u ∧ in_block gates k v)
         ∨ (∃ c, in_block comps c u ∧ in_block comps c v)
         ∨ (∃ k c, in_block gates k u ∧ in_block comps c v)
         ∨ (∃ k c, in_block comps c u ∧ in_block gates k v))
    ∧ (∀ u k, in_block gates k u →
         exists ! v, has_edge G u v = true ∧ ¬ in_block gates k v).
Proof.
  intros (Hg & Hb & es & Hes & ->)%composer_inv.
  exists (gate_blocks n g), (comp_blocks n b g). split_and!.
  - rewrite gate_node_ids_eq. by rewrite decide_False.
  - rewrite component_node_ids_eq. by rewrite decide_False.
  - intros u v c c' Hadj%has_edge_true.
    by apply (composer_no_edge_between_comps n b g es Hes).
  - intros u v k k' Hadj%has_edge_true.
    by apply (composer_no_edge_between_gates n b g es Hes).
  - intros u v Hadj%has_edge_true.
    by apply (composer_edge_kinds n b g es Hes).
  - intros u k Hu.
    destruct (composer_gate_node_exit n b g es Hes u k Hu) as (v & Hv & Huniq).
    exists v. split.
    + by rewrite has_edge_true.
    + intros v'. rewrite has_edge_true. apply Huniq.
Qed.

Lemma clique_gate_edges_respect_cliques_witness :
  ∃ G, make_complete_clique_gate_graph 2 3 2 = Ok G
  ∧ ∃ gates comps,
    gate_node_ids 2 2 = Ok gates
    ∧ component_node_ids (length gates) 2 3 2 = Ok comps
    ∧ (∀ u v c c', has_edge G u v = true →
         in_block comps c u → in_block comps c' v → c = c')
    ∧ (∀ u v k k', has_edge G u v = true →
         in_block gates k u → in_block gates k' v → k = k')
    ∧ (∀ u v, has_edge G u v = true →
         (∃ k, in_block gates k u ∧ in_block gates k v)
         ∨ (∃ c, in_block comps c u ∧ in_block comps c v)
         ∨ (∃ k c, in_block gates k u ∧ in_block comps c v)
         ∨ (∃ k c, in_block comps c u ∧ in_block gates k v))
    ∧ (∀ u k, in_block gates k u →
         exists ! v, has_edge G u v = true ∧ ¬ in_block gates k v).
Proof.
  eexists. split; [by vm_compute|].
  apply (clique_gate_edges_respect_cliques 2 3 2). by vm_compute.
Defined.

(** ** The serializer and the entry point *)

Section serializer_facts.
Context {A : Type} `{Countable A} {coord : Type}.
Variable layout_position : Graph A → A → coord.

Lemma remap_node_numbers (acc : list A) (st : gmap A nat * nat) (n : A) :
  numbers acc st →
  numbers (if decide (n ∈ acc) then acc else acc ++ [n]) (remap_node st n).
Proof.
  intros (Hmap & Hcur & Hnd). unfold remap_node.
  destruct (st.1 !! n) as [i|] eqn:Hn.
  - rewrite decide_True; [done|].
    apply Hmap in Hn. by eapply list_elem_of_lookup_2.
  - rewrite decide_False.
    2:{ intros [i Hi]%list_elem_of_lookup. apply Hmap in Hi. congruence. }
    split_and!; cbn [fst snd].
    + intros k i. rewrite lookup_insert. case_decide as Hk.
      * subst k. rewrite Hcur. split.
        -- intros [= <-]. rewrite lookup_app_r by lia.
           by rewrite Nat.sub_diag.
        -- intros Hi. f_equal.
           destruct (decide (i < length acc)%nat) as [Hlt|Hge].
           ++ rewrite lookup_app_l in Hi by done. apply Hmap in Hi.
              congruence.
           ++ apply lookup_lt_Some in Hi. rewrite length_app in Hi.
              simpl in Hi. lia.
      * rewrite Hmap. split.
        -- intros Hi. by apply lookup_app_l_Some.
        -- intros Hi. destruct (decide (i < length acc)%nat) as [Hlt|Hge].
           ++ by rewrite lookup_app_l in Hi.
           ++ rewrite lookup_app_r in Hi by lia.
              apply list_lookup_singleton_Some in Hi as [_ ->]. done.
    + rewrite length_app. simpl. lia.
    + apply NoDup_app. split_and!; [done| |apply NoDup_singleton].
      intros x Hx ->%list_elem_of_singleton.
      apply list_elem_of_lookup in Hx as [i Hi]. apply Hmap in Hi. congruence.
Qed.

Lemma remap_nodes_numbers (l acc : list A) (st : gmap A nat * nat) :
  numbers acc st →
  numbers (foldl (λ acc x, if decide (x ∈ acc) then acc else acc ++ [x]) acc l)
          (foldl remap_node st l).
Proof.
  revert acc st. induction l as [|n l IH]; intros acc st Hst; [done|].
  simpl. by apply IH, remap_node_numbers.
Qed.

(** The identifiers [output_graph] assigns: the [i]-th distinct endpoint
    met along the edge list gets identifier [i]. *)
Lemma remap_first_seen (es : list (A * A)) (k : A) (i : nat) :
  (foldl remap_node (∅, O) (endpoints es)).1 !! k = Some i
  ↔ first_seen (endpoints es) !! i = Some k.
Proof.
  apply (remap_nodes_numbers (endpoints es) [] (∅, O)).
  split_and!; [|done|apply NoDup_nil_2].
  intros k' i'. simpl. rewrite lookup_empty. by split.
Qed.

Lemma remap_node_mono (st : gmap A nat * nat) (n k : A) :
  is_Some (st.1 !! k) → is_Some ((remap_node st n).1 !! k).
Proof.
  intros Hk. unfold remap_node. destruct (st.1 !! n) eqn:Hn; [done|].
  simpl. rewrite lookup_insert. case_decide; eauto.
Qed.

Lemma remap_node_self (st : gmap A nat * nat) (n : A) :
  is_Some ((remap_node st n).1 !! n).
Proof.
  unfold remap_node. destruct (st.1 !! n) eqn:Hn; [by rewrite Hn|].
  simpl. rewrite lookup_insert_eq. eauto.
Qed.

(** The loop over the edges prints a line for each edge and never
    raises. *)
Lemma output_edges_run (es : list (A * A)) (st : gmap A nat * nat)
    (out : list (line coord)) :
  ∃ lines,
    pfoldM output_edge st es out
    = (out ++ lines, Ok (foldl remap_node st (endpoints es)))
    ∧ length lines = length es.
Proof.
  revert st out. induction es as [|[n0 n1] es IH]; intros st out.
  - exists []. by rewrite app_nil_r.
  - cbn [pfoldM]. unfold pbind at 1. unfold output_edge at 1. cbn [fst snd].
    set (st' := remap_node (remap_node st n0) n1).
    destruct (remap_node_mono (remap_node st n0) n1 n0
                (remap_node_self st n0)) as [id0 Hid0].
    destruct (remap_node_self (remap_node st n0) n1) as [id1 Hid1].
    fold st' in Hid0, Hid1.
    unfold pbind, plift, dict_get, print, pret. rewrite Hid0, Hid1.
    destruct (IH st' (out ++ [LEdge id0 id1])) as (lines & Hrun & Hlen).
    exists (LEdge id0 id1 :: lines). split; [|simpl; lia].
    unfold endpoints. rewrite bind_cons. cbn [app foldl fst snd].
    fold st'. fold (endpoints es).
    unfold pbind, pret in Hrun. rewrite Hrun. by rewrite <- app_assoc.
Qed.

Lemma endpoints_remapped (l : list A) (st : gmap A nat * nat) (k : A) :
  is_Some ((foldl remap_node st l).1 !! k) ↔ is_Some (st.1 !! k) ∨ k ∈ l.
Proof.
  revert st. induction l as [|n l IH]; intros st; simpl.
  - rewrite elem_of_nil. tauto.
  - rewrite IH, elem_of_cons. split.
    + intros [Hk|?]; [|tauto]. unfold remap_node in Hk.
      destruct (st.1 !! n) eqn:Hn; [tauto|]. simpl in Hk.
      rewrite lookup_insert in Hk. case_decide; [subst; tauto|tauto].
    + intros [Hk|[->|?]]; [left|left|tauto].
      * by apply remap_node_mono.
      * apply remap_node_self.
Qed.

(** The loop over the layout raises [KeyError] at the first node without
    an identifier. *)
Lemma output_positions_run (m : gmap A nat) (items : list (A * coord))
    (out : list (line coord)) :
  ∃ lines,
    pfoldM (output_position m) tt items out
    = (out ++ lines,
       if decide (Forall (λ item, is_Some (m !! item.1)) items)
       then Ok tt else Raise KeyError).
Proof.
  revert out. induction items as [|[n c] items IH]; intros out.
  - exists []. rewrite app_nil_r. by rewrite decide_True.
  - cbn [pfoldM]. unfold pbind at 1. unfold output_position at 1.
    unfold pbind, plift, dict_get, print. cbn [fst snd].
    destruct (m !! n) as [i|] eqn:Hn.
    + destruct (IH (out ++ [LLayout i c])) as (lines & Hrun).
      exists (LLayout i c :: lines). rewrite Hrun, <- app_assoc.
      cbn [app]. f_equal.
      destruct (decide (Forall (λ item, is_Some (m !! item.1)) items)).
      * rewrite decide_True; [done|]. apply Forall_cons. simpl.
        rewrite Hn. eauto.
      * rewrite decide_False; [done|]. by intros [_ ?]%Forall_cons.
    + exists []. rewrite app_nil_r. rewrite decide_False; [done|].
      intros [[? Hs] _]%Forall_cons. simpl in Hs. congruence.
Qed.

(** [output_graph] returns normally when every node is an endpoint of
    some edge, and raises [KeyError] otherwise. *)
Lemma output_graph_result (G : Graph A) :
  (output_graph layout_position G []).2
  = if decide (Forall (λ n, n ∈ endpoints (edges G)) (nodes G))
    then Ok tt else Raise KeyError.
Proof.
  unfold output_graph, pbind at 1 2, print at 1.
  destruct (output_edges_run (edges G) (∅, O) ([] ++ [LCount (length (nodes G))]))
    as (lines & -> & _).
  set (st := foldl remap_node (∅, O) (endpoints (edges G))).
  unfold pbind at 1, print at 1. unfold pbind.
  destruct (output_positions_run st.1 (kamada_kawai_layout layout_position G)
              ((([] ++ [LCount (length (nodes G))]) ++ lines) ++ [LBlank]))
    as (lines' & ->).
  assert (Forall (λ item : A * coord, is_Some (st.1 !! item.1))
                 (kamada_kawai_layout layout_position G)
          ↔ Forall (λ n, n ∈ endpoints (edges G)) (nodes G)) as Hiff.
  { unfold kamada_kawai_layout. rewrite Forall_fmap.
    apply Forall_iff. intros n. simpl. unfold st.
    rewrite endpoints_remapped. simpl. rewrite lookup_empty.
    split; [by intros [[? [=]]|]|auto]. }
  destruct (decide (Forall (λ item : A * coord, is_Some (st.1 !! item.1))
                      (kamada_kawai_layout layout_position G))) as [Hall|Hnot].
  - rewrite decide_True by (by apply Hiff). done.
  - rewrite decide_False by (by rewrite <- Hiff). done.
Qed.
End serializer_facts.

(** C5: [output_graph] does not drop a node without edges silently: the
    node gets no identifier, and the lookup of its identifier in the
    layout loop raises [KeyError].  Here the graph has the single node 7
    and no edge. *)
Theorem output_graph_isolated_node_raises :
  ∀ (coord : Type) (layout_position : Graph Z → Z → coord),
    output_graph layout_position (add_node empty_graph 7) []
    = ([LCount 1; LBlank], Raise KeyError).
Proof. reflexivity. Qed.

(** The same failure through the entry point:
    [main(['networkgen.py', '1', '1', '2'])] builds the graph with the
    single node 0. *)
Lemma main_single_node_raises :
  ∀ (coord : Type) (layout_position : Graph Z → Z → coord)
    (int_of_string : string → option Z),
    int_of_string "1" = Some 1 → int_of_string "2" = Some 2 →
    main layout_position int_of_string ["networkgen.py"; "1"; "1"; "2"] []
    = ([LCount 1; LBlank], Raise KeyError).
Proof.
  intros coord lp ios H1 H2. unfold main, pbind, plift, py_int. simpl.
  rewrite H1, H2. reflexivity.
Qed.

(** C6: with two arguments after the program name the guard
    [len(argv) < 3] does not fire: nothing is printed and the run ends in
    an exception, [IndexError] at [argv[3]] unless [int] has already
    raised [ValueError]. *)
Theorem main_two_arguments_raise :
  ∀ (coord : Type) (layout_position : Graph Z → Z → coord)
    (int_of_string : string → option Z),
    main layout_position int_of_string ["networkgen.py"; "2"; "3"] []
    = ([], Raise IndexError)
    ∨ main layout_position int_of_string ["networkgen.py"; "2"; "3"] []
      = ([], Raise ValueError).
Proof.
  intros coord lp ios. unfold main, pbind, plift, py_int. simpl.
  destruct (ios "2"); [|by right]. destruct (ios "3"); [by left|by right].
Qed.

(** With fewer than two arguments after the program name [main] prints
    the usage message and returns. *)
Lemma main_usage (coord : Type) (layout_position : Graph Z → Z → coord)
    (int_of_string : string → option Z) (prog : string) (args : list string) :
  (length args < 2)%nat →
  main layout_position int_of_string (prog :: args) []
  = ([LText (usage prog)], Ok None).
Proof.
  intros Hlen. unfold main. rewrite decide_True by (simpl; lia). done.
Qed.

(** ** The social-circles generator *)

(** *** The grid and the neighbour search *)

Lemma axis_index_in_range (dim i : Z) : 0 ≤ i < dim → axis_index dim i = Ok i.
Proof.
  intros Hi. unfold axis_index.
  by rewrite (proj2 (Z.leb_le 0 i)), (proj2 (Z.ltb_lt i dim)) by lia.
Qed.

Lemma grid_key_in_grid (grid : Grid) (x y : Z) :
  in_grid (shape grid) (x, y) → grid_key grid x y = Ok (x, y).
Proof.
  intros [Hx Hy]. unfold grid_key.
  by rewrite !axis_index_in_range by done.
Qed.

Lemma grid_get_in_grid (grid : Grid) (x y : Z) :
  in_grid (shape grid) (x, y) → grid_get grid x y = Ok (grid_cell grid (x, y)).
Proof. intros Hc. unfold grid_get. by rewrite grid_key_in_grid. Qed.

Lemma grid_set_in_grid (grid : Grid) (x y v : Z) :
  in_grid (shape grid) (x, y) →
  grid_set grid x y v
  = Ok {| shape := shape grid;
          cells := <[(x, y) := v `mod` 256]> (cells grid) |}.
Proof. intros Hc. unfold grid_set. by rewrite grid_key_in_grid. Qed.

Lemma elem_of_product (xs ys : list Z) (c : Z * Z) :
  c ∈ product xs ys ↔ c.1 ∈ xs ∧ c.2 ∈ ys.
Proof.
  unfold product. rewrite list_elem_of_bind. split.
  - intros (x & (y & ->%list_elem_of_singleton & Hy)%list_elem_of_bind & Hx).
    done.
  - intros [Hx Hy]. exists c.1. split; [|done].
    apply list_elem_of_bind. exists c.2. split; [|done].
    destruct c. simpl. left.
Qed.

(** The comprehension of [search_for_neighbors] is a filter when every
    cell it reads lies in the grid. *)
Lemma search_fold_filter (grid : Grid) (P : Z → Z * Z → bool)
    (cs acc : list (Z * Z)) :
  Forall (in_grid (shape grid)) cs →
  foldM (λ neighbors (c : Z * Z),
           v ←ᵣ grid_get grid c.1 c.2;
           if P v c then Ok (neighbors ++ [c]) else Ok neighbors) acc cs
  = Ok (acc ++ filter (λ c, P (grid_cell grid c) c = true) cs).
Proof.
  intros Hcs. revert acc. induction Hcs as [|c cs Hc Hcs IH]; intros acc.
  - simpl. by rewrite app_nil_r.
  - cbn [foldM]. destruct c as [i j]. cbn [fst snd].
    rewrite grid_get_in_grid by done. cbn [rbind]. rewrite filter_cons.
    destruct (P (grid_cell grid (i, j)) (i, j)) eqn:HP; cbn [rbind].
    + rewrite IH, decide_True by done. by rewrite <- app_assoc.
    + rewrite IH, decide_False by congruence. done.
Qed.

(** What [search_for_neighbors] returns for an agent in the grid. *)
Lemma search_for_neighbors_spec (grid : Grid) (x y : Z) :
  in_grid (shape grid) (x, y) →
  ∃ neighbors,
    search_for_neighbors grid x y = Ok neighbors
    ∧ ∀ i j, (i, j) ∈ neighbors
             ↔ (Z.max 0 (x - grid_cell grid (x, y)) ≤ i
                < Z.min ((shape grid).1 - 1) (x + grid_cell grid (x, y)))
               ∧ (Z.max 0 (y - grid_cell grid (x, y)) ≤ j
                  < Z.min ((shape grid).2 - 1) (y + grid_cell grid (x, y)))
               ∧ 0 < grid_cell grid (i, j)
               ∧ distance_le x y i j (grid_cell grid (x, y)) = true
               ∧ (i, j) ≠ (x, y).
Proof.
  intros Hxy. eexists.
  unfold search_for_neighbors. rewrite grid_get_in_grid by done.
  cbn [rbind]. set (r := grid_cell grid (x, y)).
  rewrite (search_fold_filter grid
             (λ v c, (0 <? v) && distance_le x y c.1 c.2 r
                     && negb (bool_decide ((x, y) = c)))).
  2:{ apply Forall_forall. intros [i j] [Hi Hj]%elem_of_product.
      unfold py_range in Hi, Hj. apply elem_of_seqZ in Hi, Hj.
      simpl in Hi, Hj. split; simpl; lia. }
  split; [done|].
  intros i j. rewrite app_nil_l, list_elem_of_filter, elem_of_product.
  unfold py_range. rewrite !elem_of_seqZ. cbn [fst snd].
  rewrite !andb_true_iff, negb_true_iff, bool_decide_eq_false, Z.ltb_lt.
  split.
  - intros ([[? ?] ?] & ? & ?). split_and!; first [done|lia|congruence].
  - intros (? & ? & ? & ? & ?). split_and!; first [done|lia|congruence].
Qed.

(** C8: for an agent at cell [(x, y)] with reach [r] (the value of the
    cell) the search returns exactly the occupied cells [(i, j)], other
    than [(x, y)], within distance [r] and with
    [max(0, x-r) <= i < min(dim-1, x+r)] and
    [max(0, y-r) <= j < min(dim-1, y+r)]: the cells at coordinate
    [x+r] or [y+r], and those of the last row and column of the grid,
    are never returned. *)
Theorem search_for_neighbors_box (grid : Grid) (x y : Z) :
  in_grid (shape grid) (x, y) →
  ∃ r neighbors,
    grid_get grid x y = Ok r
    ∧ search_for_neighbors grid x y = Ok neighbors
    ∧ (∀ i j, (i, j) ∈ neighbors
              ↔ (Z.max 0 (x - r) ≤ i < Z.min ((shape grid).1 - 1) (x + r))
                ∧ (Z.max 0 (y - r) ≤ j < Z.min ((shape grid).2 - 1) (y + r))
                ∧ 0 < grid_cell grid (i, j)
                ∧ distance_le x y i j r = true
                ∧ (i, j) ≠ (x, y))
    ∧ (∀ i j, (i, j) ∈ neighbors →
              i ≠ x + r ∧ j ≠ y + r
              ∧ i ≠ (shape grid).1 - 1 ∧ j ≠ (shape grid).2 - 1).
Proof.
  intros Hxy. exists (grid_cell grid (x, y)).
  destruct (search_for_neighbors_spec grid x y Hxy) as (nbrs & Hrun & Hchar).
  exists nbrs. split_and!; [by apply grid_get_in_grid|done|exact Hchar|].
  intros i j (? & ? & _)%Hchar. lia.
Qed.

Lemma search_for_neighbors_box_witness :
  in_grid (shape example_grid) (1, 1)
  ∧ ∃ r neighbors,
      grid_get example_grid 1 1 = Ok r
      ∧ search_for_neighbors example_grid 1 1 = Ok neighbors
      ∧ (∀ i j, (i, j) ∈ neighbors
                ↔ (Z.max 0 (1 - r) ≤ i
                   < Z.min ((shape example_grid).1 - 1) (1 + r))
                  ∧ (Z.max 0 (1 - r) ≤ j
                     < Z.min ((shape example_grid).2 - 1) (1 + r))
                  ∧ 0 < grid_cell example_grid (i, j)
                  ∧ distance_le 1 1 i j r = true
                  ∧ (i, j) ≠ (1, 1))
      ∧ (∀ i j, (i, j) ∈ neighbors →
                i ≠ 1 + r ∧ j ≠ 1 + r
                ∧ i ≠ (shape example_grid).1 - 1
                ∧ j ≠ (shape example_grid).2 - 1).
Proof.
  split; [by vm_compute|].
  apply (search_for_neighbors_box example_grid 1 1). by vm_compute.
Defined.

(** *** Runs and their outcomes *)

Lemma outcome_bind {A B : Type} (E : Prop) (P : A → Prop) (Q : B → Prop)
    (r : result A) (f : A → result B) :
  outcome E P r → (∀ a, P a → outcome E Q (f a)) → outcome E Q (rbind r f).
Proof. destruct r; simpl; auto. Qed.

Lemma outcome_mono {A : Type} (E : Prop) (P Q : A → Prop) (r : result A) :
  (∀ a, P a → Q a) → outcome E P r → outcome E Q r.
Proof. destruct r; simpl; auto. Qed.

(** A loop invariant that may depend on the iterations still to run. *)
Lemma foldM_outcome {A S : Type} (E : Prop) (I : list A → S → Prop)
    (f : S → A → result S) (l : list A) (s : S) :
  I l s →
  (∀ a rest s, I (a :: rest) s → outcome E (I rest) (f s a)) →
  outcome E (I []) (foldM f s l).
Proof.
  intros Hs Hstep. revert s Hs.
  induction l as [|a l IH]; intros s Hs; simpl; [done|].
  eapply outcome_bind; [by apply Hstep|]. auto.
Qed.

(** *** Sorting by reach *)

Lemma insert_by_reach_perm (aq : Agent * Z) (l : list (Agent * Z)) :
  insert_by_reach aq l ≡ₚ aq :: l.
Proof.
  induction l as [|aq' l IH]; simpl; [done|].
  destruct (reach aq.1 <? reach aq'.1); [|done].
  rewrite IH. apply Permutation_swap.
Qed.

Lemma sorted_by_reach_perm (items : list (Agent * Z)) :
  sorted_by_reach items ≡ₚ items.
Proof.
  induction items as [|aq items IH]; simpl; [done|].
  by rewrite insert_by_reach_perm, IH.
Qed.

(** *** The adjacency matrix *)

Lemma matrix_entry_set (M M' : list (list Z)) (a b : nat) (v : Z) (i j : nat) :
  matrix_set M a b v = Ok M' →
  matrix_entry M' i j
  = if decide (i = a ∧ j = b) then v else matrix_entry M i j.
Proof.
  unfold matrix_set, py_index. destruct (M !! a) as [row|] eqn:Ha; [|done].
  cbn [rbind]. case_decide as Hb; [|done]. intros [= <-].
  unfold matrix_entry. pose proof (lookup_lt_Some _ _ _ Ha) as Hlt.
  destruct (decide (i = a)) as [->|Hia].
  - rewrite list_lookup_insert_eq by done. rewrite Ha. cbn.
    destruct (decide (j = b)) as [->|Hjb].
    + rewrite decide_True by done. by rewrite list_lookup_insert_eq.
    + rewrite decide_False by naive_solver.
      by rewrite list_lookup_insert_ne.
  - rewrite decide_False by naive_solver.
    by rewrite list_lookup_insert_ne.
Qed.

Lemma matrix_set_shape (M M' : list (list Z)) (a b : nat) (v : Z) (n : nat) :
  matrix_set M a b v = Ok M' →
  length M = n → Forall (λ row, length row = n) M →
  length M' = n ∧ Forall (λ row, length row = n) M'.
Proof.
  unfold matrix_set, py_index. destruct (M !! a) as [row|] eqn:Ha; [|done].
  cbn [rbind]. case_decide as Hb; [|done]. intros [= <-] Hlen Hrows.
  rewrite length_insert. split; [done|].
  apply Forall_insert; [done|]. rewrite length_insert.
  rewrite Forall_forall in Hrows. apply Hrows.
  by eapply list_elem_of_lookup_2.
Qed.

Lemma matrix_set_in_range (M : list (list Z)) (a b : nat) (v : Z) (n : nat) :
  length M = n → Forall (λ row, length row = n) M →
  (a < n)%nat → (b < n)%nat → ∃ M', matrix_set M a b v = Ok M'.
Proof.
  intros Hlen Hrows Ha Hb. unfold matrix_set, py_index.
  destruct (lookup_lt_is_Some_2 M a) as [row Hrow]; [lia|].
  rewrite Hrow. cbn [rbind].
  rewrite Forall_forall in Hrows.
  rewrite decide_True; [by eexists|].
  rewrite (Hrows row); [done|]. by eapply list_elem_of_lookup_2.
Qed.

Lemma matrix_entry_zeros (n : nat) (a b : nat) :
  matrix_entry (replicate n (replicate n 0)) a b = 0.
Proof.
  unfold matrix_entry.
  destruct (replicate n (replicate n 0) !! a) as [row|] eqn:Ha; [|done].
  apply lookup_replicate in Ha as [-> _]. cbn.
  destruct (replicate n 0 !! b) as [v|] eqn:Hb; [|done].
  by apply lookup_replicate in Hb as [-> _].
Qed.

Lemma matrix_entry_in_range (M : list (list Z)) (n a b : nat) :
  length M = n → Forall (λ row, length row = n) M →
  matrix_entry M a b ≠ 0 → (a < n)%nat ∧ (b < n)%nat.
Proof.
  intros Hlen Hrows. unfold matrix_entry.
  destruct (M !! a) as [row|] eqn:Ha; [|done]. cbn.
  destruct (row !! b) as [v|] eqn:Hb; [|done]. intros _.
  rewrite Forall_forall in Hrows.
  apply lookup_lt_Some in Ha as Ha'. apply lookup_lt_Some in Hb.
  rewrite (Hrows row) in Hb by (by eapply list_elem_of_lookup_2). lia.
Qed.

Lemma elem_of_nonzero (M : list (list Z)) (a b : nat) :
  (a, b) ∈ nonzero M ↔ matrix_entry M a b ≠ 0.
Proof.
  unfold nonzero, matrix_entry, enumerate. rewrite list_elem_of_bind. split.
  - intros ([i row] & Hab & (i' & row' & [= -> ->] & Hrow)%elem_of_lookup_imap).
    apply list_elem_of_bind in Hab
      as ([j v] & Hab & (j' & v' & [= -> ->] & Hv)%elem_of_lookup_imap).
    destruct (decide (v' = 0)); [by apply elem_of_nil in Hab|].
    apply list_elem_of_singleton in Hab as [= -> ->].
    rewrite Hrow. cbn. by rewrite Hv.
  - destruct (M !! a) as [row|] eqn:Ha; [|done]. cbn.
    destruct (row !! b) as [v|] eqn:Hb; [|done]. cbn. intros Hv.
    exists (a, row). split; [|by apply elem_of_lookup_imap; eauto].
    apply list_elem_of_bind. exists (b, v).
    split; [|by apply elem_of_lookup_imap; eauto].
    rewrite decide_False by done. left.
Qed.

Lemma graph_of_matrix_wf (M : list (list Z)) : graph_wf (graph_of_matrix M).
Proof.
  apply graph_wf_add_edges_from, graph_wf_add_nodes_from, graph_wf_empty.
Qed.

Lemma neighbors_graph_of_matrix (M : list (list Z)) (u v : nat) :
  v ∈ neighbors (graph_of_matrix M) u
  ↔ matrix_entry M u v ≠ 0 ∨ matrix_entry M v u ≠ 0.
Proof.
  unfold graph_of_matrix.
  rewrite elem_of_neighbors_add_edges_from, neighbors_add_nodes_from.
  rewrite !elem_of_nonzero. simpl. rewrite elem_of_nil. tauto.
Qed.

Lemma nodes_graph_of_matrix (M : list (list Z)) (n : nat) :
  length M = n → Forall (λ row, length row = n) M →
  nodes (graph_of_matrix M) = seq 0 n.
Proof.
  intros Hlen Hrows. unfold graph_of_matrix.
  assert (nodes (add_nodes_from (@empty_graph nat) (seq 0 (length M)))
          = seq 0 n) as Hn.
  { rewrite nodes_add_nodes_from_fresh; simpl; [by rewrite Hlen|].
    apply NoDup_seq. }
  rewrite nodes_add_edges_from_id; [done|].
  intros [a b] Hab%elem_of_nonzero. rewrite Hn, !elem_of_seq. simpl.
  pose proof (matrix_entry_in_range M n a b Hlen Hrows Hab). lia.
Qed.

(** *** Placing the agents *)

Lemma grid_cell_insert (sh : Z * Z) (cs : gmap (Z * Z) Z) (c c' : Z * Z) (v : Z) :
  grid_cell {| shape := sh; cells := <[c := v]> cs |} c'
  = if decide (c = c') then v else grid_cell {| shape := sh; cells := cs |} c'.
Proof.
  unfold grid_cell. cbn [cells]. rewrite lookup_insert. by case_decide.
Qed.

Lemma grid_cell_nonneg (grid : Grid) (c : Z * Z) :
  uint8_grid grid → 0 ≤ grid_cell grid c.
Proof.
  intros Hb. unfold grid_cell.
  destruct (cells grid !! c) as [v|] eqn:Hc; [|done].
  apply Hb in Hc. simpl. lia.
Qed.

Section generator_steps.
Variable rand : nat → Z.
Variable fuel : nat.
Variable items : list (Agent * Z).
Variable grid_size : Z * Z.

Local Abbreviation E := (¬ valid_request items grid_size).
Local Abbreviation num := (Z.to_nat (py_sum (snd <$> items))).
Local Abbreviation Inv := (attempt_inv items grid_size).

Lemma integers_outcome (high : Z) (k : nat) :
  (valid_request items grid_size → 0 < high) →
  outcome E (λ r, 0 ≤ r.1 < high) (integers rand high k).
Proof.
  intros Hhigh. unfold integers. destruct (high <=? 0) eqn:Hle; simpl.
  - apply Z.leb_le in Hle. intros Hv%Hhigh. lia.
  - apply Z.leb_gt in Hle. by apply Z.mod_pos_bound.
Qed.

Lemma draw_spot_outcome (grid : Grid) (k : nat) :
  shape grid = grid_size →
  outcome E (λ r, in_grid grid_size (r.1.1, r.1.2)) (draw_spot rand grid k).
Proof.
  intros Hshape. unfold draw_spot. rewrite Hshape.
  eapply outcome_bind.
  { apply integers_outcome. by intros (_ & _ & ? & _). }
  intros [x k1] Hx. eapply outcome_bind.
  { apply integers_outcome. by intros (_ & _ & _ & ?). }
  intros [y k2] Hy. simpl in *. by split.
Qed.

Lemma choose_loop_outcome (n : nat) (grid : Grid) (x y : Z) (k : nat) :
  shape grid = grid_size → uint8_grid grid → in_grid grid_size (x, y) →
  outcome E (λ r, in_grid grid_size (r.1.1, r.1.2)
                  ∧ grid_cell grid (r.1.1, r.1.2) = 0)
          (choose_loop rand n grid x y k).
Proof.
  intros Hshape Hbytes. revert x y k.
  induction n as [|n IH]; intros x y k Hxy; cbn [choose_loop];
    rewrite grid_get_in_grid by (by rewrite Hshape); cbn [rbind];
    destruct (0 <? grid_cell grid (x, y)) eqn:Hv.
  - done.
  - apply Z.ltb_ge in Hv. pose proof (grid_cell_nonneg grid (x, y) Hbytes).
    simpl. split; [done|lia].
  - eapply outcome_bind; [by apply draw_spot_outcome|].
    intros [[x' y'] k'] Hxy'. by apply IH.
  - apply Z.ltb_ge in Hv. pose proof (grid_cell_nonneg grid (x, y) Hbytes).
    simpl. split; [done|lia].
Qed.

Lemma choose_empty_spot_outcome (grid : Grid) (k : nat) :
  shape grid = grid_size → uint8_grid grid →
  outcome E (λ r, in_grid grid_size (r.1.1, r.1.2)
                  ∧ grid_cell grid (r.1.1, r.1.2) = 0)
          (choose_empty_spot rand fuel grid k).
Proof.
  intros Hshape Hbytes. unfold choose_empty_spot.
  eapply outcome_bind; [by apply draw_spot_outcome|].
  intros [[x y] k'] Hxy. by apply choose_loop_outcome.
Qed.

(** Placing one agent on an empty cell keeps the invariant. *)
Lemma place_on_empty_cell (placed : list Agent) (st : attempt_state)
    (a : Agent) (c : Z * Z) (k : nat) :
  Inv placed st → (∃ q, (a, q) ∈ items) →
  (valid_request items grid_size → (S (current_id st) ≤ num)%nat) →
  in_grid grid_size c → grid_cell (grid st) c = 0 →
  Inv (placed ++ [a])
      {| grid := {| shape := shape (grid st);
                    cells := <[c := reach a `mod` 256]> (cells (grid st)) |};
         M := M st;
         loc_to_id := <[c := current_id st]> (loc_to_id st);
         current_id := S (current_id st);
         draws := k |}.
Proof.
  intros HI [q Hq] Hroom Hc Hempty. destruct HI. destruct st as [g Mx loc cur d].
  cbn [grid M loc_to_id current_id draws] in *.
  destruct g as [sh cs]. cbn [shape cells] in *.
  assert (∀ c', grid_cell {| shape := sh; cells := cs |} c' ≠ 0 → c ≠ c')
    as Hother by (intros c' Hne ->; done).
  split; cbn [grid M loc_to_id current_id draws shape cells].
  - done.
  - unfold uint8_grid. cbn [cells]. intros c' v.
    rewrite lookup_insert. case_decide.
    + intros [= <-]. by apply Z.mod_pos_bound.
    + apply inv_bytes0.
  - rewrite length_app. simpl. lia.
  - intros c'. rewrite !lookup_insert. case_decide; [|apply inv_dom0].
    split; eauto.
  - intros c' id. rewrite lookup_insert. case_decide.
    + intros [= <-]. subst c'. split; [done|lia].
    + intros Hid. destruct (inv_ids0 c' id Hid). split; [done|lia].
  - intros c1 c2 id. rewrite !lookup_insert.
    repeat case_decide; try congruence.
    + intros [= <-] Hid. destruct (inv_ids0 c2 _ Hid). lia.
    + intros Hid [= <-]. destruct (inv_ids0 c1 _ Hid). lia.
    + apply inv_inj0.
  - intros c' id. rewrite lookup_insert, grid_cell_insert. case_decide.
    + intros [= <-] _. exists a. split; [|done].
      rewrite lookup_app_r by lia. by rewrite inv_count0, Nat.sub_diag.
    + intros Hid Hne. destruct (inv_reach0 c' id Hid Hne) as (a' & Ha' & Hr).
      exists a'. split; [|done]. by apply lookup_app_l_Some.
  - done.
  - intros i j Hij. cbn [grid loc_to_id].
    destruct (inv_edges0 i j Hij) as (ca & cb & Ha & Hb & Hna & Hnb & Hd).
    cbn [grid loc_to_id] in *.
    exists ca, cb. rewrite !lookup_insert_ne by auto.
    rewrite !grid_cell_insert, !decide_False by auto. done.
  - done.
  - intros Hnz c'. rewrite lookup_insert, grid_cell_insert. case_decide.
    + intros _. unfold stored_reach_nonzero in Hnz.
      rewrite Forall_forall in Hnz. apply (Hnz (a, q) Hq).
    + by apply inv_occupied0.
  - intros Hnz id Hid. destruct (decide (id = cur)) as [->|Hne].
    + exists c. by rewrite lookup_insert_eq.
    + destruct (inv_onto0 Hnz id) as [c' Hc']; [lia|]. exists c'.
      rewrite lookup_insert_ne; [done|]. apply Hother.
      apply inv_occupied0; eauto.
Qed.

Lemma place_agent_outcome (placed : list Agent) (st : attempt_state)
    (new_agents : list (Z * Z)) (a : Agent) (i : Z) :
  Inv placed st → (∃ q, (a, q) ∈ items) →
  (valid_request items grid_size → (S (current_id st) ≤ num)%nat) →
  outcome E
    (λ r, Inv (placed ++ [a]) r.1
          ∧ current_id r.1 = S (current_id st)
          ∧ (∃ c, r.2 = new_agents ++ [c] ∧ in_grid grid_size c
                  ∧ is_Some (loc_to_id r.1 !! c))
          ∧ (∀ c, is_Some (loc_to_id st !! c) → is_Some (loc_to_id r.1 !! c)))
    (place_agent rand fuel a (st, new_agents) i).
Proof.
  intros HI Ha Hroom. unfold place_agent.
  eapply outcome_bind.
  { apply choose_empty_spot_outcome; apply HI. }
  intros [[x y] k] [Hxy Hempty]. cbn [fst snd] in Hxy, Hempty.
  rewrite grid_set_in_grid by (by rewrite (inv_shape _ _ _ _ HI)).
  cbn [rbind outcome fst snd]. split_and!.
  - by apply place_on_empty_cell.
  - done.
  - exists (x, y). split_and!; [done..|].
    cbn [loc_to_id]. rewrite lookup_insert_eq. eauto.
  - intros c Hsome. cbn [loc_to_id]. rewrite lookup_insert.
    case_decide; eauto.
Qed.
End generator_steps.

(** *** Connecting the agents *)

Lemma distance_le_zero (x y i j : Z) :
  distance_le x y i j 0 = true → (i, j) = (x, y).
Proof.
  unfold distance_le. intros H%Z.leb_le.
  assert (x - i = 0 ∧ y - j = 0) as [? ?] by nia. f_equal; lia.
Qed.

Lemma length_expand_cons (aq : Agent * Z) (l : list (Agent * Z)) :
  length (expand (aq :: l)) = (Z.to_nat aq.2 + length (expand l))%nat.
Proof.
  unfold expand. rewrite bind_cons, length_app, length_replicate. done.
Qed.

Lemma length_expand_sum (l : list (Agent * Z)) :
  Forall (λ aq : Agent * Z, 0 ≤ aq.2) l →
  Z.of_nat (length (expand l)) = py_sum (snd <$> l).
Proof.
  induction 1 as [|aq l Hq Hl IH]; [done|].
  rewrite length_expand_cons, fmap_cons. cbn [py_sum foldr].
  fold (py_sum (snd <$> l)). lia.
Qed.

Section generator_loops.
Variable rand : nat → Z.
Variable fuel : nat.
Variable items : list (Agent * Z).
Variable grid_size : Z * Z.

Local Abbreviation E := (¬ valid_request items grid_size).
Local Abbreviation num := (Z.to_nat (py_sum (snd <$> items))).
Local Abbreviation Inv := (attempt_inv items grid_size).
Local Abbreviation matrix_ok Mx :=
  (length Mx = num ∧ Forall (λ row : list Z, length row = num) Mx).

Lemma matrix_set_outcome (Mx : list (list Z)) (a b : nat) (v : Z) :
  matrix_ok Mx →
  (valid_request items grid_size → (a < num)%nat ∧ (b < num)%nat) →
  outcome E
    (λ M', matrix_ok M'
           ∧ ∀ i j, matrix_entry M' i j
                    = if decide (i = a ∧ j = b) then v else matrix_entry Mx i j)
    (matrix_set Mx a b v).
Proof.
  intros [Hlen Hrows] Hrange.
  destruct (matrix_set Mx a b v) as [M'|e|] eqn:Hset; simpl; [| |done].
  - split; [by eapply matrix_set_shape|].
    intros i j. by eapply matrix_entry_set.
  - intros [Ha Hb]%Hrange.
    destruct (matrix_set_in_range Mx a b v num Hlen Hrows Ha Hb) as [M' HM'].
    congruence.
Qed.

Lemma connect_pair_outcome (st : attempt_state) (placed : list Agent)
    (xy ij : Z * Z) (Mx : list (list Z)) :
  Inv placed st → matrix_ok Mx → edges_ok st Mx →
  is_Some (loc_to_id st !! xy) → reaches (grid st) xy ij →
  outcome E (λ M', matrix_ok M' ∧ edges_ok st M') (connect_pair st xy Mx ij).
Proof.
  intros HI HM Hedges [a Ha] (Hpos & Hdist & Hne).
  assert (is_Some (loc_to_id st !! ij)) as [b Hb].
  { apply (inv_dom _ _ _ _ HI). unfold grid_cell in Hpos.
    destruct (cells (grid st) !! ij); [eauto|]. simpl in Hpos. lia. }
  assert (valid_request items grid_size → (a < num)%nat ∧ (b < num)%nat)
    as Hrange.
  { intros Hv. pose proof (inv_bound _ _ _ _ HI Hv).
    destruct (inv_ids _ _ _ _ HI xy a Ha), (inv_ids _ _ _ _ HI ij b Hb). lia. }
  assert (grid_cell (grid st) xy ≠ 0) as Hxy.
  { intros H0. rewrite H0 in Hdist. destruct xy, ij.
    apply distance_le_zero in Hdist. done. }
  unfold connect_pair, dict_get. rewrite Ha, Hb. cbn [rbind].
  eapply outcome_bind; [by apply matrix_set_outcome|].
  intros M1 [HM1 Hent1]. cbn [rbind].
  eapply outcome_mono; [|apply matrix_set_outcome; [done|tauto]].
  intros M2 [HM2 Hent2]. split; [done|].
  intros i j. rewrite Hent2, Hent1.
  destruct (decide (i = b ∧ j = a)) as [[-> ->]|_].
  { intros _. exists ij, xy. split_and!; [done|done|lia|done|by right]. }
  destruct (decide (i = a ∧ j = b)) as [[-> ->]|_]; [|by apply Hedges].
  intros _. exists xy, ij. split_and!; [done|done|done|lia|by left].
Qed.

Lemma connect_agent_outcome (st : attempt_state) (placed : list Agent)
    (xy : Z * Z) :
  Inv placed st → in_grid grid_size xy → is_Some (loc_to_id st !! xy) →
  outcome E
    (λ st', Inv placed st' ∧ loc_to_id st' = loc_to_id st
            ∧ current_id st' = current_id st)
    (connect_agent st xy).
Proof.
  intros HI Hxy Hsome. unfold connect_agent.
  destruct (search_for_neighbors_spec (grid st) xy.1 xy.2)
    as (nbrs & -> & Hchar).
  { rewrite (inv_shape _ _ _ _ HI). by destruct xy. }
  cbn [rbind].
  eapply outcome_bind.
  { apply (foldM_outcome E
             (λ rest Mx, (matrix_ok Mx ∧ edges_ok st Mx)
                         ∧ Forall (reaches (grid st) xy) rest)).
    - split; [split; [apply HI|apply HI]|].
      apply Forall_forall. intros [i j] (_ & _ & ? & ? & ?)%Hchar.
      destruct xy. done.
    - intros c rest Mx [[HM Hedges] [Hc Hrest]%Forall_cons].
      eapply outcome_mono; [|by eapply connect_pair_outcome]. auto. }
  intros M' [[HM' Hedges'] _]. cbn [outcome].
  split; [|done]. destruct HI. by split.
Qed.

Lemma connect_agents_outcome (st : attempt_state) (placed : list Agent)
    (new_agents : list (Z * Z)) :
  Inv placed st →
  Forall (λ c, in_grid grid_size c ∧ is_Some (loc_to_id st !! c)) new_agents →
  outcome E (λ st', Inv placed st' ∧ current_id st' = current_id st)
          (foldM connect_agent st new_agents).
Proof.
  intros HI Hnew.
  eapply outcome_mono;
    [|apply (foldM_outcome E
               (λ rest st', (Inv placed st' ∧ current_id st' = current_id st)
                            ∧ Forall (λ c, in_grid grid_size c
                                           ∧ is_Some (loc_to_id st' !! c))
                                     rest))].
  - by intros st' [? _].
  - done.
  - intros c rest st' [[HI' Hcur] [[Hc Hsome] Hrest]%Forall_cons].
    eapply outcome_mono; [|by apply (connect_agent_outcome st' placed c)].
    intros st'' (HI'' & Hloc & Hcur''). cbn beta.
    rewrite Hloc. split; [split; [done|congruence]|done].
Qed.

Lemma place_agents_outcome (st : attempt_state) (placed : list Agent)
    (a : Agent) (idxs : list Z) :
  Inv placed st → (∃ q, (a, q) ∈ items) →
  (valid_request items grid_size →
   (current_id st + length idxs ≤ num)%nat) →
  outcome E
    (λ r, Inv (placed ++ replicate (length idxs) a) r.1
          ∧ current_id r.1 = (current_id st + length idxs)%nat
          ∧ Forall (λ c, in_grid grid_size c ∧ is_Some (loc_to_id r.1 !! c))
                   r.2)
    (foldM (place_agent rand fuel a) (st, []) idxs).
Proof.
  intros HI Ha Hroom.
  eapply outcome_mono;
    [|apply (foldM_outcome E
               (λ rest r,
                  (length rest ≤ length idxs)%nat
                  ∧ Inv (placed ++ replicate (length idxs - length rest) a) r.1
                  ∧ current_id r.1
                    = (current_id st + (length idxs - length rest))%nat
                  ∧ Forall (λ c, in_grid grid_size c
                                 ∧ is_Some (loc_to_id r.1 !! c)) r.2))].
  - intros r (_ & HI' & Hcur & Hnew). cbn [length] in *.
    rewrite Nat.sub_0_r in *. done.
  - cbn [fst snd]. rewrite Nat.sub_diag, app_nil_r, Nat.add_0_r. done.
  - intros i rest [st' new] (Hlen & HI' & Hcur & Hnew).
    cbn [fst snd length] in *.
    eapply outcome_mono; [|apply (place_agent_outcome rand fuel items
                                    grid_size _ st' new a i HI' Ha)].
    + intros [st'' new'] (HI'' & Hcur'' & (c & -> & Hc & Hsome) & Hmono).
      cbn [fst snd] in *.
      replace (length idxs - length rest)%nat
        with (S (length idxs - S (length rest))) by lia.
      rewrite replicate_S_end, app_assoc. split_and!; [lia|done|lia|].
      apply Forall_app. split; [|by apply Forall_singleton].
      eapply Forall_impl; [exact Hnew|]. intros c' [? ?]. auto.
    + intros Hv%Hroom. lia.
Qed.

Lemma place_and_connect_outcome (st : attempt_state) (placed : list Agent)
    (aq : Agent * Z) :
  Inv placed st → aq ∈ items →
  (valid_request items grid_size →
   (current_id st + Z.to_nat aq.2 ≤ num)%nat) →
  outcome E (λ st', Inv (placed ++ replicate (Z.to_nat aq.2) aq.1) st')
          (place_and_connect rand fuel st aq).
Proof.
  intros HI Haq Hroom. unfold place_and_connect.
  assert (length (py_range 0 aq.2) = Z.to_nat aq.2) as Hlen.
  { unfold py_range. rewrite length_seqZ. f_equal. lia. }
  eapply outcome_bind.
  { apply (place_agents_outcome st placed aq.1 (py_range 0 aq.2) HI).
    - exists aq.2. by destruct aq.
    - by rewrite Hlen. }
  intros [st' new] (HI' & Hcur & Hnew). cbn [fst snd] in *.
  rewrite Hlen in HI'.
  eapply outcome_mono; [|by apply connect_agents_outcome]. by intros st'' [? _].
Qed.

Lemma initial_state_outcome (k : nat) :
  outcome E (Inv []) (initial_state items grid_size k).
Proof.
  unfold initial_state, grid_zeros, matrix_zeros.
  destruct ((grid_size.1 <? 0) || (grid_size.2 <? 0)) eqn:Hneg; cbn [rbind].
  { apply orb_true_iff in Hneg. intros (_ & _ & ? & ?). lia. }
  apply orb_false_iff in Hneg as [_ _].
  destruct (py_sum (snd <$> items) <? 0) eqn:Hnum; cbn [rbind outcome].
  { apply Z.ltb_lt in Hnum. intros (_ & ? & _). lia. }
  split; cbn [grid M loc_to_id current_id shape cells]; try done.
  - intros c. rewrite !lookup_empty. split; intros [? [=]].
  - rewrite length_replicate. split; [done|].
    apply Forall_replicate. by rewrite length_replicate.
  - intros a b. by rewrite matrix_entry_zeros.
  - lia.
  - intros _ c. rewrite lookup_empty. by intros [? [=]].
  - intros _ id. lia.
Qed.

(** The invariant holds when the loops of an attempt end. *)
Lemma generate_outcome (k : nat) :
  outcome E (Inv (placement_order items))
          (generate rand fuel items grid_size k).
Proof.
  unfold generate. eapply outcome_bind; [apply initial_state_outcome|].
  intros st0 HI0.
  eapply outcome_mono;
    [|apply (foldM_outcome E
               (λ rest st,
                  ∃ processed,
                    processed ++ rest = sorted_by_reach items
                    ∧ Inv (expand processed) st
                    ∧ (valid_request items grid_size →
                       (current_id st + length (expand rest) ≤ num)%nat)))].
  - intros st (processed & Hp & HI & _). rewrite app_nil_r in Hp.
    by subst processed.
  - exists []. split_and!; [done|done|].
    intros (Hq & Hn & _). rewrite (inv_count _ _ _ _ HI0). simpl.
    assert (Z.of_nat (length (expand (sorted_by_reach items)))
            = py_sum (snd <$> items)) as Hlen.
    { rewrite length_expand_sum.
      - unfold py_sum. apply foldr_permutation_proper; [apply _..| |].
        + intros x y z. lia.
        + by rewrite sorted_by_reach_perm.
      - by rewrite sorted_by_reach_perm. }
    lia.
  - intros aq rest st (processed & Hp & HI & Hroom).
    rewrite length_expand_cons in Hroom.
    eapply outcome_mono; [|apply (place_and_connect_outcome st _ aq HI)].
    + intros st' HI'. exists (processed ++ [aq]). split_and!.
      * by rewrite <- app_assoc.
      * unfold expand in *. rewrite bind_app, bind_cons.
        simpl. by rewrite app_nil_r.
      * intros Hv. pose proof (Hroom Hv).
        rewrite (inv_count _ _ _ _ HI'), length_app, length_replicate.
        rewrite (inv_count _ _ _ _ HI) in *. lia.
    + rewrite <- (sorted_by_reach_perm items), <- Hp.
      apply elem_of_app. right. left.
    + intros Hv%Hroom. lia.
Qed.
End generator_loops.

(** *** Attempts and what is returned *)

Lemma attempt_inv_result (rand : nat → Z) (fuel : nat)
    (items : list (Agent * Z)) (grid_size : Z * Z) (k k' : nat)
    (G : Graph nat) (layout : gmap nat (Q * Q)) (colors : list Color) :
  attempt rand fuel items grid_size k = Ok (G, layout, colors, k') →
  ∃ st, generate rand fuel items grid_size k = Ok st
        ∧ attempt_inv items grid_size (placement_order items) st
        ∧ G = graph_of_matrix (M st)
        ∧ layout = make_layout grid_size (loc_to_id st)
        ∧ colors = make_colors items.
Proof.
  unfold attempt. intros Hrun.
  pose proof (generate_outcome rand fuel items grid_size k) as Hgen.
  destruct (generate rand fuel items grid_size k) as [st| |]; [|done..].
  simpl in Hrun, Hgen. injection Hrun as <- <- <- <-. by exists st.
Qed.

Lemma attempts_Some (rand : nat → Z) (fuel tries : nat)
    (items : list (Agent * Z)) (grid_size : Z * Z) (fc : bool) (k : nat)
    (net : network) :
  attempts rand fuel tries items grid_size fc k = Ok (Some net) →
  ∃ k0 k1, attempt rand fuel items grid_size k0 = Ok (net, k1)
           ∧ accepted fc net.1.1 = Ok true.
Proof.
  revert k. induction tries as [|tries IH]; intros k; simpl; [done|].
  destruct (attempt rand fuel items grid_size k) as [[net' k']| |] eqn:Hatt;
    [|done..].
  cbn [rbind].
  destruct (accepted fc net'.1.1) as [[|]| |] eqn:Hacc; cbn [rbind];
    [|by apply IH|done..].
  intros [= <-]. eauto.
Qed.




(** *** The layout *)

Lemma make_layout_lookup (grid_size : Z * Z) (loc : gmap (Z * Z) nat)
    (c : Z * Z) (id : nat) :
  (∀ c1 c2 id, loc !! c1 = Some id → loc !! c2 = Some id → c1 = c2) →
  loc !! c = Some id →
  make_layout grid_size loc !! id
  = Some (rescale c.1 grid_size.1, rescale c.2 grid_size.2).
Proof.
  intros Hinj Hc. unfold make_layout. apply elem_of_list_to_map_1.
  - rewrite <- list_fmap_compose. apply NoDup_fmap_2_strong.
    + intros [c1 i1] [c2 i2] H1%elem_of_map_to_list H2%elem_of_map_to_list.
      simpl. intros <-. f_equal. by eapply Hinj.
    + apply NoDup_map_to_list.
  - apply list_elem_of_fmap. exists (c, id). split; [done|].
    by apply elem_of_map_to_list.
Qed.

Lemma elem_of_expand (l : list (Agent * Z)) (a : Agent) :
  a ∈ expand l → ∃ q, (a, q) ∈ l.
Proof.
  unfold expand. intros ([a' q] & Ha & Hl)%list_elem_of_bind.
  apply elem_of_replicate in Ha as [-> _]. by exists q.
Qed.

Lemma elem_of_placement_order (items : list (Agent * Z)) (a : Agent) :
  a ∈ placement_order items → ∃ q, (a, q) ∈ items.
Proof.
  intros [q Hq]%elem_of_expand. exists q.
  by rewrite <- (sorted_by_reach_perm items).
Qed.

(** The test on the squares decides the comparison of the distance. *)
Lemma distance_le_spec (x0 y0 x1 y1 r : Z) :
  0 ≤ r →
  distance_le x0 y0 x1 y1 r = true ↔ (distance x0 y0 x1 y1 <= IZR r)%R.
Proof.
  intros Hr. unfold distance_le, distance.
  set (d := (x0 - x1) ^ 2 + (y0 - y1) ^ 2).
  assert (0 ≤ d) by (unfold d; nia).
  rewrite Z.leb_le.
  assert (IZR r = sqrt (IZR (r ^ 2))) as ->.
  { replace (r ^ 2) with (r * r) by lia. rewrite mult_IZR.
    rewrite sqrt_square; [done|]. by apply IZR_le. }
  split.
  - intros Hle. apply sqrt_le_1_alt. by apply IZR_le.
  - intros Hle. apply sqrt_le_0 in Hle.
    + by apply le_IZR.
    + by apply IZR_le.
    + apply IZR_le. nia.
Qed.

Lemma distance_sym (x0 y0 x1 y1 : Z) :
  distance x0 y0 x1 y1 = distance x1 y1 x0 y0.
Proof. unfold distance. do 2 f_equal. lia. Qed.

Lemma distance_le_euclid (c1 c2 : Z * Z) (r : Z) :
  0 ≤ r → distance_le c1.1 c1.2 c2.1 c2.2 (r `mod` 256) = true →
  euclid_le c1 c2 r ∧ euclid_le c2 c1 r.
Proof.
  intros Hr Hd. pose proof (Z.mod_pos_bound r 256).
  pose proof (Z.mod_le r 256).
  apply distance_le_spec in Hd; [|lia].
  assert (distance c1.1 c1.2 c2.1 c2.2 <= IZR r)%R as Hle.
  { eapply Rle_trans; [exact Hd|]. apply IZR_le. lia. }
  unfold euclid_le. split; [done|]. by rewrite distance_sym.
Qed.

(** *** The statements about the generator *)




Lemma length_placement_order (items : list (Agent * Z)) :
  Forall (λ aq : Agent * Z, 0 ≤ aq.2) items →
  Z.of_nat (length (placement_order items)) = py_sum (snd <$> items).
Proof.
  intros Hq. unfold placement_order. rewrite length_expand_sum.
  - unfold py_sum. apply foldr_permutation_proper; [apply _..| |].
    + intros x y z. lia.
    + by rewrite sorted_by_reach_perm.
  - by rewrite sorted_by_reach_perm.
Qed.

Lemma size_loc_to_id (loc : gmap (Z * Z) nat) (n : nat) :
  (∀ c1 c2 id, loc !! c1 = Some id → loc !! c2 = Some id → c1 = c2) →
  (∀ c id, loc !! c = Some id → (id < n)%nat) →
  (∀ id, (id < n)%nat → ∃ c, loc !! c = Some id) →
  size loc = n.
Proof.
  intros Hinj Hlt Honto.
  rewrite <- length_map_to_list, <- (length_seq n 0).
  rewrite <- (length_fmap snd (map_to_list loc)).
  apply Permutation_length, NoDup_Permutation.
  - apply NoDup_fmap_2_strong; [|apply NoDup_map_to_list].
    intros [c1 i1] [c2 i2] H1%elem_of_map_to_list H2%elem_of_map_to_list.
    simpl. intros <-. f_equal. by eapply Hinj.
  - apply NoDup_seq.
  - intros id. rewrite elem_of_seq, list_elem_of_fmap. split.
    + intros ([c i] & -> & Hc%elem_of_map_to_list). apply Hlt in Hc.
      simpl. lia.
    + intros [_ Hid]. destruct (Honto id) as [c Hc]; [lia|].
      exists (c, id). split; [done|]. by apply elem_of_map_to_list.
Qed.

(** C4: in a network the generator returns, the agents at the two ends
    of an edge are at Euclidean distance at most the reach of one of
    them; [cu] and [cv] are their grid cells (the layout holds them
    rescaled) and [au], [av] their agent types.  Reaches are not
    negative. *)
Theorem social_circles_edges_within_reach (rand : nat → Z) (fuel : nat)
    (items : list (Agent * Z)) (grid_size : Z * Z) (force_connected : bool)
    (max_tries : Z) (G : Graph nat) (layout : gmap nat (Q * Q))
    (colors : list Color) :
  Forall (λ aq : Agent * Z, 0 ≤ reach aq.1) items →
  make_social_circles_network rand fuel items grid_size force_connected
    max_tries = Ok (Some (G, layout, colors)) →
  ∀ u v, has_edge G u v = true →
    ∃ cu cv au av,
      layout !! u = Some (rescale cu.1 grid_size.1, rescale cu.2 grid_size.2)
      ∧ layout !! v = Some (rescale cv.1 grid_size.1, rescale cv.2 grid_size.2)
      ∧ placement_order items !! u = Some au
      ∧ placement_order items !! v = Some av
      ∧ (euclid_le cu cv (reach au) ∨ euclid_le cu cv (reach av)).
Proof.
  intros Hreach (k0 & k1 & Hatt & _)%attempts_Some u v Hadj%has_edge_true.
  apply attempt_inv_result in Hatt as (st & _ & HI & -> & -> & _).
  assert (∀ a b, matrix_entry (M st) a b ≠ 0 →
    ∃ ca cb aa ab,
      loc_to_id st !! ca = Some a ∧ loc_to_id st !! cb = Some b
      ∧ placement_order items !! a = Some aa
      ∧ placement_order items !! b = Some ab
      ∧ ((euclid_le ca cb (reach aa) ∧ euclid_le cb ca (reach aa))
         ∨ (euclid_le ca cb (reach ab) ∧ euclid_le cb ca (reach ab))))
    as Hentry.
  { intros a b Hab.
    destruct (inv_edges _ _ _ _ HI a b Hab)
      as (ca & cb & Ha & Hb & Hna & Hnb & Hd).
    destruct (inv_reach _ _ _ _ HI ca a Ha Hna) as (aa & Haa & Hra).
    destruct (inv_reach _ _ _ _ HI cb b Hb Hnb) as (ab & Hab' & Hrb).
    assert (0 ≤ reach aa ∧ 0 ≤ reach ab) as [? ?].
    { rewrite Forall_forall in Hreach. split.
      - apply list_elem_of_lookup_2, elem_of_placement_order in Haa as [q Hq].
        apply (Hreach _ Hq).
      - apply list_elem_of_lookup_2, elem_of_placement_order in Hab' as [q Hq].
        apply (Hreach _ Hq). }
    exists ca, cb, aa, ab. split_and!; [done..|].
    destruct Hd as [Hd|Hd].
    - left. rewrite Hra in Hd. by apply distance_le_euclid.
    - right. rewrite Hrb in Hd. apply distance_le_euclid in Hd; tauto. }
  apply neighbors_graph_of_matrix in Hadj as [Huv|Hvu].
  - destruct (Hentry u v Huv) as (cu & cv & au & av & Hu & Hv & ? & ? & Hd).
    exists cu, cv, au, av.
    rewrite (make_layout_lookup _ _ cu u), (make_layout_lookup _ _ cv v);
      [|apply HI|done|apply HI|done].
    split_and!; [done..|tauto].
  - destruct (Hentry v u Hvu) as (cv & cu & av & au & Hv & Hu & ? & ? & Hd).
    exists cu, cv, au, av.
    rewrite (make_layout_lookup _ _ cu u), (make_layout_lookup _ _ cv v);
      [|apply HI|done|apply HI|done].
    split_and!; [done..|tauto].
Qed.

Lemma social_circles_edges_within_reach_witness :
  Forall (λ aq : Agent * Z, 0 ≤ reach aq.1) [(green, 1); (blue, 2)]
  ∧ ∃ G layout colors,
      make_social_circles_network (rand_of_list [1; 1; 2; 1; 0; 0]) 0
        [(green, 1); (blue, 2)] (4, 4) false 5
      = Ok (Some (G, layout, colors))
      ∧ has_edge G 0%nat 1%nat = true
      ∧ ∀ u v, has_edge G u v = true →
          ∃ cu cv au av,
            layout !! u = Some (rescale cu.1 4, rescale cu.2 4)
            ∧ layout !! v = Some (rescale cv.1 4, rescale cv.2 4)
            ∧ placement_order [(green, 1); (blue, 2)] !! u = Some au
            ∧ placement_order [(green, 1); (blue, 2)] !! v = Some av
            ∧ (euclid_le cu cv (reach au) ∨ euclid_le cu cv (reach av)).
Proof.
  assert (Forall (λ aq : Agent * Z, 0 ≤ reach aq.1) [(green, 1); (blue, 2)])
    as Hreach.
  { repeat constructor; by vm_compute. }
  split; [exact Hreach|].
  eexists _, _, _. split; [by vm_compute|]. split; [by vm_compute|].
  eapply (social_circles_edges_within_reach
            (rand_of_list [1; 1; 2; 1; 0; 0]) 0 [(green, 1); (blue, 2)]
            (4, 4) false 5);
    [exact Hreach|by vm_compute].
Defined.

(** C9, as it holds.  A spot [choose_empty_spot] returns is a cell of the
    grid whose value is 0.  When no agent type has a stored reach of 0
    ([reach mod 256 ≠ 0]) and no quantity is negative, then at the end of
    the loops of an attempt: [loc_to_id] sends distinct cells to distinct
    identifiers, it holds as many cells as agents were requested, the
    identifiers in it are exactly [0 .. num_nodes-1], and each of them
    has an entry in the layout; and the nodes of a returned graph are
    these identifiers, each with an entry in the returned layout. *)
Theorem social_circles_distinct_cells :
  (∀ (rand : nat → Z) (fuel : nat) (grid : Grid) (k k' : nat) (x y : Z),
     uint8_grid grid →
     choose_empty_spot rand fuel grid k = Ok (x, y, k') →
     grid_get grid x y = Ok 0)
  ∧ (∀ (rand : nat → Z) (fuel : nat) (items : list (Agent * Z))
       (grid_size : Z * Z) (k : nat) (st : attempt_state),
       stored_reach_nonzero items →
       Forall (λ aq : Agent * Z, 0 ≤ aq.2) items →
       generate rand fuel items grid_size k = Ok st →
       (∀ c1 c2 id, loc_to_id st !! c1 = Some id →
                    loc_to_id st !! c2 = Some id → c1 = c2)
       ∧ Z.of_nat (size (loc_to_id st)) = py_sum (snd <$> items)
       ∧ (∀ id, (∃ c, loc_to_id st !! c = Some id)
                ↔ Z.of_nat id < py_sum (snd <$> items))
       ∧ (∀ id, Z.of_nat id < py_sum (snd <$> items) →
                is_Some (make_layout grid_size (loc_to_id st) !! id)))
  ∧ (∀ (rand : nat → Z) (fuel : nat) (items : list (Agent * Z))
       (grid_size : Z * Z) (force_connected : bool) (max_tries : Z)
       (G : Graph nat) (layout : gmap nat (Q * Q)) (colors : list Color),
       stored_reach_nonzero items →
       Forall (λ aq : Agent * Z, 0 ≤ aq.2) items →
       make_social_circles_network rand fuel items grid_size force_connected
         max_tries = Ok (Some (G, layout, colors)) →
       nodes G = seq 0 (Z.to_nat (py_sum (snd <$> items)))
       ∧ ∀ id, id ∈ nodes G → is_Some (layout !! id)).
Proof.
  assert (∀ rand fuel items grid_size k st,
    stored_reach_nonzero items →
    Forall (λ aq : Agent * Z, 0 ≤ aq.2) items →
    generate rand fuel items grid_size k = Ok st →
    attempt_inv items grid_size (placement_order items) st
    ∧ Z.of_nat (current_id st) = py_sum (snd <$> items)
    ∧ ∀ id, (id < current_id st)%nat →
            is_Some (make_layout grid_size (loc_to_id st) !! id)) as Hgen.
  { intros rand fuel items grid_size k st Hnz Hq Hrun.
    pose proof (generate_outcome rand fuel items grid_size k) as HI.
    rewrite Hrun in HI. simpl in HI. split_and!; [done| |].
    - rewrite (inv_count _ _ _ _ HI). by apply length_placement_order.
    - intros id Hid. destruct (inv_onto _ _ _ _ HI Hnz id Hid) as [c Hc].
      rewrite (make_layout_lookup _ _ c id); [eauto|apply HI|done]. }
  split_and!.
  - intros rand fuel grid k k' x y Hbytes Hrun.
    pose proof (choose_empty_spot_outcome rand fuel [] (shape grid) grid k
                  eq_refl Hbytes) as Hout.
    rewrite Hrun in Hout. destruct Hout as [Hin Hzero]. simpl in Hin, Hzero.
    by rewrite grid_get_in_grid, Hzero.
  - intros rand fuel items grid_size k st Hnz Hq Hrun.
    destruct (Hgen _ _ _ _ _ _ Hnz Hq Hrun) as (HI & Hcur & Hlay).
    split_and!.
    + apply HI.
    + rewrite <- Hcur. f_equal. apply size_loc_to_id.
      * apply HI.
      * intros c id Hc. by destruct (inv_ids _ _ _ _ HI c id Hc).
      * by apply (inv_onto _ _ _ _ HI).
    + intros id. rewrite <- Hcur. split.
      * intros [c Hc]. destruct (inv_ids _ _ _ _ HI c id Hc). lia.
      * intros Hid. apply (inv_onto _ _ _ _ HI Hnz). lia.
    + intros id Hid. apply Hlay. lia.
  - intros rand fuel items grid_size fc max_tries G layout colors Hnz Hq
           (k0 & k1 & Hatt & _)%attempts_Some.
    apply attempt_inv_result in Hatt as (st & Hrun & _ & -> & -> & _).
    destruct (Hgen _ _ _ _ _ _ Hnz Hq Hrun) as (HI & Hcur & Hlay).
    destruct (inv_matrix _ _ _ _ HI) as [Hlen Hrows].
    rewrite (nodes_graph_of_matrix _ _ Hlen Hrows). split; [done|].
    intros id [_ Hid]%elem_of_seq. apply Hlay. lia.
Qed.

Lemma social_circles_distinct_cells_witness :
  ∃ G layout colors,
    make_social_circles_network (rand_of_list [1; 1; 2; 1; 0; 0]) 0
      [(green, 1); (blue, 2)] (4, 4) false 5
    = Ok (Some (G, layout, colors))
    ∧ nodes G = seq 0 (Z.to_nat (py_sum (snd <$> [(green, 1); (blue, 2)])))
    ∧ ∀ id, id ∈ nodes G → is_Some (layout !! id).
Proof.
  destruct social_circles_distinct_cells as (_ & _ & Hret).
  eexists _, _, _. split; [by vm_compute|].
  eapply (Hret (rand_of_list [1; 1; 2; 1; 0; 0]) 0%nat
               [(green, 1); (blue, 2)] (4, 4) false 5).
  - repeat constructor; by vm_compute.
  - repeat constructor; by vm_compute.
  - by vm_compute.
Defined.

(** The inputs on which C9 fails as stated: two agents on a grid of one
    cell, of reach 0, or of reach 256, which the unsigned byte of the
    grid stores as 0.  The cell still reads 0 after the first agent is
    placed, so the second agent is placed on it too: [loc_to_id] keeps
    the one cell with identifier 1, and the layout of the graph on the
    nodes 0 and 1 has no entry for node 0. *)
Lemma social_circles_stored_reach_zero_shares_cell :
  (∃ st G layout colors,
     generate (rand_of_list []) 0 [(ghost, 2)] (1, 1) 0 = Ok st
     ∧ current_id st = 2%nat
     ∧ map_to_list (loc_to_id st) = [((0, 0), 1%nat)]
     ∧ make_social_circles_network (rand_of_list []) 0 [(ghost, 2)] (1, 1)
         false 5
       = Ok (Some (G, layout, colors))
     ∧ nodes G = [0%nat; 1%nat]
     ∧ layout !! 0%nat = None)
  ∧ (∃ st G layout colors,
       generate (rand_of_list []) 0 [(giant, 2)] (1, 1) 0 = Ok st
       ∧ current_id st = 2%nat
       ∧ map_to_list (loc_to_id st) = [((0, 0), 1%nat)]
       ∧ make_social_circles_network (rand_of_list []) 0 [(giant, 2)] (1, 1)
           false 5
         = Ok (Some (G, layout, colors))
       ∧ nodes G = [0%nat; 1%nat]
       ∧ layout !! 0%nat = None).
Proof. split; eexists _, _, _, _; by vm_compute. Qed.

(** *** The colour list *)


(** C7: the colour at position [k] is not always the colour of the agent
    with node identifier [k].  With a green type of reach 1 listed before
    a blue type of reach 2, the blue agent is placed first: it is node 0,
    its cell (0, 1) holds its reach 2, and the colour at position 0 is
    green. *)
Theorem social_circles_colors_misordered :
  ∃ st G layout colors,
    generate (rand_of_list [0; 1; 2; 0]) 0 [(green, 1); (blue, 1)] (3, 3) 0
    = Ok st
    ∧ make_social_circles_network (rand_of_list [0; 1; 2; 0]) 0
        [(green, 1); (blue, 1)] (3, 3) false 5
      = Ok (Some (G, layout, colors))
    ∧ loc_to_id st !! (0, 1) = Some 0%nat
    ∧ grid_cell (grid st) (0, 1) = reach blue
    ∧ placement_order [(green, 1); (blue, 1)] !! 0%nat = Some blue
    ∧ colors !! 0%nat = Some (color green).
Proof. eexists _, _, _, _. by vm_compute. Qed.

(** * Further properties *)

(** ** The composer on every input *)

Lemma half_to_nat (g : Z) : (Z.to_nat g `div` 2)%nat = Z.to_nat (g `div` 2).
Proof.
  destruct (decide (0 ≤ g)) as [Hg|Hg].
  - by rewrite Z2Nat.inj_div by lia.
  - pose proof (Z.div_mod g 2). pose proof (Z.mod_pos_bound g 2).
    replace (Z.to_nat g) with 0%nat by lia.
    by replace (Z.to_nat (g `div` 2)) with 0%nat by lia.
Qed.

Lemma half_bounds (g : Z) : 0 < g → 0 ≤ g `div` 2 ≤ g - g `div` 2 ∧ 1 ≤ g - g `div` 2.
Proof.
  intros Hg. pose proof (Z.div_mod g 2). pose proof (Z.mod_pos_bound g 2). lia.
Qed.

Lemma blocks_gate_fits (n b g : Z) (gn src dst : list Z) :
  gn ∈ gate_blocks n g → src ∈ comp_blocks n b g → dst ∈ comp_blocks n b g →
  gate_fits gn src dst ↔ g ≤ 0 ∨ g - g `div` 2 ≤ b.
Proof.
  intros Hgn%length_gate_block Hsrc%length_comp_block Hdst%length_comp_block.
  unfold gate_fits. rewrite Hgn, Hsrc, Hdst, half_to_nat.
  destruct (decide (g ≤ 0)) as [Hg|Hg].
  - pose proof (Z.div_mod g 2). pose proof (Z.mod_pos_bound g 2).
    split; [auto|]. intros _. lia.
  - pose proof (half_bounds g). lia.
Qed.

(** The wiring loops finish when there is no pair of components to join,
    when the gates are empty, or when a component has a node for every
    node of the larger half of a gate. *)
Lemma blocks_fit (n b g : Z) :
  is_Some (wiring (gate_blocks n g) (combinations2 (comp_blocks n b g)))
  ↔ n < 2 ∨ g ≤ 0 ∨ g - g `div` 2 ≤ b.
Proof.
  split.
  - intros [es Hes].
    destruct (decide (n < 2)) as [|Hn]; [by left|right].
    destruct (wiring_Some_inv _ _ _ Hes) as (_ & Hfits & _).
    destruct (lookup_lt_is_Some_2 (combinations2 (comp_blocks n b g)) 0)
      as [[src dst] Hp].
    { pose proof (length_combinations2 (comp_blocks n b g)) as Hlen.
      rewrite length_comp_blocks in Hlen. nia. }
    destruct (lookup_lt_is_Some_2 (gate_blocks n g) 0) as [gn Hgn].
    { rewrite <- (length_pairs_gates n b g). by eapply lookup_lt_Some. }
    pose proof (Hfits _ _ _ Hgn Hp) as Hfit.
    apply list_elem_of_lookup_2, elem_of_combinations2 in Hp as [? ?].
    apply (blocks_gate_fits n b g gn src dst);
      [by eapply list_elem_of_lookup_2|done..].
  - intros Hcase. apply wiring_is_Some.
    + by rewrite length_pairs_gates.
    + intros i gn [src dst] Hgn%list_elem_of_lookup_2 Hp.
      pose proof (lookup_lt_Some _ _ _ Hp) as Hlt.
      apply list_elem_of_lookup_2, elem_of_combinations2 in Hp as [? ?].
      apply (blocks_gate_fits n b g); [done..|].
      destruct Hcase as [Hn|Hcase]; [|done].
      pose proof (length_combinations2 (comp_blocks n b g)) as Hlen.
      rewrite length_comp_blocks in Hlen. nia.
Qed.

(** X1: the composer raises [ValueError] exactly when [gate_size] or
    [big_component_size] is 0 (a [range] with step 0), and [IndexError]
    exactly when there are two components to join and a component has
    fewer nodes than the second half of a gate; on every other input it
    returns a graph. *)
Theorem composer_failure_modes (n b g : Z) :
  (make_complete_clique_gate_graph n b g = Raise ValueError ↔ g = 0 ∨ b = 0)
  ∧ (make_complete_clique_gate_graph n b g = Raise IndexError
     ↔ g ≠ 0 ∧ b ≠ 0 ∧ 2 ≤ n ∧ 0 < g ∧ b < g - g `div` 2)
  ∧ ((∃ G, make_complete_clique_gate_graph n b g = Ok G)
     ↔ g ≠ 0 ∧ b ≠ 0 ∧ (n < 2 ∨ g < 0 ∨ g - g `div` 2 ≤ b)).
Proof.
  rewrite make_complete_clique_gate_graph_eq.
  pose proof (blocks_fit n b g) as Hfit.
  destruct (decide (g = 0)) as [Hg|Hg].
  { split_and!; split; try done; try tauto. by intros [? ?]. }
  destruct (decide (b = 0)) as [Hb|Hb].
  { split_and!; split; try done; try tauto. by intros [? ?]. }
  destruct (wiring _ _) as [es|].
  - assert (n < 2 ∨ g ≤ 0 ∨ g - g `div` 2 ≤ b) as Hcase by (apply Hfit; eauto).
    split_and!; split; try done.
    + tauto.
    + lia.
    + intros _. split_and!; [done..|lia].
    + eauto.
  - assert (¬ (n < 2 ∨ g ≤ 0 ∨ g - g `div` 2 ≤ b)) as Hcase.
    { intros [? [=]]%Hfit. }
    split_and!; split; try done.
    + tauto.
    + intros _. split_and!; [done..|lia|lia|lia].
    + by intros [? ?].
    + intros (_ & _ & ?). lia.
Qed.

Lemma elem_of_tail {A : Type} (l : list A) (x : A) : x ∈ tail l → x ∈ l.
Proof. destruct l; simpl; [done|]. by right. Qed.

(** The second component of a pair is never the first of the list. *)
Lemma combinations2_snd_tail {A : Type} (l : list A) (x y : A) :
  (x, y) ∈ combinations2 l → y ∈ tail l.
Proof.
  induction l as [|a l IH]; simpl.
  - by intros []%elem_of_nil.
  - rewrite elem_of_app, list_elem_of_fmap.
    intros [(z & [= -> ->] & Hz)|Hxy]; [done|]. by apply elem_of_tail, IH.
Qed.

(** A set of nodes closed under adjacency holds every node a member
    reaches. *)
Lemma connected_to_closed {A : Type} `{EqDecision A} (G : Graph A)
    (P : A → Prop) (u v : A) :
  (∀ x y, P x → y ∈ neighbors G x → P y) →
  connected_to G u v → P u → P v.
Proof. intros Hclosed. induction 1; eauto. Qed.

(** In a connected graph with two nodes every node has a neighbour. *)
Lemma connected_no_isolated {A : Type} `{EqDecision A} (G : Graph A) (u : A) :
  NoDup (nodes G) → connected G → (2 ≤ length (nodes G))%nat → u ∈ nodes G →
  neighbors G u ≠ [].
Proof.
  intros Hnd [_ Hconn] Hlen Hu.
  assert (∃ v, v ∈ nodes G ∧ u ≠ v) as (v & Hv & Hne).
  { destruct (nodes G) as [|x [|y l]] eqn:Hn; simpl in Hlen; [lia..|].
    apply NoDup_cons in Hnd as [Hxy _]. rewrite not_elem_of_cons in Hxy.
    destruct (decide (u = x)) as [->|Hux].
    - exists y. split; [right; left|tauto].
    - exists x. split; [left|done]. }
  pose proof (Hconn u v Hu Hv) as Hwalk.
  inversion Hwalk as [|? w ? Hw _]; subst; [done|].
  intros Hnil. rewrite Hnil in Hw. by apply elem_of_nil in Hw.
Qed.

Lemma num_gates_small (n : Z) : n < 2 → num_gates n = 0.
Proof.
  intros Hn. unfold num_gates, py_range.
  destruct (decide (n = 1)) as [->|]; [done|]. by rewrite seqZ_nil by lia.
Qed.

Section fitted_inputs.
Variables n b g : Z.
Variable es : list (Z * Z).
Hypothesis Hwiring :
  wiring (gate_blocks n g) (combinations2 (comp_blocks n b g)) = Some es.

Local Abbreviation gates := (gate_blocks n g).
Local Abbreviation comps := (comp_blocks n b g).
Local Abbreviation G :=
  (add_edges_from
     (union_components (complete_graph <$> (gates ++ comps))) es).
Local Abbreviation base := (num_gates n * g).
Local Abbreviation first c := (base + Z.of_nat c * b).

(** The gate of a pair is joined to the first node of both components
    as soon as each of its halves has a node. *)
Lemma fitted_gate_reaches (i : nat) (gn src dst : list Z) (cs cd : nat) :
  2 ≤ g →
  gates !! i = Some gn → combinations2 comps !! i = Some (src, dst) →
  comps !! cs = Some src → comps !! cd = Some dst →
  (Z.of_nat i * g, first cs) ∈ es
  ∧ (Z.of_nat i * g + g `div` 2, first cd) ∈ es.
Proof.
  intros Hg Hgn Hp Hsrc Hdst.
  destruct (wiring_Some_inv _ _ _ Hwiring) as (_ & Hfits & _).
  pose proof (Hfits i gn (src, dst) Hgn Hp) as Hfit. cbn [fst snd] in Hfit.
  assert (g - g `div` 2 ≤ b) as Hhalf.
  { apply (blocks_gate_fits n b g gn src dst) in Hfit as [?|?];
      [lia|done|by eapply list_elem_of_lookup_2..]. }
  pose proof (half_bounds g) as Hh2.
  assert (1 ≤ g `div` 2) as Hh1.
  { pose proof (Z.div_mod g 2). pose proof (Z.mod_pos_bound g 2). lia. }
  apply lookup_gate_blocks in Hgn as Hgn'. destruct Hgn' as [-> Hi].
  apply lookup_comp_blocks in Hsrc as Hsrc'. destruct Hsrc' as [-> Hcs].
  apply lookup_comp_blocks in Hdst as Hdst'. destruct Hdst' as [-> Hcd].
  assert (length (gate_block g (Z.of_nat i)) `div` 2
          = Z.to_nat (g `div` 2))%nat as Hh.
  { unfold gate_block. rewrite length_seqZ. by apply half_to_nat. }
  assert (length (take (Z.to_nat (g `div` 2))
                    (comp_block base b (Z.of_nat cs)))
          = Z.to_nat (g `div` 2)) as Hlt.
  { rewrite length_take. unfold comp_block. rewrite length_seqZ. lia. }
  split; apply (bridge_inv n b g es Hwiring);
    eexists i, _, _; (split_and!; [exact Hgn|exact Hp|exact Hfit|]);
    apply elem_of_gate_edges; [done| |done|]; rewrite Hh; cbn [fst snd].
  - exists O. split.
    + unfold gate_block. rewrite lookup_seqZ_lt by lia. f_equal. lia.
    + rewrite lookup_app_l by (rewrite Hlt; lia).
      rewrite lookup_take_lt by lia.
      unfold comp_block. rewrite lookup_seqZ_lt by lia.
      f_equal. lia.
  - exists (Z.to_nat (g `div` 2)). split.
    + unfold gate_block. rewrite lookup_seqZ_lt by lia. f_equal. lia.
    + rewrite lookup_app_r by lia. rewrite Hlt, Nat.sub_diag.
      unfold comp_block. rewrite lookup_seqZ_lt by lia.
      f_equal. lia.
Qed.

Hypothesis Hb : 1 ≤ b.

Lemma fitted_first_connected (c : nat) :
  2 ≤ g → Z.of_nat c < n → connected_to G (first c) (first O).
Proof.
  intros Hg Hc. destruct c as [|j]; [apply connected_refl|].
  destruct (lookup_comp n b g Hb O) as [H0 _]; [lia|].
  destruct (lookup_comp n b g Hb (S j) Hc) as [Hj _].
  assert (∃ rest, comps = comp_block base b (Z.of_nat 0) :: rest
                  ∧ rest !! j = Some (comp_block base b (Z.of_nat (S j))))
    as (rest & Hcomps & Hj').
  { clear Hwiring.
    destruct (comp_blocks n b g) as [|c0 rest]; [done|].
    simpl in H0, Hj. injection H0 as ->. by exists rest. }
  pose proof (lookup_combinations2_head (comp_block base b (Z.of_nat 0))
                _ rest j Hj') as Hp.
  rewrite <- Hcomps in Hp.
  destruct (lookup_lt_is_Some_2 gates j) as [gn Hgn].
  { rewrite <- (length_pairs_gates n b g).
    by eapply lookup_lt_Some. }
  destruct (fitted_gate_reaches j gn _ _ O (S j) Hg Hgn Hp H0 Hj) as [He0 Hej].
  destruct (bridge_connected n b g es _ _ He0) as [Hc0 _].
  destruct (bridge_connected n b g es _ _ Hej) as [_ Hcj].
  eapply connected_to_trans; [exact Hcj|].
  eapply connected_to_trans; [|exact Hc0].
  pose proof (half_bounds g) as Hh2.
  pose proof Hgn as [-> _]%lookup_gate_blocks.
  apply (clique_connected n b g es (gate_block g (Z.of_nat j))).
  - apply elem_of_app. left. by eapply list_elem_of_lookup_2.
  - apply elem_of_seqZ. lia.
  - apply elem_of_seqZ. lia.
Qed.

Lemma fitted_comp_node_connected (c : nat) (x : Z) :
  (2 ≤ n → 2 ≤ g) → in_block comps c x → connected_to G x (first O).
Proof.
  intros Hg (l & Hl & Hx).
  apply lookup_comp_blocks in Hl as Hl'. destruct Hl' as [-> Hc].
  eapply connected_to_trans.
  - destruct (lookup_comp n b g Hb c Hc) as [_ Hf].
    eapply (clique_connected n b g es); [|exact Hx|exact Hf].
    apply elem_of_app. right. by eapply list_elem_of_lookup_2.
  - destruct c as [|j]; [apply connected_refl|].
    apply fitted_first_connected; [|done]. apply Hg. lia.
Qed.

Lemma fitted_gate_node_connected (k : nat) (x : Z) :
  (2 ≤ n → 2 ≤ g) → in_block gates k x → connected_to G x (first O).
Proof.
  intros Hg Hk. pose proof Hk as (gn & Hgn & Hx).
  apply in_gate_block in Hk as [Hk _].
  assert (2 ≤ g) as Hg2.
  { apply Hg. destruct (decide (2 ≤ n)); [done|].
    rewrite num_gates_small in Hk by lia. lia. }
  destruct (lookup_lt_is_Some_2 (combinations2 comps) k) as [[src dst] Hp].
  { rewrite length_pairs_gates. by eapply lookup_lt_Some. }
  destruct (pair_blocks n b g k _ Hp) as [Hsrc Hdst]. simpl in Hsrc, Hdst.
  apply list_elem_of_lookup in Hsrc as [cs Hcs].
  apply list_elem_of_lookup in Hdst as [cd Hcd].
  destruct (fitted_gate_reaches k gn src dst cs cd Hg2 Hgn Hp Hcs Hcd)
    as [He _].
  destruct (bridge_connected n b g es _ _ He) as [Hc _].
  eapply connected_to_trans; [|eapply connected_to_trans; [exact Hc|]].
  - apply (clique_connected n b g es gn); [|done|].
    + apply elem_of_app. left. by eapply list_elem_of_lookup_2.
    + apply lookup_gate_blocks in Hgn as [-> _]. apply elem_of_seqZ. lia.
  - apply fitted_first_connected; [done|].
    by apply lookup_comp_blocks in Hcs as [_ ?].
Qed.

(** With a component that has nodes, and gates of two nodes or more
    when there are components to join, the graph is connected. *)
Lemma fitted_connected : 1 ≤ n → (2 ≤ n → 2 ≤ g) → connected G.
Proof.
  intros Hn Hg. apply (connected_via_root G (first O)).
  - apply (composer_wf n b g es).
  - apply (composer_nodes n b g es Hwiring).
    apply (in_block_app_r n b g O). exists (comp_block base b 0).
    apply (lookup_comp n b g Hb O). lia.
  - intros u (l & [Hl|Hl]%elem_of_app & Hu)%(composer_nodes n b g es Hwiring).
    + destruct (elem_of_in_block _ _ _ Hl Hu) as [k Hk].
      by eapply fitted_gate_node_connected.
    + destruct (elem_of_in_block _ _ _ Hl Hu) as [c Hc].
      by eapply fitted_comp_node_connected.
Qed.

(** With gates of fewer than two nodes no edge leaves the first
    component: the first half of every gate is empty, and the first
    component is never the second of a pair. *)
Lemma first_comp_closed (x y : Z) :
  g < 2 → in_block comps 0 x → y ∈ neighbors G x → in_block comps 0 y.
Proof.
  intros Hg Hx [(l & Hl & Hxl & Hyl & _)|[He|He]]%composer_neighbors.
  - apply elem_of_app in Hl as [Hl|Hl];
      apply list_elem_of_lookup in Hl as [k Hk].
    + destruct (gate_comp_disjoint n b g k 0 x); [by exists l|done].
    + assert (k = O) as ->.
      { apply (comp_blocks_disjoint n b g k 0 x); [by exists l|done]. }
      by exists l.
  - apply (bridge_blocks n b g es Hwiring) in He as (k & _ & Hk & _).
    by destruct (gate_comp_disjoint n b g k 0 x).
  - apply (bridge_inv n b g es Hwiring) in He
      as (i & gn & [src dst] & Hgn & Hp & Hfit & He).
    cbn [fst snd] in He.
    assert (length gn `div` 2 = 0)%nat as Hhalf.
    { rewrite (length_gate_block n g gn) by (by eapply list_elem_of_lookup_2).
      rewrite half_to_nat.
      pose proof (Z.div_mod g 2). pose proof (Z.mod_pos_bound g 2). lia. }
    unfold gate_edges in He. rewrite Hhalf, take_0, drop_0 in He.
    cbn [zip zip_with app] in He.
    apply list_elem_of_lookup in He as [j Hj].
    apply lookup_zip_Some in Hj as [_ Hx'%list_elem_of_lookup_2].
    cbn [snd] in Hx'.
    apply list_elem_of_lookup_2, combinations2_snd_tail in Hp.
    apply list_elem_of_lookup in Hp as [c Hc]. rewrite lookup_tail in Hc.
    assert (in_block comps (S c) x) as Hx2 by (by exists dst).
    by pose proof (comp_blocks_disjoint n b g _ _ x Hx Hx2).
Qed.
End fitted_inputs.

(** X2: a graph the composer returns is connected exactly when a
    component has a node and there is either one component, or two or
    more joined by gates of two nodes or more. *)
Theorem composer_connected_iff (n b g : Z) (G : Graph Z) :
  make_complete_clique_gate_graph n b g = Ok G →
  connected G ↔ 1 ≤ b ∧ (n = 1 ∨ (2 ≤ n ∧ 2 ≤ g)).
Proof.
  intros (Hg & Hb & es & Hes & ->)%composer_inv.
  pose proof (composer_nodes n b g es Hes) as Hnodes.
  split.
  - intros [Hne Hconn].
    destruct (nodes _) as [|x0 ns] eqn:Hns; [done|]. clear Hne.
    rewrite <- Hns in *.
    assert (x0 ∈ nodes (add_edges_from
              (union_components
                 (complete_graph <$> gate_blocks n g ++ comp_blocks n b g))
              es)) as Hx0 by (rewrite Hns; left).
    assert (is_Some (wiring (gate_blocks n g)
                       (combinations2 (comp_blocks n b g)))) as Hfit by eauto.
    apply blocks_fit in Hfit.
    assert (1 ≤ b ∧ 1 ≤ n) as [Hb1 Hn1].
    { apply Hnodes in Hx0 as (l & [Hl|Hl]%elem_of_app & Hx).
      - destruct (elem_of_in_block _ _ _ Hl Hx) as [k Hk].
        apply in_gate_block in Hk as [Hk Hrange].
        destruct (decide (2 ≤ n)) as [Hn2|Hn2];
          [|rewrite num_gates_small in Hk by lia; lia].
        pose proof (half_bounds g). lia.
      - destruct (elem_of_in_block _ _ _ Hl Hx) as [c Hc].
        apply in_comp_block in Hc. lia. }
    split; [done|].
    destruct (decide (n = 1)) as [|Hn]; [by left|right].
    split; [lia|]. destruct (decide (2 ≤ g)) as [|Hg2]; [done|exfalso].
    destruct (lookup_comp n b g Hb1 0) as [H0 Hf0]; [lia|].
    destruct (lookup_comp n b g Hb1 1) as [H1 Hf1]; [lia|].
    assert (in_block (comp_blocks n b g) 0 (num_gates n * g + Z.of_nat 0 * b))
      as Hin0 by (eexists; eauto).
    assert (in_block (comp_blocks n b g) 1 (num_gates n * g + Z.of_nat 1 * b))
      as Hin1 by (eexists; eauto).
    assert (in_block (comp_blocks n b g) 0 (num_gates n * g + Z.of_nat 1 * b))
      as Hbad.
    { eapply (connected_to_closed _ (in_block (comp_blocks n b g) 0));
        [|apply Hconn|exact Hin0].
      - intros x y. apply (first_comp_closed n b g es Hes). lia.
      - apply Hnodes. by eapply in_block_app_r.
      - apply Hnodes. by eapply in_block_app_r. }
    by pose proof (comp_blocks_disjoint n b g _ _ _ Hbad Hin1).
  - intros [Hb1 Hcase]. apply (fitted_connected n b g es Hes Hb1); lia.
Qed.

Lemma composer_connected_iff_witness :
  ∃ G, make_complete_clique_gate_graph 3 2 3 = Ok G
       ∧ (connected G ↔ 1 ≤ 2 ∧ (3 = 1 ∨ (2 ≤ 3 ∧ 2 ≤ 3))).
Proof.
  eexists. split; [by vm_compute|].
  apply (composer_connected_iff 3 2 3). by vm_compute.
Defined.

(** *** The order of the nodes *)

Lemma nodes_union_fold {A : Type} `{EqDecision A} (G : Graph A)
    (components : list (Graph A)) :
  Forall graph_wf components →
  NoDup (nodes G ++ concat (nodes <$> components)) →
  nodes (foldl (λ master_graph comp,
                  add_edges_from (add_nodes_from master_graph (nodes comp))
                                 (edges comp)) G components)
  = nodes G ++ concat (nodes <$> components).
Proof.
  intros Hall. revert G.
  induction Hall as [|C components HC Hall IH]; intros G Hnd; simpl.
  - by rewrite app_nil_r.
  - rewrite fmap_cons in Hnd. cbn [concat] in Hnd. rewrite app_assoc in Hnd.
    assert (nodes (add_edges_from (add_nodes_from G (nodes C)) (edges C))
            = nodes G ++ nodes C) as Hstep.
    { rewrite nodes_add_edges_from_id.
      - apply nodes_add_nodes_from_fresh. by apply NoDup_app in Hnd as [? _].
      - intros e [? ?]%edges_nodes; [|done].
        rewrite !elem_of_nodes_add_nodes_from. auto. }
    rewrite IH; rewrite Hstep; [|done]. by rewrite <- app_assoc.
Qed.

(** Components without a common node keep their nodes in order. *)
Lemma nodes_union_components {A : Type} `{EqDecision A}
    (components : list (Graph A)) :
  Forall graph_wf components → NoDup (concat (nodes <$> components)) →
  nodes (union_components components) = concat (nodes <$> components).
Proof.
  intros Hall Hnd. unfold union_components.
  by rewrite nodes_union_fold.
Qed.

Lemma concat_blocks (s w : Z) (m : nat) :
  0 ≤ w →
  concat ((λ k, seqZ (s + k * w) w) <$> seqZ 0 (Z.of_nat m))
  = seqZ s (Z.of_nat m * w).
Proof.
  intros Hw. induction m as [|m IH]; [done|].
  rewrite seqZ_S, fmap_app, concat_app, IH.
  cbn [fmap list_fmap concat]. rewrite app_nil_r, Z.add_0_l.
  replace (Z.of_nat (S m) * w) with (Z.of_nat m * w + w) by lia.
  rewrite seqZ_app by lia. done.
Qed.

Lemma concat_gate_blocks (n g : Z) :
  0 ≤ g → concat (gate_blocks n g) = seqZ 0 (num_gates n * g).
Proof.
  intros Hg. unfold gate_blocks. pose proof (num_gates_nonneg n) as Hn.
  rewrite <- (Z2Nat.id (num_gates n)) by done.
  by rewrite <- (concat_blocks 0 g) by done.
Qed.

Lemma concat_comp_blocks (n b g : Z) :
  0 ≤ n → 0 ≤ b →
  concat (comp_blocks n b g) = seqZ (num_gates n * g) (n * b).
Proof.
  intros Hn Hb. unfold comp_blocks.
  replace n with (Z.of_nat (Z.to_nat n)) by lia.
  exact (concat_blocks _ b _ Hb).
Qed.

Lemma composer_node_list (n b g : Z) (G : Graph Z) :
  0 ≤ n → 0 < b → 0 < g →
  make_complete_clique_gate_graph n b g = Ok G →
  nodes G = seqZ 0 (choose2 n * g + n * b).
Proof.
  intros Hn Hb Hg (_ & _ & es & Hes & ->)%composer_inv.
  pose proof (num_gates_nonneg n) as Hnum.
  assert (concat (gate_blocks n g ++ comp_blocks n b g)
          = seqZ 0 (choose2 n * g + n * b)) as Hconcat.
  { rewrite concat_app, concat_gate_blocks, concat_comp_blocks by lia.
    rewrite <- num_gates_choose2 by done.
    rewrite (seqZ_app 0 (num_gates n * g) (n * b)) by nia. done. }
  destruct (union_cliques_spec n b g) as (_ & HU & _).
  rewrite nodes_add_edges_from_id.
  - rewrite nodes_union_components.
    + by rewrite nodes_complete_graph_fmap by apply Forall_NoDup_blocks.
    + apply Forall_fmap, Forall_forall. intros l _.
      apply graph_wf_complete_graph.
    + rewrite nodes_complete_graph_fmap by apply Forall_NoDup_blocks.
      rewrite Hconcat. apply NoDup_seqZ.
  - intros [u v] (k & c & Hu & Hv)%(bridge_blocks n b g es Hes).
    cbn [fst snd]. rewrite !HU. split.
    + by eapply in_block_app_l.
    + by eapply in_block_app_r.
Qed.

(** X3: the nodes of a graph the composer returns are the integers from
    0, in the order they were inserted: first the nodes of the gates,
    gate after gate, then those of the big components. *)
Theorem composer_nodes_in_order (n b g : Z) (G : Graph Z) :
  0 ≤ n → 0 < b → 0 < g →
  make_complete_clique_gate_graph n b g = Ok G →
  nodes G = seqZ 0 (choose2 n * g + n * b).
Proof. apply composer_node_list. Qed.

Lemma composer_nodes_in_order_witness :
  ∃ G, make_complete_clique_gate_graph 3 2 3 = Ok G
       ∧ nodes G = seqZ 0 (choose2 3 * 3 + 3 * 2).
Proof.
  eexists. split; [by vm_compute|].
  apply (composer_nodes_in_order 3 2 3); [lia|lia|lia|by vm_compute].
Defined.

(** ** The union of components *)

(** X4: [union_components] merges its components: the result has every
    node once, also a node that several components share; its nodes are
    the nodes of the components and its edges their edges; and when the
    components share no node, their nodes keep their order. *)
Theorem union_components_merges {A : Type} `{EqDecision A}
    (components : list (Graph A)) :
  Forall graph_wf components →
  NoDup (nodes (union_components components))
  ∧ (∀ x, x ∈ nodes (union_components components)
          ↔ ∃ C, C ∈ components ∧ x ∈ nodes C)
  ∧ (∀ u v, has_edge (union_components components) u v = true
            ↔ ∃ C, C ∈ components ∧ has_edge C u v = true)
  ∧ (NoDup (concat (nodes <$> components)) →
     nodes (union_components components) = concat (nodes <$> components)).
Proof.
  intros Hall.
  destruct (union_components_spec components Hall) as (Hwf & Hn & He).
  split_and!.
  - apply Hwf.
  - exact Hn.
  - intros u v. rewrite has_edge_true, He.
    by setoid_rewrite has_edge_true.
  - by apply nodes_union_components.
Qed.

Lemma union_components_merges_witness :
  Forall graph_wf [complete_graph [1; 2]; complete_graph [2; 3]]
  ∧ nodes (union_components [complete_graph [1; 2]; complete_graph [2; 3]])
    = [1; 2; 3]
  ∧ (∀ u v,
       has_edge (union_components
                   [complete_graph [1; 2]; complete_graph [2; 3]]) u v = true
       ↔ ∃ C, C ∈ [complete_graph [1; 2]; complete_graph [2; 3]]
              ∧ has_edge C u v = true).
Proof.
  assert (Forall graph_wf [complete_graph [1; 2]; complete_graph [2; 3]])
    as Hwf.
  { apply Forall_forall. intros C HC. rewrite !elem_of_cons, elem_of_nil in HC.
    destruct HC as [->|[->|[]]]; apply graph_wf_complete_graph. }
  split; [exact Hwf|]. split; [by vm_compute|].
  apply (union_components_merges
           [complete_graph [1; 2]; complete_graph [2; 3]] Hwf).
Defined.

(** ** The serializer on every graph *)

Lemma elem_of_endpoints {A : Type} (es : list (A * A)) (n : A) :
  n ∈ endpoints es ↔ ∃ e, e ∈ es ∧ (n = e.1 ∨ n = e.2).
Proof.
  unfold endpoints. rewrite list_elem_of_bind.
  split; intros (e & H1 & H2); exists e.
  - split; [done|]. rewrite !elem_of_cons, elem_of_nil in H1. tauto.
  - split; [|done]. rewrite !elem_of_cons, elem_of_nil. tauto.
Qed.

(** The nodes the edge loop meets are the nodes that have a
    neighbour. *)
Lemma endpoints_edges {A : Type} `{EqDecision A} (G : Graph A) (n : A) :
  graph_wf G → n ∈ endpoints (edges G) ↔ neighbors G n ≠ [].
Proof.
  intros HG. pose proof HG as (Hnd & Hsym & _).
  rewrite elem_of_endpoints. split.
  - intros ([a b] & He%edges_neighbors & Hn); [|done]. cbn [fst snd] in Hn.
    destruct Hn as [-> | ->].
    + intros Hnil. rewrite Hnil in He. by apply elem_of_nil in He.
    + apply Hsym in He. intros Hnil. rewrite Hnil in He.
      by apply elem_of_nil in He.
  - destruct (neighbors G n) as [|b l] eqn:Hnb; [done|]. intros _.
    assert (b ∈ neighbors G n) as Hb by (rewrite Hnb; left).
    destruct (neighbors_edges G n b HG Hb) as [He|He].
    + exists (n, b). auto.
    + exists (b, n). auto.
Qed.

Section serializer_lines.
Context {A : Type} `{Countable A} {coord : Type}.
Variable layout_position : Graph A → A → coord.

Lemma remap_node_stable (st : gmap A nat * nat) (n k : A) (i : nat) :
  st.1 !! k = Some i → (remap_node st n).1 !! k = Some i.
Proof.
  intros Hk. unfold remap_node. destruct (st.1 !! n) eqn:Hn; [done|].
  simpl. rewrite lookup_insert_ne; [done|]. congruence.
Qed.

Lemma remap_nodes_stable (l : list A) (st : gmap A nat * nat) (k : A)
    (i : nat) :
  st.1 !! k = Some i → (foldl remap_node st l).1 !! k = Some i.
Proof.
  revert st. induction l as [|n l IH]; intros st Hk; simpl; [done|].
  by apply IH, remap_node_stable.
Qed.

(** The loop over the edges prints, for every edge, the identifiers its
    two ends have when the loop ends. *)
Lemma output_edges_lines (es : list (A * A)) (st : gmap A nat * nat)
    (out : list (line coord)) :
  let st' := foldl remap_node st (endpoints es) in
  pfoldM output_edge st es out
  = (out ++ ((λ e, LEdge (default O (st'.1 !! e.1))
                         (default O (st'.1 !! e.2))) <$> es), Ok st').
Proof.
  revert st out. induction es as [|[n0 n1] es IH]; intros st out.
  - simpl. by rewrite app_nil_r.
  - cbn [pfoldM]. unfold pbind at 1. unfold output_edge at 1. cbn [fst snd].
    set (st1 := remap_node (remap_node st n0) n1).
    destruct (remap_node_mono (remap_node st n0) n1 n0
                (remap_node_self st n0)) as [id0 Hid0].
    destruct (remap_node_self (remap_node st n0) n1) as [id1 Hid1].
    fold st1 in Hid0, Hid1.
    unfold pbind, plift, dict_get, print, pret. rewrite Hid0, Hid1.
    pose proof (IH st1 (out ++ [LEdge id0 id1])) as Hrun.
    unfold pbind, pret in Hrun. rewrite Hrun.
    unfold endpoints. rewrite bind_cons. cbn [app foldl fst snd].
    fold st1. fold (endpoints es). cbn zeta.
    rewrite fmap_cons. cbn [fst snd].
    rewrite (remap_nodes_stable _ st1 n0 id0 Hid0).
    rewrite (remap_nodes_stable _ st1 n1 id1 Hid1).
    by rewrite <- app_assoc.
Qed.

Lemma output_positions_lines (m : gmap A nat) (items : list (A * coord))
    (out : list (line coord)) :
  Forall (λ item, is_Some (m !! item.1)) items →
  pfoldM (output_position m) tt items out
  = (out ++ ((λ item, LLayout (default O (m !! item.1)) item.2) <$> items),
     Ok tt).
Proof.
  intros Hall. revert out.
  induction Hall as [|[n c] items [i Hn] Hall IH]; intros out.
  - simpl. by rewrite app_nil_r.
  - cbn [pfoldM]. unfold pbind at 1. unfold output_position at 1.
    unfold pbind, plift, dict_get, print. cbn [fst snd] in *.
    rewrite Hn, IH, fmap_cons. cbn [fst snd]. rewrite Hn.
    by rewrite <- app_assoc.
Qed.

(** What [output_graph] writes for a graph all of whose nodes have a
    neighbour. *)
Lemma output_graph_run (G : Graph A) :
  graph_wf G → (∀ n, n ∈ nodes G → neighbors G n ≠ []) →
  ∃ ident : A → nat,
    output_graph layout_position G []
    = (LCount (length (nodes G))
         :: ((λ e, LEdge (ident e.1) (ident e.2)) <$> edges G)
         ++ LBlank
         :: ((λ n, LLayout (ident n) (layout_position G n)) <$> nodes G)
         ++ [LBlank],
       Ok tt)
    ∧ (∀ n, n ∈ nodes G →
            first_seen (endpoints (edges G)) !! ident n = Some n)
    ∧ (∀ n, n ∈ nodes G → (ident n < length (nodes G))%nat)
    ∧ (∀ n m, n ∈ nodes G → m ∈ nodes G → ident n = ident m → n = m).
Proof.
  intros HG Hnb.
  set (st := foldl remap_node (∅, O) (endpoints (edges G))).
  exists (λ n, default O (st.1 !! n)).
  assert (∀ n, n ∈ nodes G → is_Some (st.1 !! n)) as Hsome.
  { intros n Hn. unfold st. apply endpoints_remapped. right.
    apply endpoints_edges; auto. }
  assert (∀ n, n ∈ nodes G →
            first_seen (endpoints (edges G)) !! default O (st.1 !! n)
            = Some n) as Hseen.
  { intros n [i Hi]%Hsome. rewrite Hi. simpl.
    by apply remap_first_seen. }
  split_and!.
  - unfold output_graph, pbind at 1 2, print at 1.
    rewrite output_edges_lines. fold st. cbn zeta.
    unfold pbind at 1, print at 1. unfold pbind.
    rewrite output_positions_lines.
    + unfold print, kamada_kawai_layout. rewrite <- list_fmap_compose.
      cbn [app]. rewrite <- !app_assoc. done.
    + unfold kamada_kawai_layout. rewrite Forall_fmap.
      apply Forall_forall. intros n Hn. by apply Hsome.
  - done.
  - intros n Hn. pose proof (Hseen n Hn) as Hlook.
    apply lookup_lt_Some in Hlook.
    eapply Nat.lt_le_trans; [exact Hlook|].
    apply submseteq_length, NoDup_submseteq.
    + destruct (remap_nodes_numbers (endpoints (edges G)) [] (∅, O))
        as (_ & _ & Hnd); [|done].
      split_and!; [|done|apply NoDup_nil_2].
      intros k i. simpl. rewrite lookup_empty. by split.
    + intros k [i Hi]%list_elem_of_lookup.
      apply remap_first_seen in Hi.
      assert (k ∈ endpoints (edges G)) as Hk.
      { destruct (endpoints_remapped (endpoints (edges G)) (∅, O) k)
          as [Hto _].
        destruct Hto as [[? Hempty]|Hk]; [by rewrite Hi| |done].
        simpl in Hempty. by rewrite lookup_empty in Hempty. }
      apply elem_of_endpoints in Hk as (e & He%edges_nodes & Hk); [|done].
      destruct He. by destruct Hk as [-> | ->].
  - intros n m Hn Hm Heq. pose proof (Hseen n Hn) as H1.
    pose proof (Hseen m Hm) as H2. cbn beta in Heq.
    rewrite Heq in H1. congruence.
Qed.
End serializer_lines.

(** X5: for a graph in which every node has a neighbour, [output_graph]
    writes the number of nodes, one line for every edge, an empty line,
    one line for every node with its position, and an empty line, and
    returns; the identifiers it writes number the nodes from 0 without
    gaps in the order the edge list first mentions them. *)
Theorem output_graph_lines {A : Type} `{Countable A} {coord : Type}
    (layout_position : Graph A → A → coord) (G : Graph A) :
  graph_wf G → (∀ n, n ∈ nodes G → neighbors G n ≠ []) →
  ∃ ident : A → nat,
    output_graph layout_position G []
    = (LCount (length (nodes G))
         :: ((λ e, LEdge (ident e.1) (ident e.2)) <$> edges G)
         ++ LBlank
         :: ((λ n, LLayout (ident n) (layout_position G n)) <$> nodes G)
         ++ [LBlank],
       Ok tt)
    ∧ (∀ n, n ∈ nodes G →
            first_seen (endpoints (edges G)) !! ident n = Some n)
    ∧ (∀ n, n ∈ nodes G → (ident n < length (nodes G))%nat)
    ∧ (∀ n m, n ∈ nodes G → m ∈ nodes G → ident n = ident m → n = m).
Proof. apply output_graph_run. Qed.

Lemma output_graph_lines_witness :
  ∃ ident : Z → nat,
    output_graph (λ (_ : Graph Z) (n : Z), n) (complete_graph [5; 3; 8]) []
    = ([LCount 3; LEdge (ident 5) (ident 3); LEdge (ident 5) (ident 8);
        LEdge (ident 3) (ident 8); LBlank;
        LLayout (ident 5) 5; LLayout (ident 3) 3; LLayout (ident 8) 8;
        LBlank], Ok tt)
    ∧ ident 5 = 0%nat ∧ ident 3 = 1%nat ∧ ident 8 = 2%nat.
Proof.
  destruct (output_graph_lines (λ (_ : Graph Z) (n : Z), n)
              (complete_graph [5; 3; 8]))
    as (ident & Hrun & Hseen & _).
  - apply graph_wf_complete_graph.
  - intros n Hn. change (nodes (complete_graph [5; 3; 8])) with [5; 3; 8] in Hn.
    rewrite !elem_of_cons, elem_of_nil in Hn.
    by destruct Hn as [-> | [-> | [-> | []]]]; vm_compute.
  - exists ident. split; [exact Hrun|].
    assert (NoDup [5; 3; 8]) as Hnd
      by (apply (bool_decide_unpack (NoDup [5; 3; 8])); by vm_compute).
    assert (∀ n i, [5; 3; 8] !! i = Some n → ident n = i) as Hid.
    { intros n i Hi.
      assert (n ∈ nodes (complete_graph [5; 3; 8])) as Hn.
      { by apply list_elem_of_lookup_2 in Hi. }
      apply Hseen in Hn.
      change (first_seen (endpoints (edges (complete_graph [5; 3; 8]))))
        with [5; 3; 8] in Hn.
      eapply NoDup_lookup; [exact Hnd|exact Hn|exact Hi]. }
    split_and!; by apply Hid.
Defined.

(** X6: [output_graph] raises [KeyError] exactly when the graph has a
    node without a neighbour, which the edge loop gave no identifier;
    otherwise it returns. *)
Theorem output_graph_raises_iff_isolated {A : Type} `{Countable A}
    {coord : Type} (layout_position : Graph A → A → coord) (G : Graph A) :
  graph_wf G →
  ((output_graph layout_position G []).2 = Raise KeyError
   ↔ ∃ n, n ∈ nodes G ∧ neighbors G n = [])
  ∧ ((output_graph layout_position G []).2 = Ok tt
     ↔ ∀ n, n ∈ nodes G → neighbors G n ≠ []).
Proof.
  intros HG. rewrite output_graph_result.
  assert (Forall (λ n, n ∈ endpoints (edges G)) (nodes G)
          ↔ ∀ n, n ∈ nodes G → neighbors G n ≠ []) as Hiff.
  { rewrite Forall_forall. by setoid_rewrite (endpoints_edges G _ HG). }
  case_decide as Hall.
  - rewrite Hiff in Hall. split; split; try done.
    intros (n & Hn & Hnil). by destruct (Hall n Hn).
  - split; split; try done.
    + intros _. apply not_Forall_Exists in Hall; [|apply _].
      apply Exists_exists in Hall as (n & Hn & Hout). exists n.
      split; [done|]. unfold compose in Hout. cbn beta in Hout.
      rewrite (endpoints_edges G n HG) in Hout.
      destruct (neighbors G n); [done|]. by destruct Hout.
    + intros Hok. by apply Hiff in Hok.
Qed.

Lemma output_graph_raises_iff_isolated_witness :
  (output_graph (λ (_ : Graph Z) (n : Z), n)
     (add_node (complete_graph [1; 2]) 9) []).2
  = Raise KeyError.
Proof.
  apply (output_graph_raises_iff_isolated (λ (_ : Graph Z) (n : Z), n)
           (add_node (complete_graph [1; 2]) 9)).
  - apply graph_wf_add_node, graph_wf_complete_graph.
  - exists 9. split; [|done].
    change (nodes (add_node (complete_graph [1; 2]) 9)) with [1; 2; 9].
    rewrite !elem_of_cons. tauto.
Defined.

(** ** The entry point *)

(** X7: [main] builds no graph from fewer than four command-line
    entries.  With an empty [argv] the usage message cannot be formatted
    ([argv[0]] raises [IndexError]); with one or two entries it prints
    the usage message and returns; with three it prints nothing and
    raises: [ValueError] when one of the two arguments is not an
    integer, [IndexError] at [argv[3]] otherwise. *)
Theorem main_short_argv {coord : Type}
    (layout_position : Graph Z → Z → coord)
    (int_of_string : string → option Z) :
  main layout_position int_of_string [] [] = ([], Raise IndexError)
  ∧ (∀ prog,
       main layout_position int_of_string [prog] []
       = ([LText (usage prog)], Ok None))
  ∧ (∀ prog a1,
       main layout_position int_of_string [prog; a1] []
       = ([LText (usage prog)], Ok None))
  ∧ (∀ prog a1 a2,
       main layout_position int_of_string [prog; a1; a2] []
       = ([], Raise (if decide (is_Some (int_of_string a1)
                                ∧ is_Some (int_of_string a2))
                     then IndexError else ValueError))).
Proof.
  split_and!; try done.
  intros prog a1 a2. unfold main, pbind, plift, py_int. simpl.
  destruct (int_of_string a1) as [n|]; destruct (int_of_string a2) as [b|];
    reflexivity.
Qed.

(** What [main] does with arguments the composer accepts. *)
Lemma main_run {coord : Type} (layout_position : Graph Z → Z → coord)
    (int_of_string : string → option Z) (prog s1 s2 s3 : string)
    (rest : list string) (n b g : Z) :
  int_of_string s1 = Some n → int_of_string s2 = Some b →
  int_of_string s3 = Some g →
  2 ≤ n → 1 ≤ b → 2 ≤ g → g - g `div` 2 ≤ b →
  ∃ (G : Graph Z) (ident : Z → nat),
    make_complete_clique_gate_graph n b g = Ok G
    ∧ main layout_position int_of_string (prog :: s1 :: s2 :: s3 :: rest) []
      = (LCount (Z.to_nat (choose2 n * g + n * b))
           :: ((λ e, LEdge (ident e.1) (ident e.2)) <$> edges G)
           ++ LBlank
           :: ((λ x, LLayout (ident x) (layout_position G x)) <$> nodes G)
           ++ [LBlank],
         Ok (Some G))
    ∧ (∀ x y, x ∈ nodes G → y ∈ nodes G → ident x = ident y → x = y).
Proof.
  intros H1 H2 H3 Hn Hb Hg Hhalf.
  destruct (proj2 (blocks_fit n b g)) as [es Hes]; [auto|].
  set (G := add_edges_from
              (union_components
                 (complete_graph <$> gate_blocks n g ++ comp_blocks n b g))
              es).
  assert (make_complete_clique_gate_graph n b g = Ok G) as Hmake.
  { rewrite make_complete_clique_gate_graph_eq.
    rewrite !decide_False by lia. by rewrite Hes. }
  pose proof (composer_node_list n b g G ltac:(lia) ltac:(lia) ltac:(lia)
                Hmake) as Hnodes.
  pose proof (composer_wf n b g es) as Hwf. fold G in Hwf.
  assert (0 ≤ choose2 n) as Hc.
  { rewrite <- num_gates_choose2 by lia. apply num_gates_nonneg. }
  destruct (output_graph_run layout_position G Hwf) as (ident & Hrun & _ & _ & Hinj).
  { intros x Hx. apply connected_no_isolated; [apply Hwf| | |done].
    - apply (fitted_connected n b g es Hes); lia.
    - rewrite Hnodes, length_seqZ. nia. }
  exists G, ident. split_and!; [done| |done].
  unfold main. rewrite decide_False by (simpl; lia).
  unfold pbind, plift, py_index, py_int. cbn [lookup list_lookup].
  rewrite H1, H2, H3, Hmake, Hrun. unfold pret.
  by rewrite Hnodes, length_seqZ.
Qed.

(** X8: given three integer arguments the composer accepts (two or more
    components of at least one node, gates of two or more nodes whose
    larger half fits a component), [main] builds the graph and writes it
    out without error; the first line is the number of nodes
    [C(n, 2) * gate_size + n * big_component_size], and arguments after
    the third are ignored. *)
Theorem main_valid_run {coord : Type} (layout_position : Graph Z → Z → coord)
    (int_of_string : string → option Z) (prog s1 s2 s3 : string)
    (rest : list string) (n b g : Z) :
  int_of_string s1 = Some n → int_of_string s2 = Some b →
  int_of_string s3 = Some g →
  2 ≤ n → 1 ≤ b → 2 ≤ g → g - g `div` 2 ≤ b →
  ∃ (G : Graph Z) (ident : Z → nat),
    make_complete_clique_gate_graph n b g = Ok G
    ∧ main layout_position int_of_string (prog :: s1 :: s2 :: s3 :: rest) []
      = (LCount (Z.to_nat (choose2 n * g + n * b))
           :: ((λ e, LEdge (ident e.1) (ident e.2)) <$> edges G)
           ++ LBlank
           :: ((λ x, LLayout (ident x) (layout_position G x)) <$> nodes G)
           ++ [LBlank],
         Ok (Some G))
    ∧ (∀ x y, x ∈ nodes G → y ∈ nodes G → ident x = ident y → x = y).
Proof. apply main_run. Qed.

Lemma main_valid_run_witness :
  ∃ (G : Graph Z) (ident : Z → nat),
    make_complete_clique_gate_graph 2 3 2 = Ok G
    ∧ main (λ (_ : Graph Z) (x : Z), x)
        (λ s, if decide (s = "2") then Some 2
              else if decide (s = "3") then Some 3 else None)
        ["networkgen.py"; "2"; "3"; "2"] []
      = (LCount (Z.to_nat (choose2 2 * 2 + 2 * 3))
           :: ((λ e, LEdge (ident e.1) (ident e.2)) <$> edges G)
           ++ LBlank :: ((λ x, LLayout (ident x) x) <$> nodes G)
           ++ [LBlank],
         Ok (Some G))
    ∧ (∀ x y, x ∈ nodes G → y ∈ nodes G → ident x = ident y → x = y).
Proof.
  apply (main_valid_run (λ (_ : Graph Z) (x : Z), x)
           (λ s, if decide (s = "2") then Some 2
                 else if decide (s = "3") then Some 3 else None)
           "networkgen.py" "2" "3" "2" [] 2 3 2);
    [reflexivity|reflexivity|reflexivity|lia|lia|lia|by vm_compute].
Defined.


(** ** Rejection sampling *)

Section rejection_sampling.
Variable rand : nat → Z.
Variable grid : Grid.
Hypothesis Hrows : 0 < (shape grid).1.
Hypothesis Hcols : 0 < (shape grid).2.

Lemma drawn_spot_in_grid (k j : nat) :
  in_grid (shape grid) (drawn_spot rand grid k j).
Proof. split; by apply Z.mod_pos_bound. Qed.

Lemma draw_spot_drawn (k j : nat) :
  draw_spot rand grid (2 * j + k)%nat
  = Ok (drawn_spot rand grid k j, (2 * S j + k)%nat).
Proof.
  unfold draw_spot, integers.
  rewrite !(proj2 (Z.leb_gt _ _)) by done. cbn [rbind].
  unfold drawn_spot. do 2 f_equal. lia.
Qed.

(** The loop returns the first drawn spot whose cell is empty. *)
Lemma choose_loop_first_empty (k n i j : nat) :
  (i ≤ j)%nat → (j - i ≤ n)%nat →
  (∀ m, (i ≤ m < j)%nat → 0 < grid_cell grid (drawn_spot rand grid k m)) →
  grid_cell grid (drawn_spot rand grid k j) ≤ 0 →
  choose_loop rand n grid (drawn_spot rand grid k i).1
    (drawn_spot rand grid k i).2 (2 * S i + k)%nat
  = Ok (drawn_spot rand grid k j, (2 * S j + k)%nat).
Proof.
  revert i. induction n as [|n IH]; intros i Hij Hfuel Hocc Hempty;
    cbn [choose_loop];
    (rewrite grid_get_in_grid
       by (rewrite <- surjective_pairing; apply drawn_spot_in_grid));
    rewrite <- surjective_pairing; cbn [rbind].
  - assert (i = j) as -> by lia.
    by rewrite (proj2 (Z.ltb_ge _ _)) by done.
  - destruct (decide (i = j)) as [->|Hne].
    + by rewrite (proj2 (Z.ltb_ge _ _)) by done.
    + rewrite (proj2 (Z.ltb_lt _ _)) by (apply Hocc; lia).
      rewrite draw_spot_drawn. cbn [rbind].
      apply IH; [lia|lia| |done]. intros m Hm. apply Hocc. lia.
Qed.

(** The loop runs out of any fuel when every spot it draws is taken. *)
Lemma choose_loop_all_taken (k n i : nat) :
  (∀ m, (i ≤ m ≤ i + n)%nat → 0 < grid_cell grid (drawn_spot rand grid k m)) →
  choose_loop rand n grid (drawn_spot rand grid k i).1
    (drawn_spot rand grid k i).2 (2 * S i + k)%nat
  = OutOfFuel.
Proof.
  revert i. induction n as [|n IH]; intros i Hocc; cbn [choose_loop];
    (rewrite grid_get_in_grid
       by (rewrite <- surjective_pairing; apply drawn_spot_in_grid));
    rewrite <- surjective_pairing; cbn [rbind];
    rewrite (proj2 (Z.ltb_lt _ _)) by (apply Hocc; lia); [done|].
  rewrite draw_spot_drawn. cbn [rbind].
  apply IH. intros m Hm. apply Hocc. lia.
Qed.

Lemma choose_empty_spot_unfold (fuel k : nat) :
  choose_empty_spot rand fuel grid k
  = choose_loop rand fuel grid (drawn_spot rand grid k 0).1
      (drawn_spot rand grid k 0).2 (2 * 1 + k)%nat.
Proof.
  unfold choose_empty_spot. pose proof (draw_spot_drawn k 0) as Hdraw.
  change (2 * 0 + k)%nat with k in Hdraw. by rewrite Hdraw.
Qed.
End rejection_sampling.

(** X9: on a grid with cells, [choose_empty_spot] returns the first spot
    it draws whose cell is empty: when the first [j] spots drawn are
    taken and the next one is free, it returns that one, having made
    [2 * (j + 1)] draws. *)
Theorem choose_empty_spot_first_empty (rand : nat → Z) (fuel : nat)
    (grid : Grid) (k j : nat) :
  0 < (shape grid).1 → 0 < (shape grid).2 → (j ≤ fuel)%nat →
  (∀ i, (i < j)%nat → 0 < grid_cell grid (drawn_spot rand grid k i)) →
  grid_cell grid (drawn_spot rand grid k j) ≤ 0 →
  choose_empty_spot rand fuel grid k
  = Ok (drawn_spot rand grid k j, (2 * (j + 1) + k)%nat).
Proof.
  intros Hrows Hcols Hfuel Hocc Hempty.
  rewrite choose_empty_spot_unfold by done.
  rewrite (choose_loop_first_empty rand grid Hrows Hcols k fuel 0 j);
    [|lia|lia| |done].
  - do 2 f_equal. lia.
  - intros m Hm. apply Hocc. lia.
Qed.

Lemma choose_empty_spot_first_empty_witness :
  choose_empty_spot (rand_of_list [1; 1; 2; 1; 3; 0]) 5 example_grid 0
  = Ok (3, 0, 6%nat).
Proof.
  apply (choose_empty_spot_first_empty (rand_of_list [1; 1; 2; 1; 3; 0]) 5
           example_grid 0 2); [done|done|lia| |by vm_compute].
  intros [|[|i]] Hi; [by vm_compute|by vm_compute|lia].
Defined.

(** X10: on a grid all of whose cells are taken [choose_empty_spot]
    never returns: whatever the random source yields, the loop is still
    running when the fuel is spent, for every amount of fuel. *)
Theorem choose_empty_spot_full_grid (rand : nat → Z) (fuel : nat)
    (grid : Grid) (k : nat) :
  0 < (shape grid).1 → 0 < (shape grid).2 →
  (∀ c, in_grid (shape grid) c → 0 < grid_cell grid c) →
  choose_empty_spot rand fuel grid k = OutOfFuel.
Proof.
  intros Hrows Hcols Hfull.
  rewrite choose_empty_spot_unfold by done.
  apply choose_loop_all_taken; [done..|].
  intros m _. by apply Hfull, drawn_spot_in_grid.
Qed.

Lemma choose_empty_spot_full_grid_witness :
  choose_empty_spot (rand_of_list [0; 1; 0; 0]) 7
    {| shape := (1, 2); cells := <[(0, 0) := 3]> (<[(0, 1) := 1]> ∅) |} 0
  = OutOfFuel.
Proof.
  apply (choose_empty_spot_full_grid (rand_of_list [0; 1; 0; 0]) 7
           {| shape := (1, 2);
              cells := <[(0, 0) := 3]> (<[(0, 1) := 1]> ∅) |} 0);
    [done|done|].
  intros [x y] [Hx Hy]. cbn [shape fst snd] in Hx, Hy.
  assert (x = 0) as -> by lia.
  assert (y = 0 ∨ y = 1) as [-> | ->] by lia; by vm_compute.
Defined.

(** ** Requests the generator cannot serve *)






(** On a grid without cells the first agent to be placed makes
    [rand.integers] raise. *)
Lemma place_on_no_cells (rand : nat → Z) (fuel : nat) (st : attempt_state)
    (l : list (Agent * Z)) :
  (shape (grid st)).1 ≤ 0 ∨ (shape (grid st)).2 ≤ 0 →
  (∃ aq, aq ∈ l ∧ 0 < aq.2) →
  foldM (place_and_connect rand fuel) st l = Raise ValueError.
Proof.
  intros Hdim. induction l as [|aq l IH]; intros (aq' & Haq & Hpos).
  - by apply elem_of_nil in Haq.
  - cbn [foldM]. unfold place_and_connect at 1.
    destruct (decide (0 < aq.2)) as [Hq|Hq].
    + unfold py_range. rewrite seqZ_cons by lia. cbn [foldM].
      unfold place_agent at 1, choose_empty_spot, draw_spot, integers.
      destruct ((shape (grid st)).1 <=? 0) eqn:H1; [done|].
      destruct ((shape (grid st)).2 <=? 0) eqn:H2; [done|].
      apply Z.leb_gt in H1, H2. lia.
    + unfold py_range. rewrite seqZ_nil by lia. cbn [foldM rbind].
      apply IH. apply elem_of_cons in Haq as [->|Haq]; [done|eauto].
Qed.

(** X12: on a grid without cells (a dimension that is 0 or negative) a
    request for at least one agent raises [ValueError]: from [np.zeros]
    when a dimension is negative, from [rand.integers] otherwise. *)
Theorem social_circles_no_cells_raises (rand : nat → Z) (fuel : nat)
    (items : list (Agent * Z)) (grid_size : Z * Z) (force_connected : bool)
    (max_tries : Z) :
  grid_size.1 ≤ 0 ∨ grid_size.2 ≤ 0 →
  (∃ aq, aq ∈ items ∧ 0 < aq.2) → 1 ≤ max_tries →
  make_social_circles_network rand fuel items grid_size force_connected
    max_tries = Raise ValueError.
Proof.
  intros Hdim Hpos Htries. unfold make_social_circles_network.
  destruct (Z.to_nat max_tries) as [|tries] eqn:Ht; [lia|].
  cbn [attempts]. unfold attempt, generate, initial_state, grid_zeros.
  destruct ((grid_size.1 <? 0) || (grid_size.2 <? 0)); [done|].
  cbn [rbind]. unfold matrix_zeros.
  destruct (py_sum (snd <$> items) <? 0); [done|]. cbn [rbind].
  rewrite place_on_no_cells; [done|done|].
  destruct Hpos as (aq & Haq & Hq). exists aq. split; [|done].
  by rewrite sorted_by_reach_perm.
Qed.

Lemma social_circles_no_cells_raises_witness :
  make_social_circles_network (rand_of_list []) 0 [(green, 0); (blue, 1)]
    (3, 0) true 5
  = Raise ValueError.
Proof.
  apply (social_circles_no_cells_raises (rand_of_list []) 0
           [(green, 0); (blue, 1)] (3, 0) true 5).
  - right. done.
  - exists (blue, 1). split; [|done]. rewrite !elem_of_cons. tauto.
  - lia.
Defined.


(** ** The order of placement *)

Lemma insert_by_reach_sorted (aq : Agent * Z) (l : list (Agent * Z)) :
  StronglySorted (λ x y, reach_ge x.1 y.1) l →
  StronglySorted (λ x y, reach_ge x.1 y.1) (insert_by_reach aq l).
Proof.
  induction 1 as [|aq' l Hl IH Hall]; cbn [insert_by_reach].
  - repeat constructor.
  - destruct (reach aq.1 <? reach aq'.1) eqn:Hlt.
    + apply Z.ltb_lt in Hlt. constructor; [done|].
      rewrite insert_by_reach_perm. constructor; [|done].
      unfold reach_ge. lia.
    + apply Z.ltb_ge in Hlt. constructor; [by constructor|].
      constructor; [done|].
      eapply Forall_impl; [exact Hall|]. unfold reach_ge. intros y ?. lia.
Qed.

Lemma sorted_by_reach_sorted (items : list (Agent * Z)) :
  StronglySorted (λ x y, reach_ge x.1 y.1) (sorted_by_reach items).
Proof.
  induction items as [|aq items IH]; [constructor|].
  by apply insert_by_reach_sorted.
Qed.





(** ** What a returned network holds *)







(** ** The distance *)




(** ** The edges of a generated network *)

Lemma foldM_Ok {A S : Type} (I : list A → S → Prop) (f : S → A → result S)
    (l : list A) (s s' : S) :
  foldM f s l = Ok s' → I l s →
  (∀ a rest s s1, I (a :: rest) s → f s a = Ok s1 → I rest s1) →
  I [] s'.
Proof.
  intros Hrun Hs Hstep.
  pose proof (foldM_outcome True I f l s Hs) as Hout.
  rewrite Hrun in Hout. apply Hout.
  intros a rest s0 Ha. destruct (f s0 a) eqn:Hf; simpl; eauto.
Qed.

Lemma distance_le_comm (x0 y0 x1 y1 r : Z) :
  distance_le x0 y0 x1 y1 r = distance_le x1 y1 x0 y0 r.
Proof. unfold distance_le. f_equal. lia. Qed.

Lemma connect_pair_Ok (st : attempt_state) (xy ij : Z * Z)
    (Mx M' : list (list Z)) :
  connect_pair st xy Mx ij = Ok M' →
  ∃ a b, loc_to_id st !! xy = Some a ∧ loc_to_id st !! ij = Some b
         ∧ ∀ i j, matrix_entry M' i j
                  = if decide ((i = a ∧ j = b) ∨ (i = b ∧ j = a)) then 1
                    else matrix_entry Mx i j.
Proof.
  unfold connect_pair, dict_get.
  destruct (loc_to_id st !! xy) as [a|]; [|done].
  destruct (loc_to_id st !! ij) as [b|]; [|done]. cbn [rbind].
  destruct (matrix_set Mx a b 1) as [M1| |] eqn:H1; [|done..]. cbn [rbind].
  intros H2. exists a, b. split_and!; [done..|]. intros i j.
  rewrite (matrix_entry_set _ _ _ _ _ i j H2).
  rewrite (matrix_entry_set _ _ _ _ _ i j H1).
  repeat case_decide; done || tauto.
Qed.

Section mutual_reach.
Variable rand : nat → Z.
Variable fuel : nat.
Variable items : list (Agent * Z).
Variable grid_size : Z * Z.

Local Abbreviation num := (Z.to_nat (py_sum (snd <$> items))).
Local Abbreviation Inv := (attempt_inv items grid_size).

Lemma place_agent_Ok (placed : list Agent) (st st' : attempt_state)
    (new new' : list (Z * Z)) (a : Agent) (i : Z) :
  Inv placed st →
  place_agent rand fuel a (st, new) i = Ok (st', new') →
  ∃ c k, in_grid grid_size c ∧ grid_cell (grid st) c = 0
         ∧ st' = {| grid := {| shape := shape (grid st);
                               cells := <[c := reach a `mod` 256]>
                                          (cells (grid st)) |};
                    M := M st;
                    loc_to_id := <[c := current_id st]> (loc_to_id st);
                    current_id := S (current_id st);
                    draws := k |}
         ∧ new' = new ++ [c].
Proof.
  intros HI. unfold place_agent.
  pose proof (choose_empty_spot_outcome rand fuel items grid_size (grid st)
                (draws st) (inv_shape _ _ _ _ HI) (inv_bytes _ _ _ _ HI))
    as Hout.
  destruct (choose_empty_spot rand fuel (grid st) (draws st))
    as [[[x y] k]| |]; [|done..].
  cbn [outcome fst snd] in Hout. destruct Hout as [Hin Hzero].
  cbn [rbind]. rewrite grid_set_in_grid by (by rewrite (inv_shape _ _ _ _ HI)).
  cbn [rbind]. intros [= <- <-]. by exists (x, y), k.
Qed.

(** Placing an agent on an empty cell keeps what the entries say. *)
Lemma edges_mutual_place (placed : list Agent) (st : attempt_state)
    (a : Agent) (c : Z * Z) (k : nat) :
  edges_mutual placed st (M st) → grid_cell (grid st) c = 0 →
  edges_mutual (placed ++ [a])
    {| grid := {| shape := shape (grid st);
                  cells := <[c := reach a `mod` 256]> (cells (grid st)) |};
       M := M st;
       loc_to_id := <[c := current_id st]> (loc_to_id st);
       current_id := S (current_id st);
       draws := k |} (M st).
Proof.
  intros Hedges Hempty i j Hij.
  destruct (Hedges i j Hij)
    as (Hne & Hsym & ca & cb & aa & ab & ar & Ha & Hb & Hna & Hnb & Haa & Hab
        & Har & Hd & Hra & Hrb).
  split_and!; [done..|]. exists ca, cb, aa, ab, ar.
  cbn [grid loc_to_id]. destruct (grid st) as [sh cs]. cbn [shape cells] in *.
  assert (c ≠ ca) by (by intros ->). assert (c ≠ cb) by (by intros ->).
  rewrite !lookup_insert_ne by done.
  rewrite !grid_cell_insert, !decide_False by done.
  split_and!; try done.
  - by apply lookup_app_l_Some.
  - by apply lookup_app_l_Some.
  - apply elem_of_app. by left.
Qed.

Lemma place_agents_mutual (placed : list Agent) (st st' : attempt_state)
    (a : Agent) (idxs : list Z) (new : list (Z * Z)) :
  Inv placed st → (∃ q, (a, q) ∈ items) →
  (valid_request items grid_size →
   (current_id st + length idxs ≤ num)%nat) →
  edges_mutual placed st (M st) →
  foldM (place_agent rand fuel a) (st, []) idxs = Ok (st', new) →
  Inv (placed ++ replicate (length idxs) a) st'
  ∧ edges_mutual (placed ++ replicate (length idxs) a) st' (M st')
  ∧ Forall (λ c, in_grid grid_size c ∧ is_Some (loc_to_id st' !! c)
                 ∧ (grid_cell (grid st') c ≠ 0 →
                    grid_cell (grid st') c = reach a `mod` 256)
                 ∧ a ∈ placed ++ replicate (length idxs) a) new.
Proof.
  intros HI Ha Hroom Hedges Hrun.
  pose (I := λ (rest : list Z) (r : attempt_state * list (Z * Z)),
       (length rest ≤ length idxs)%nat
       ∧ Inv (placed ++ replicate (length idxs - length rest) a) r.1
       ∧ current_id r.1 = (current_id st + (length idxs - length rest))%nat
       ∧ edges_mutual (placed ++ replicate (length idxs - length rest) a)
           r.1 (M r.1)
       ∧ Forall (λ c, in_grid grid_size c ∧ is_Some (loc_to_id r.1 !! c)
                      ∧ (grid_cell (grid r.1) c ≠ 0 →
                         grid_cell (grid r.1) c = reach a `mod` 256)
                      ∧ a ∈ placed ++ replicate (length idxs) a) r.2).
  assert (I [] (st', new)) as (_ & HI' & _ & Hed' & Hnew').
  2:{ cbn [fst snd length] in *. rewrite Nat.sub_0_r in *. done. }
  apply (foldM_Ok I _ _ _ _ Hrun); unfold I.
  - cbn [fst snd]. rewrite Nat.sub_diag, app_nil_r, Nat.add_0_r. done.
  - intros i rest [st1 new1] [st2 new2] (Hlen & HI1 & Hcur & Hed & Hnew) Hstep.
    cbn [fst snd length] in *.
    destruct (place_agent_Ok _ _ _ _ _ _ _ HI1 Hstep)
      as (c & k & Hc & Hempty & -> & ->).
    replace (length idxs - length rest)%nat
      with (S (length idxs - S (length rest))) by lia.
    rewrite replicate_S_end, app_assoc. cbn [M loc_to_id current_id grid].
    split_and!.
    + lia.
    + apply place_on_empty_cell; [done|done| |done|done].
      intros Hv%Hroom. lia.
    + lia.
    + by apply edges_mutual_place.
    + destruct (grid st1) as [sh cs] eqn:Hg. cbn [shape cells] in *.
      apply Forall_app. split.
      * eapply Forall_impl; [exact Hnew|]. intros c' (? & Hsome & Hcell & ?).
        split_and!; [done| | |done].
        -- rewrite lookup_insert. case_decide; eauto.
        -- rewrite grid_cell_insert. case_decide; [done|]. exact Hcell.
      * apply Forall_singleton. split_and!; [done| | |].
        -- rewrite lookup_insert_eq. eauto.
        -- rewrite grid_cell_insert, decide_True by done. done.
        -- apply elem_of_app. right. apply elem_of_replicate. split; [done|lia].
Qed.

(** Joining the agent at [xy] to a neighbour it found. *)
Lemma connect_pair_mutual (placed : list Agent) (st : attempt_state)
    (xy ij : Z * Z) (Mx M' : list (list Z)) (ar : Agent) :
  Inv placed st → edges_mutual placed st Mx →
  reaches (grid st) xy ij →
  (grid_cell (grid st) xy ≠ 0 →
   grid_cell (grid st) xy = reach ar `mod` 256) →
  ar ∈ placed → Forall (λ x, reach ar ≤ reach x) placed →
  connect_pair st xy Mx ij = Ok M' →
  edges_mutual placed st M'.
Proof.
  intros HI Hedges (Hpos & Hdist & Hne) Hcell Har Hmin Hrun.
  destruct (connect_pair_Ok _ _ _ _ _ Hrun) as (a & b & Ha & Hb & Hent).
  assert (grid_cell (grid st) xy ≠ 0) as Hxy.
  { intros H0. rewrite H0 in Hdist. destruct xy, ij.
    apply distance_le_zero in Hdist. done. }
  assert (grid_cell (grid st) ij ≠ 0) as Hij by lia.
  destruct (inv_reach _ _ _ _ HI xy a Ha Hxy) as (aa & Haa & _).
  destruct (inv_reach _ _ _ _ HI ij b Hb Hij) as (ab & Hab & _).
  assert (a ≠ b) as Hab_ne.
  { intros ->. apply Hne. symmetry. by eapply (inv_inj _ _ _ _ HI). }
  rewrite Forall_forall in Hmin.
  assert (reach ar ≤ reach aa) by (by eapply Hmin, list_elem_of_lookup_2).
  assert (reach ar ≤ reach ab) by (by eapply Hmin, list_elem_of_lookup_2).
  rewrite (Hcell Hxy) in Hdist.
  intros i j. rewrite Hent.
  case_decide as Hcase.
  - intros _. split_and!.
    + destruct Hcase as [[-> ->]|[-> ->]]; congruence.
    + rewrite Hent. rewrite decide_True by tauto. done.
    + destruct Hcase as [[-> ->]|[-> ->]].
      * exists xy, ij, aa, ab, ar. split_and!; done.
      * exists ij, xy, ab, aa, ar. split_and!; try done.
        by rewrite distance_le_comm.
  - intros Hold. destruct (Hedges i j Hold) as (? & Hsym & Hex).
    split_and!; [done| |done].
    rewrite Hent. case_decide; done.
Qed.

Lemma connect_agent_mutual (placed : list Agent) (st st' : attempt_state)
    (xy : Z * Z) (ar : Agent) :
  Inv placed st → in_grid grid_size xy →
  (grid_cell (grid st) xy ≠ 0 →
   grid_cell (grid st) xy = reach ar `mod` 256) →
  ar ∈ placed → Forall (λ x, reach ar ≤ reach x) placed →
  edges_mutual placed st (M st) →
  connect_agent st xy = Ok st' →
  grid st' = grid st ∧ loc_to_id st' = loc_to_id st
  ∧ edges_mutual placed st' (M st').
Proof.
  intros HI Hxy Hcell Har Hmin Hedges. unfold connect_agent.
  destruct (search_for_neighbors_spec (grid st) xy.1 xy.2)
    as (nbrs & -> & Hchar).
  { rewrite (inv_shape _ _ _ _ HI). by destruct xy. }
  cbn [rbind].
  destruct (foldM (connect_pair st xy) (M st) nbrs) as [M'| |] eqn:Hfold;
    [|done..].
  cbn [rbind]. intros [= <-]. cbn [grid loc_to_id M]. split_and!; [done..|].
  assert (edges_mutual placed st M') as Hfinal.
  { apply (foldM_Ok
             (λ rest Mx, edges_mutual placed st Mx
                         ∧ Forall (reaches (grid st) xy) rest)
             _ _ _ _ Hfold).
    - split; [done|]. apply Forall_forall.
      intros [i j] (_ & _ & ? & ? & ?)%Hchar. destruct xy. done.
    - intros c rest Mx M1 [Hed [Hc Hrest]%Forall_cons] Hstep.
      split; [|done]. by eapply connect_pair_mutual. }
  exact Hfinal.
Qed.

Lemma connect_agents_mutual (placed : list Agent) (st st' : attempt_state)
    (new : list (Z * Z)) (a : Agent) :
  Inv placed st →
  Forall (λ c, in_grid grid_size c ∧ is_Some (loc_to_id st !! c)
               ∧ (grid_cell (grid st) c ≠ 0 →
                  grid_cell (grid st) c = reach a `mod` 256)
               ∧ a ∈ placed) new →
  Forall (λ x, reach a ≤ reach x) placed →
  edges_mutual placed st (M st) →
  foldM connect_agent st new = Ok st' →
  Inv placed st' ∧ edges_mutual placed st' (M st').
Proof.
  intros HI Hnew Hmin Hedges Hrun.
  pose proof (foldM_Ok
    (λ rest st1,
       Inv placed st1 ∧ grid st1 = grid st ∧ loc_to_id st1 = loc_to_id st
       ∧ edges_mutual placed st1 (M st1)
       ∧ Forall (λ c, in_grid grid_size c ∧ is_Some (loc_to_id st !! c)
                      ∧ (grid_cell (grid st) c ≠ 0 →
                         grid_cell (grid st) c = reach a `mod` 256)
                      ∧ a ∈ placed) rest)
    _ _ _ _ Hrun) as Hfold.
  destruct Hfold as (? & _ & _ & ? & _); [done| |done].
  intros c rest st1 st2 (HI1 & Hg & Hl & Hed & [Hc Hrest]%Forall_cons) Hstep.
  destruct Hc as (Hin & Hsome & Hcell & Ha).
  pose proof (connect_agent_outcome rand fuel items grid_size st1 placed c HI1
                Hin) as Hout.
  rewrite Hstep in Hout. destruct Hout as (HI2 & _ & _); [by rewrite Hl|].
  destruct (connect_agent_mutual placed st1 st2 c a HI1 Hin)
    as (Hg2 & Hl2 & Hed2); [by rewrite Hg|done..|].
  split_and!; [done|congruence|congruence|done|done].
Qed.

Lemma place_and_connect_mutual (placed : list Agent)
    (st st' : attempt_state) (aq : Agent * Z) :
  Inv placed st → aq ∈ items →
  (valid_request items grid_size →
   (current_id st + Z.to_nat aq.2 ≤ num)%nat) →
  Forall (λ x, reach aq.1 ≤ reach x) placed →
  edges_mutual placed st (M st) →
  place_and_connect rand fuel st aq = Ok st' →
  Inv (placed ++ replicate (Z.to_nat aq.2) aq.1) st'
  ∧ edges_mutual (placed ++ replicate (Z.to_nat aq.2) aq.1) st' (M st').
Proof.
  intros HI Haq Hroom Hmin Hedges. unfold place_and_connect.
  assert (length (py_range 0 aq.2) = Z.to_nat aq.2) as Hlen.
  { unfold py_range. rewrite length_seqZ. f_equal. lia. }
  destruct (foldM (place_agent rand fuel aq.1) (st, []) (py_range 0 aq.2))
    as [[st1 new]| |] eqn:Hplace; [|done..].
  cbn [rbind]. intros Hconnect.
  destruct (place_agents_mutual placed st st1 aq.1 (py_range 0 aq.2) new HI)
    as (HI1 & Hed1 & Hnew);
    [by exists aq.2; destruct aq|by rewrite Hlen|done|done|].
  rewrite Hlen in HI1, Hed1, Hnew.
  eapply connect_agents_mutual; [done|exact Hnew| |done|done].
  apply Forall_app. split; [done|]. apply Forall_replicate. lia.
Qed.

Lemma generate_mutual (k : nat) (st : attempt_state) :
  generate rand fuel items grid_size k = Ok st →
  Inv (placement_order items) st
  ∧ edges_mutual (placement_order items) st (M st).
Proof.
  unfold generate.
  pose proof (initial_state_outcome items grid_size k) as HI0.
  destruct (initial_state items grid_size k) as [st0| |] eqn:Hinit; [|done..].
  cbn [rbind outcome] in *. intros Hrun.
  assert (edges_mutual [] st0 (M st0)) as Hed0.
  { intros a b Hab. unfold initial_state, grid_zeros, matrix_zeros in Hinit.
    destruct ((grid_size.1 <? 0) || (grid_size.2 <? 0)); [done|].
    cbn [rbind] in Hinit.
    destruct (py_sum (snd <$> items) <? 0); [done|].
    injection Hinit as <-. cbn [M] in Hab.
    by rewrite matrix_entry_zeros in Hab. }
  pose proof (foldM_Ok
    (λ rest st1,
       ∃ processed,
         processed ++ rest = sorted_by_reach items
         ∧ Inv (expand processed) st1
         ∧ edges_mutual (expand processed) st1 (M st1)
         ∧ (valid_request items grid_size →
            (current_id st1 + length (expand rest) ≤ num)%nat))
    _ _ _ _ Hrun) as Hfold.
  destruct Hfold as (processed & Hp & HI & Hed & _).
  - exists []. split_and!; [done..|].
    intros (Hq & Hn & _). rewrite (inv_count _ _ _ _ HI0). simpl.
    pose proof (length_placement_order items Hq) as Hlen.
    unfold placement_order in Hlen. lia.
  - intros aq rest st1 st2 (processed & Hp & HI & Hed & Hroom) Hstep.
    rewrite length_expand_cons in Hroom.
    destruct (place_and_connect_mutual (expand processed) st1 st2 aq HI)
      as [HI2 Hed2]; [| | |done|done|].
    + rewrite <- (sorted_by_reach_perm items), <- Hp.
      apply elem_of_app. right. left.
    + intros Hv%Hroom. lia.
    + pose proof (sorted_by_reach_sorted items) as Hsorted.
      rewrite <- Hp in Hsorted. apply Forall_forall.
      intros x [q Hx]%elem_of_expand.
      apply (StronglySorted_app_1_elem_of _ _ _ (x, q) aq Hsorted Hx). left.
    + exists (processed ++ [aq]).
      assert (expand (processed ++ [aq])
              = expand processed ++ replicate (Z.to_nat aq.2) aq.1) as ->.
      { unfold expand. rewrite bind_app, bind_cons. simpl.
        by rewrite app_nil_r. }
      split_and!; [by rewrite <- app_assoc|done|done|].
      intros Hv. pose proof (Hroom Hv).
      rewrite (inv_count _ _ _ _ HI2), length_app, length_replicate.
      rewrite (inv_count _ _ _ _ HI) in *. lia.
  - rewrite app_nil_r in Hp. by subst processed.
Qed.
End mutual_reach.

(** X17: the graph of a returned network is a simple undirected graph
    on the nodes [0 .. num_nodes-1]: identifiers in insertion order, no
    edge from a node to itself, and adjacency is symmetric. *)
Theorem social_circles_graph_simple (rand : nat → Z) (fuel : nat)
    (items : list (Agent * Z)) (grid_size : Z * Z) (force_connected : bool)
    (max_tries : Z) (G : Graph nat) (layout : gmap nat (Q * Q))
    (colors : list Color) :
  make_social_circles_network rand fuel items grid_size force_connected
    max_tries = Ok (Some (G, layout, colors)) →
  nodes G = seq 0 (Z.to_nat (py_sum (snd <$> items)))
  ∧ (∀ u, has_edge G u u = false)
  ∧ (∀ u v, has_edge G u v = has_edge G v u)
  ∧ (∀ u v, has_edge G u v = true → u ∈ nodes G ∧ v ∈ nodes G).
Proof.
  intros (k0 & k1 & Hatt & _)%attempts_Some.
  apply attempt_inv_result in Hatt as (st & Hrun & HI & -> & _).
  destruct (generate_mutual _ _ _ _ _ _ Hrun) as [_ Hed].
  destruct (inv_matrix _ _ _ _ HI) as [Hlen Hrows].
  pose proof (graph_of_matrix_wf (M st)) as (_ & Hsym & Hcl).
  split_and!.
  - by apply nodes_graph_of_matrix.
  - intros u. apply not_true_is_false.
    intros [Huu|Huu]%has_edge_true%neighbors_graph_of_matrix;
      by destruct (Hed u u Huu) as [? _].
  - intros u v. apply eq_true_iff_eq. rewrite !has_edge_true.
    split; apply Hsym.
  - intros u v Huv%has_edge_true. split; [|by eapply Hcl].
    by eapply elem_of_neighbors_node.
Qed.

Lemma social_circles_graph_simple_witness :
  ∃ G layout colors,
    make_social_circles_network (rand_of_list [1; 1; 2; 1; 0; 0]) 0
      [(green, 1); (blue, 2)] (4, 4) false 5
    = Ok (Some (G, layout, colors))
    ∧ nodes G = [0; 1; 2]%nat
    ∧ has_edge G 0%nat 1%nat = true
    ∧ (∀ u, has_edge G u u = false)
    ∧ (∀ u v, has_edge G u v = has_edge G v u).
Proof.
  eexists _, _, _. split; [by vm_compute|].
  edestruct (social_circles_graph_simple (rand_of_list [1; 1; 2; 1; 0; 0]) 0
               [(green, 1); (blue, 2)] (4, 4) false 5)
    as (Hnodes & Hirr & Hsym & _); [by vm_compute|].
  split_and!; [exact Hnodes|by vm_compute|exact Hirr|exact Hsym].
Defined.

(** X18: in a returned network the two agents at the ends of an edge
    are within the reach of both of them: their Euclidean distance is at
    most the smaller of the two reaches (reaches are not negative). *)
Theorem social_circles_edges_within_both_reaches (rand : nat → Z)
    (fuel : nat) (items : list (Agent * Z)) (grid_size : Z * Z)
    (force_connected : bool) (max_tries : Z) (G : Graph nat)
    (layout : gmap nat (Q * Q)) (colors : list Color) :
  Forall (λ aq : Agent * Z, 0 ≤ reach aq.1) items →
  make_social_circles_network rand fuel items grid_size force_connected
    max_tries = Ok (Some (G, layout, colors)) →
  ∀ u v, has_edge G u v = true →
    ∃ cu cv au av,
      layout !! u = Some (rescale cu.1 grid_size.1, rescale cu.2 grid_size.2)
      ∧ layout !! v = Some (rescale cv.1 grid_size.1, rescale cv.2 grid_size.2)
      ∧ placement_order items !! u = Some au
      ∧ placement_order items !! v = Some av
      ∧ euclid_le cu cv (Z.min (reach au) (reach av)).
Proof.
  intros Hreach (k0 & k1 & Hatt & _)%attempts_Some u v Hadj%has_edge_true.
  apply attempt_inv_result in Hatt as (st & Hrun & HI & -> & -> & _).
  destruct (generate_mutual _ _ _ _ _ _ Hrun) as [_ Hed].
  assert (matrix_entry (M st) u v ≠ 0) as Huv.
  { apply neighbors_graph_of_matrix in Hadj as [?|Hvu]; [done|].
    by destruct (Hed v u Hvu) as (_ & ? & _). }
  destruct (Hed u v Huv)
    as (_ & _ & cu & cv & au & av & ar & Hu & Hv & _ & _ & Hau & Hav & Har
        & Hd & Hru & Hrv).
  exists cu, cv, au, av.
  rewrite (make_layout_lookup _ _ cu u), (make_layout_lookup _ _ cv v);
    [|apply HI|done|apply HI|done].
  split_and!; [done..|].
  assert (0 ≤ reach ar) as Hr0.
  { apply elem_of_placement_order in Har as [q Hq].
    rewrite Forall_forall in Hreach. apply (Hreach _ Hq). }
  apply distance_le_euclid in Hd as [Hd _]; [|done].
  unfold euclid_le in *. eapply Rle_trans; [exact Hd|]. apply IZR_le. lia.
Qed.

Lemma social_circles_edges_within_both_reaches_witness :
  Forall (λ aq : Agent * Z, 0 ≤ reach aq.1) [(green, 1); (blue, 2)]
  ∧ ∃ G layout colors,
      make_social_circles_network (rand_of_list [1; 1; 2; 1; 0; 0]) 0
        [(green, 1); (blue, 2)] (4, 4) false 5
      = Ok (Some (G, layout, colors))
      ∧ has_edge G 0%nat 1%nat = true
      ∧ ∀ u v, has_edge G u v = true →
          ∃ cu cv au av,
            layout !! u = Some (rescale cu.1 4, rescale cu.2 4)
            ∧ layout !! v = Some (rescale cv.1 4, rescale cv.2 4)
            ∧ placement_order [(green, 1); (blue, 2)] !! u = Some au
            ∧ placement_order [(green, 1); (blue, 2)] !! v = Some av
            ∧ euclid_le cu cv (Z.min (reach au) (reach av)).
Proof.
  assert (Forall (λ aq : Agent * Z, 0 ≤ reach aq.1) [(green, 1); (blue, 2)])
    as Hreach.
  { apply Forall_forall. intros aq Haq.
    rewrite !elem_of_cons, elem_of_nil in Haq.
    by destruct Haq as [-> | [-> | []]]. }
  split; [exact Hreach|].
  eexists _, _, _. split; [by vm_compute|]. split; [by vm_compute|].
  eapply (social_circles_edges_within_both_reaches
            (rand_of_list [1; 1; 2; 1; 0; 0]) 0 [(green, 1); (blue, 2)]
            (4, 4) false 5);
    [exact Hreach|by vm_compute].
Defined.

(** ** The wiring of the gates *)

(** X19: the docstring of the composer, made exact.  The [k]-th gate
    joins the [k]-th pair [(cs, cd)] of components, in the order of
    [itertools.combinations]: node [j] of its first half is adjacent to
    node [j] of component [cs], node [j] of its second half to node
    [j - gate_size // 2] of component [cd]. *)
Theorem composer_gate_wiring (n b g : Z) (G : Graph Z) (k : nat)
    (cs cd j : Z) :
  make_complete_clique_gate_graph n b g = Ok G →
  combinations2 (seqZ 0 n) !! k = Some (cs, cd) →
  0 ≤ j < g →
  has_edge G (Z.of_nat k * g + j)
    (if decide (j < g `div` 2) then num_gates n * g + cs * b + j
     else num_gates n * g + cd * b + (j - g `div` 2)) = true.
Proof.
  intros (_ & _ & es & Hes & ->)%composer_inv Hk Hj.
  apply has_edge_true, composer_neighbors. right. left.
  assert (combinations2 (comp_blocks n b g) !! k
          = Some (comp_block (num_gates n * g) b cs,
                  comp_block (num_gates n * g) b cd)) as Hp.
  { unfold comp_blocks. rewrite combinations2_fmap, list_lookup_fmap, Hk.
    done. }
  destruct (lookup_lt_is_Some_2 (gate_blocks n g) k) as [gn Hgn].
  { rewrite <- (length_pairs_gates n b g). by eapply lookup_lt_Some. }
  destruct (wiring_Some_inv _ _ _ Hes) as (_ & Hfits & _).
  pose proof (Hfits k gn _ Hgn Hp) as Hfit. cbn [fst snd] in Hfit.
  assert (g - g `div` 2 ≤ b) as Hhalf.
  { apply list_elem_of_lookup_2, elem_of_combinations2 in Hp as [? ?].
    apply (blocks_gate_fits n b g gn) in Hfit as [?|?];
      [lia|done|by eapply list_elem_of_lookup_2|done..]. }
  pose proof (half_bounds g ltac:(lia)) as Hh2.
  apply (bridge_inv n b g es Hes). eexists k, gn, _.
  split_and!; [done|exact Hp|done|].
  apply elem_of_gate_edges; [done|]. cbn [fst snd].
  apply lookup_gate_blocks in Hgn as [-> _].
  assert (length (gate_block g (Z.of_nat k)) `div` 2
          = Z.to_nat (g `div` 2))%nat as ->.
  { unfold gate_block. rewrite length_seqZ. by apply half_to_nat. }
  assert (length (take (Z.to_nat (g `div` 2))
                    (comp_block (num_gates n * g) b cs))
          = Z.to_nat (g `div` 2)) as Hlt.
  { rewrite length_take. unfold comp_block. rewrite length_seqZ. lia. }
  exists (Z.to_nat j). split.
  - unfold gate_block. rewrite lookup_seqZ_lt by lia. f_equal. lia.
  - case_decide.
    + rewrite lookup_app_l by lia. rewrite lookup_take_lt by lia.
      unfold comp_block. rewrite lookup_seqZ_lt by lia. f_equal. lia.
    + rewrite lookup_app_r by lia. rewrite Hlt.
      unfold comp_block. rewrite lookup_seqZ_lt by lia. f_equal. lia.
Qed.

Lemma composer_gate_wiring_witness :
  ∃ G, make_complete_clique_gate_graph 3 2 3 = Ok G
       ∧ combinations2 (seqZ 0 3) !! 1%nat = Some (0, 2)
       ∧ has_edge G 3 9 = true ∧ has_edge G 4 13 = true
       ∧ has_edge G 5 14 = true.
Proof.
  eexists. split; [by vm_compute|]. split; [done|].
  split_and!.
  - apply (composer_gate_wiring 3 2 3 _ 1 0 2 0); [by vm_compute|done|lia].
  - apply (composer_gate_wiring 3 2 3 _ 1 0 2 1); [by vm_compute|done|lia].
  - apply (composer_gate_wiring 3 2 3 _ 1 0 2 2); [by vm_compute|done|lia].
Defined.

(** ** The connectivity test *)

Section bfs_complete.
Context {A : Type} `{EqDecision A}.
Variable G : Graph A.


Lemma bfs_level_frontier (seen level extra seen' next : list A) :
  bfs_level G seen level = (seen', next) →
  frontier G seen level extra →
  frontier G seen' next extra
  ∧ (∀ x, x ∈ seen → x ∈ seen') ∧ (∀ x, x ∈ level → x ∈ seen')
  ∧ (length seen ≤ length seen')%nat
  ∧ (next ≠ [] → (length seen < length seen')%nat).
Proof.
  revert seen extra seen' next.
  induction level as [|v level IH]; intros seen extra seen' next; simpl.
  - intros [= <- <-] Hf. split_and!; [done|done| |done|done].
    by intros x []%elem_of_nil.
  - case_decide as Hin.
    + intros Hb Hf.
      destruct (IH seen extra seen' next Hb) as (Hf' & Hs & Hl & Hlen & Hnext).
      { intros x y Hx Hy. destruct (Hf x y Hx Hy) as [?|[Hy'|?]]; auto.
        apply elem_of_cons in Hy' as [->|?]; auto. }
      split_and!; [done|done| |done|done].
      intros x [->|?]%elem_of_cons; auto.
    + destruct (bfs_level G (seen ++ [v]) level) as [s1 n1] eqn:Hrec.
      intros [= <- <-] Hf.
      destruct (IH (seen ++ [v]) (neighbors G v ++ extra) s1 n1 Hrec)
        as (Hf' & Hs & Hl & Hlen & Hnext).
      { intros x y [Hx|Hx%list_elem_of_singleton]%elem_of_app Hy; [|subst x].
        - destruct (Hf x y Hx Hy) as [?|[Hy'|?]].
          + left. apply elem_of_app. auto.
          + apply elem_of_cons in Hy' as [->|?]; [|auto].
            left. apply elem_of_app. right. left.
          + right. right. apply elem_of_app. auto.
        - right. right. apply elem_of_app. auto. }
      rewrite length_app in Hlen. simpl in Hlen.
      split_and!.
      * intros x y Hx Hy. destruct (Hf' x y Hx Hy) as [?|[?|Hy']]; auto.
        -- right. left. apply elem_of_app. auto.
        -- apply elem_of_app in Hy' as [?|?]; auto.
           right. left. apply elem_of_app. auto.
      * intros x Hx. apply Hs, elem_of_app. auto.
      * intros x [->|?]%elem_of_cons; [|auto].
        apply Hs, elem_of_app. right. left.
      * lia.
      * intros _. lia.
Qed.

(** With a level for every node and one more, the search ends with a
    set of marked nodes that is closed under adjacency. *)
Lemma plain_bfs_closed (levels : nat) (seen level : list A) :
  NoDup seen → (∀ x, x ∈ seen → x ∈ nodes G) →
  (∀ x, x ∈ level → x ∈ nodes G) →
  (∀ a b, b ∈ neighbors G a → b ∈ nodes G) →
  frontier G seen level [] →
  (length (nodes G) - length seen < levels)%nat →
  frontier G (plain_bfs levels G seen level) [] []
  ∧ (∀ x, x ∈ seen → x ∈ plain_bfs levels G seen level)
  ∧ (∀ x, x ∈ level → x ∈ plain_bfs levels G seen level).
Proof.
  intros Hnd Hs Hl Hcl. revert seen level Hnd Hs Hl.
  induction levels as [|k IH]; intros seen level Hnd Hs Hl Hf Hfuel; [lia|].
  cbn [plain_bfs]. destruct level as [|v level].
  { split_and!; [done|done|]. by intros x []%elem_of_nil. }
  destruct (bfs_level G seen (v :: level)) as [seen' next] eqn:Hlev.
  destruct (bfs_level_frontier _ _ [] _ _ Hlev Hf)
    as (Hf' & Hsub & Hlsub & Hlen & Hnext).
  destruct (bfs_level_inv G (λ x, x ∈ nodes G) (λ x y _ Hy, Hcl x y Hy)
              _ _ _ _ Hlev Hnd) as (Hnd' & Hs' & Hn').
  { by apply Forall_forall. }
  { by apply Forall_forall. }
  rewrite Forall_forall in Hs'. rewrite Forall_forall in Hn'.
  destruct next as [|w next].
  - assert (plain_bfs k G seen' [] = seen') as -> by (by destruct k).
    split_and!; [|done|done].
    intros x y Hx Hy. destruct (Hf' x y Hx Hy) as [?|[?|?]]; auto.
  - assert (length seen' ≤ length (nodes G))%nat as Hle.
    { apply submseteq_length, NoDup_submseteq; [done|]. intros x. apply Hs'. }
    pose proof (Hnext ltac:(done)) as Hlt.
    destruct (IH seen' (w :: next) Hnd' Hs' Hn') as (Hfin & Hs2 & Hl2);
      [|lia|].
    { intros x y Hx Hy. destruct (Hf' x y Hx Hy) as [?|[?|?]]; auto. }
    split_and!; [done|auto|auto].
Qed.
End bfs_complete.

Lemma is_connected_complete {A : Type} `{EqDecision A} (G : Graph A) :
  graph_wf G → connected G → is_connected G = Ok true.
Proof.
  intros (Hnd & Hsym & Hcl) [Hne Hconn]. unfold is_connected.
  case_eq (nodes G); [done|]. intros s ns Hns. f_equal.
  apply bool_decide_eq_true_2.
  set (R := plain_bfs (S (length G)) G [] [s]).
  assert (s ∈ nodes G) as Hs by (rewrite Hns; left).
  destruct (plain_bfs_closed G (S (length G)) [] [s]) as (Hclosed & _ & Hsrc).
  { apply NoDup_nil_2. }
  { by intros x []%elem_of_nil. }
  { by intros x ->%list_elem_of_singleton. }
  { done. }
  { by intros x y []%elem_of_nil. }
  { unfold nodes. rewrite length_fmap. simpl. lia. }
  fold R in Hclosed, Hsrc.
  destruct (plain_bfs_inv G (λ x, x ∈ nodes G) (λ x y _ Hy, Hcl x y Hy)
              (S (length G)) [] [s]) as [Hnd' Hall].
  { apply NoDup_nil_2. }
  { apply Forall_nil_2. }
  { by apply Forall_singleton. }
  fold R in Hnd', Hall. rewrite Forall_forall in Hall.
  assert (R ≡ₚ nodes G) as Hperm.
  { apply NoDup_Permutation; [done..|]. intros x. split; [apply Hall|].
    intros Hx.
    apply (connected_to_closed G (λ y, y ∈ R) s x); [|by apply Hconn|].
    - intros y z Hy Hz. destruct (Hclosed y z Hy Hz) as [?|[[]%elem_of_nil|[]%elem_of_nil]].
      done.
    - apply Hsrc. left. }
  rewrite Hperm. unfold nodes. by rewrite length_fmap.
Qed.

(** X20: the connectivity test decides connectivity: on a graph with
    nodes it answers [True] exactly when any two nodes are joined by a
    walk, and it raises on the graph without nodes. *)
Theorem is_connected_decides {A : Type} `{EqDecision A} (G : Graph A) :
  graph_wf G →
  (is_connected G = Ok true ↔ connected G)
  ∧ (is_connected G = Ok false ↔ nodes G ≠ [] ∧ ¬ connected G)
  ∧ (is_connected G = Raise NetworkXPointlessConcept ↔ nodes G = []).
Proof.
  intros HG.
  assert (is_connected G = Ok true ↔ connected G) as Htrue.
  { split; [by apply is_connected_sound|by apply is_connected_complete]. }
  split_and!; [done| |].
  - unfold is_connected in *. destruct (nodes G) as [|s ns] eqn:Hns.
    + split; [done|]. by intros [? _].
    + split.
      * intros Hfalse. split; [done|]. intros Hc%Htrue. congruence.
      * intros [_ Hnot]. destruct (bool_decide _) eqn:Hb; [|done].
        destruct Hnot. by apply Htrue.
  - unfold is_connected. by destruct (nodes G).
Qed.

Lemma is_connected_decides_witness :
  is_connected (union_components [complete_graph [1; 2]; complete_graph [3; 4]])
  = Ok false
  ∧ ¬ connected (union_components [complete_graph [1; 2]; complete_graph [3; 4]]).
Proof.
  split; [by vm_compute|].
  eapply (is_connected_decides
            (union_components [complete_graph [1; 2]; complete_graph [3; 4]])).
  - apply union_components_spec. apply Forall_forall. intros C HC.
    rewrite !elem_of_cons, elem_of_nil in HC.
    destruct HC as [->|[->|[]]]; apply graph_wf_complete_graph.
  - by vm_compute.
Defined.


(** ** The retry loop *)

Lemma attempt_graph_wf (rand : nat → Z) (fuel : nat)
    (items : list (Agent * Z)) (grid_size : Z * Z) (k k' : nat)
    (net : network) :
  attempt rand fuel items grid_size k = Ok (net, k') → graph_wf net.1.1.
Proof.
  unfold attempt. destruct (generate rand fuel items grid_size k); [|done..].
  cbn [rbind]. intros [= <- _]. apply graph_of_matrix_wf.
Qed.

Lemma is_connected_cases {A : Type} `{EqDecision A} (G : Graph A) :
  graph_wf G →
  (is_connected G = Ok true ∧ connected G)
  ∨ (is_connected G = Ok false ∧ nodes G ≠ [] ∧ ¬ connected G)
  ∨ (is_connected G = Raise NetworkXPointlessConcept ∧ nodes G = []).
Proof.
  intros HG.
  destruct (nodes G) as [|s ns] eqn:Hns.
  - right. right. unfold is_connected. by rewrite Hns.
  - destruct (is_connected G) as [[|]| |] eqn:Hc.
    + left. split; [done|]. by apply is_connected_sound.
    + right. left. split_and!; [done|done|].
      intros Hconn%is_connected_complete; [|done]. congruence.
    + unfold is_connected in Hc. by rewrite Hns in Hc.
    + unfold is_connected in Hc. by rewrite Hns in Hc.
Qed.

Lemma attempts_forced (rand : nat → Z) (fuel : nat)
    (items : list (Agent * Z)) (grid_size : Z * Z) (tries k : nat) :
  (attempts rand fuel tries items grid_size true k = Ok None
   ↔ ∃ k_end, attempts_disconnected rand fuel tries items grid_size k k_end)
  ∧ (∀ net,
       attempts rand fuel tries items grid_size true k = Ok (Some net)
       ↔ ∃ t k1 k2,
           (t < tries)%nat
           ∧ attempts_disconnected rand fuel t items grid_size k k1
           ∧ attempt rand fuel items grid_size k1 = Ok (net, k2)
           ∧ connected net.1.1).
Proof.
  revert k. induction tries as [|tries IH]; intros k.
  { split; [|intros net]; cbn [attempts attempts_disconnected].
    - split; [eauto|done].
    - split; [done|]. intros (t & ? & ? & ? & _). lia. }
  assert (∀ t k1 k2 net,
            attempts_disconnected rand fuel t items grid_size k k1 →
            attempt rand fuel items grid_size k1 = Ok (net, k2) →
            ∃ net1 k',
              attempt rand fuel items grid_size k = Ok (net1, k')
              ∧ ((t = O ∧ net1 = net)
                 ∨ (∃ t', t = S t' ∧ nodes net1.1.1 ≠ []
                          ∧ ¬ connected net1.1.1
                          ∧ attempts_disconnected rand fuel t' items
                              grid_size k' k1))) as Hfirst.
  { intros [|t] k1 k2 net Hd Hrun.
    - cbn in Hd. subst k1. exists net, k2. auto.
    - destruct Hd as (net1 & k' & Hrun1 & Hne & Hnot & Hd).
      exists net1, k'. split; [done|]. right. by exists t. }
  cbn [attempts].
  destruct (attempt rand fuel items grid_size k) as [[net0 k0]| |] eqn:Hatt;
    cbn [rbind].
  2,3: split; [|intros net]; (split; [done|]);
       [intros (? & ? & ? & ? & _)
       |intros (t & k1 & k2 & _ & Hd & Hrun & _);
        destruct (Hfirst _ _ _ _ Hd Hrun) as (? & ? & ? & _)]; congruence.
  pose proof (attempt_graph_wf _ _ _ _ _ _ _ Hatt) as Hwf.
  unfold accepted. cbn [negb].
  destruct (is_connected_cases net0.1.1 Hwf)
    as [[-> Hconn]|[(-> & Hne & Hnot)|[-> Hnil]]]; cbn [rbind].
  - split; [|intros net].
    + split; [done|]. intros (? & net' & k' & Hrun & _ & Hnot & _).
      rewrite Hatt in Hrun. by simplify_eq.
    + split.
      * intros [= <-]. exists O, k, k0. split_and!; [lia|done|done|done].
      * intros (t & k1 & k2 & _ & Hd & Hrun & _).
        destruct (Hfirst _ _ _ _ Hd Hrun)
          as (net1 & k' & Hrun1 & [[_ <-]|(t' & _ & _ & Hnot & _)]);
          by simplify_eq.
  - destruct (IH k0) as [IHnone IHsome]. split; [|intros net].
    + rewrite IHnone. split.
      * intros [k_end Hd]. exists k_end, net0, k0. done.
      * intros (k_end & net' & k' & Hrun & _ & _ & Hd).
        rewrite Hatt in Hrun. simplify_eq. eauto.
    + rewrite IHsome. split.
      * intros (t & k1 & k2 & Ht & Hd & Hrun & Hconn).
        exists (S t), k1, k2. split_and!; [lia| |done|done].
        exists net0, k0. done.
      * intros (t & k1 & k2 & Ht & Hd & Hrun & Hconn).
        destruct (Hfirst _ _ _ _ Hd Hrun)
          as (net1 & k' & Hrun1 & [[_ <-]|(t' & -> & _ & _ & Hd')]);
          simplify_eq.
        exists t', k1, k2. split_and!; [lia|done..].
  - split; [|intros net]; (split; [done|]).
    + intros (? & net' & k' & Hrun & ? & _).
      rewrite Hatt in Hrun. by simplify_eq.
    + intros (t & k1 & k2 & _ & Hd & Hrun & Hconn).
      destruct (Hfirst _ _ _ _ Hd Hrun)
        as (net1 & k' & Hrun1 & [[_ <-]|(t' & _ & ? & _)]); simplify_eq.
      by destruct Hconn.
Qed.

(** X21: the retry loop with [force_connected=True].  The call returns
    [None] exactly when [max_tries] attempts in a row each built a graph
    with nodes that is not connected; it returns a network exactly when
    fewer than [max_tries] such attempts are followed by one that builds
    this network, and its graph is connected. *)
Theorem social_circles_retry_loop (rand : nat → Z) (fuel : nat)
    (items : list (Agent * Z)) (grid_size : Z * Z) (max_tries : Z) :
  (make_social_circles_network rand fuel items grid_size true max_tries
   = Ok None
   ↔ ∃ k_end, attempts_disconnected rand fuel (Z.to_nat max_tries) items
                grid_size 0 k_end)
  ∧ (∀ net,
       make_social_circles_network rand fuel items grid_size true max_tries
       = Ok (Some net)
       ↔ ∃ t k1 k2,
           (t < Z.to_nat max_tries)%nat
           ∧ attempts_disconnected rand fuel t items grid_size 0 k1
           ∧ attempt rand fuel items grid_size k1 = Ok (net, k2)
           ∧ connected net.1.1).
Proof. apply attempts_forced. Qed.

(** ** The number of edges *)

Section adjacency_lists.
Context {A : Type} `{EqDecision A}.

Local Abbreviation adj_nodup G := (Forall (λ e : A * list A, NoDup e.2) G).

Lemma adj_nodup_add_node (G : Graph A) (n : A) :
  adj_nodup G → adj_nodup (add_node G n).
Proof.
  intros HG. unfold add_node. destruct (has_node G n); [done|].
  apply Forall_app. split; [done|]. apply Forall_singleton, NoDup_nil_2.
Qed.

Lemma adj_nodup_add_half (G : Graph A) (u v : A) :
  adj_nodup G → adj_nodup (add_half G u v).
Proof.
  intros HG. unfold add_half. rewrite Forall_fmap.
  eapply Forall_impl; [exact HG|]. intros [m nbrs] Hnd. simpl in *.
  case_decide; [|done]. simpl. unfold adj_insert. case_decide; [done|].
  apply NoDup_app. split_and!; [done| |apply NoDup_singleton].
  by intros x Hx ->%list_elem_of_singleton.
Qed.

Lemma adj_nodup_add_edge (G : Graph A) (u v : A) :
  adj_nodup G → adj_nodup (add_edge G u v).
Proof.
  intros HG. unfold add_edge.
  by apply adj_nodup_add_half, adj_nodup_add_half, adj_nodup_add_node,
    adj_nodup_add_node.
Qed.

Lemma adj_nodup_add_nodes_from (G : Graph A) (ns : list A) :
  adj_nodup G → adj_nodup (add_nodes_from G ns).
Proof.
  revert G. induction ns as [|n ns IH]; intros G HG; simpl; [done|].
  by apply IH, adj_nodup_add_node.
Qed.

Lemma adj_nodup_add_edges_from (G : Graph A) (es : list (A * A)) :
  adj_nodup G → adj_nodup (add_edges_from G es).
Proof.
  revert G. induction es as [|e es IH]; intros G HG; simpl; [done|].
  by apply IH, adj_nodup_add_edge.
Qed.

Lemma adj_nodup_complete_graph (l : list A) : adj_nodup (complete_graph l).
Proof.
  unfold complete_graph. case_decide.
  - apply adj_nodup_add_edges_from, adj_nodup_add_nodes_from, Forall_nil_2.
  - apply adj_nodup_add_nodes_from, Forall_nil_2.
Qed.

Lemma adj_nodup_union_components (components : list (Graph A)) :
  adj_nodup (union_components components).
Proof.
  unfold union_components.
  assert (adj_nodup (@empty_graph A)) as Hempty by apply Forall_nil_2.
  revert Hempty. generalize (@empty_graph A).
  induction components as [|C components IH]; intros G HG; simpl; [done|].
  by apply IH, adj_nodup_add_edges_from, adj_nodup_add_nodes_from.
Qed.

Lemma edges_from_fst (seen : list A) (G : Graph A) (a b : A) :
  (a, b) ∈ edges_from seen G → a ∈ nodes G.
Proof.
  intros (G1 & nbrs & G2 & -> & _)%elem_of_edges_from.
  unfold nodes. rewrite fmap_app, fmap_cons. apply elem_of_app. right. left.
Qed.

(** The edge view lists every edge once. *)
Lemma NoDup_edges_from (seen : list A) (G : Graph A) :
  NoDup (nodes G) → adj_nodup G → NoDup (edges_from seen G).
Proof.
  revert seen. induction G as [|[n nbrs] G IH]; intros seen Hnd Hadj; simpl.
  - apply NoDup_nil_2.
  - simpl in Hnd. apply NoDup_cons in Hnd as [Hn Hnd].
    apply Forall_cons in Hadj as [Hnbrs Hadj]. simpl in Hnbrs.
    apply NoDup_app. split_and!.
    + apply NoDup_fmap_2; [|by apply NoDup_filter]. by intros x y [= ->].
    + intros [a b] (y & [= -> ->] & _)%list_elem_of_fmap Hin.
      by apply edges_from_fst in Hin.
    + by apply IH.
Qed.
End adjacency_lists.

Lemma seqZ_prefix (N a : Z) (l1 l2 : list Z) (x : Z) :
  seqZ 0 N = l1 ++ a :: l2 → x ∈ l1 ↔ 0 ≤ x < a.
Proof.
  intros Heq.
  assert (a = Z.of_nat (length l1)) as ->.
  { assert (seqZ 0 N !! length l1 = Some a) as Ha.
    { rewrite Heq. by rewrite list_lookup_middle. }
    apply lookup_seqZ in Ha. lia. }
  split.
  - intros [j Hj]%list_elem_of_lookup.
    pose proof (lookup_lt_Some _ _ _ Hj) as Hlt.
    assert (seqZ 0 N !! j = Some x) as Hx.
    { rewrite Heq. by apply lookup_app_l_Some. }
    apply lookup_seqZ in Hx. lia.
  - intros Hx.
    assert (seqZ 0 N !! length l1 = Some (Z.of_nat (length l1))) as Ha.
    { rewrite Heq. by rewrite list_lookup_middle. }
    apply lookup_seqZ in Ha as [_ HN].
    assert (seqZ 0 N !! Z.to_nat x = Some x) as Hlook.
    { apply lookup_seqZ. lia. }
    rewrite Heq, lookup_app_l in Hlook by lia.
    by eapply list_elem_of_lookup_2.
Qed.

(** When the nodes are numbered in insertion order, the edge view holds
    every edge with its smaller end first. *)
Lemma elem_of_edges_ordered (G : Graph Z) (N a b : Z) :
  graph_wf G → nodes G = seqZ 0 N →
  (a, b) ∈ edges G ↔ b ∈ neighbors G a ∧ a ≤ b.
Proof.
  intros HG Hnodes. pose proof HG as (Hnd & Hsym & Hcl).
  assert (∀ G1 G2 nbrs x, G = G1 ++ (a, nbrs) :: G2 →
                          x ∈ nodes G1 ↔ 0 ≤ x < a) as Hbefore.
  { intros G1 G2 nbrs x HGeq. apply (seqZ_prefix N a _ (nodes G2)).
    rewrite <- Hnodes, HGeq. unfold nodes. by rewrite fmap_app. }
  split.
  - intros Hab. pose proof (edges_neighbors G a b Hnd Hab) as Hnb.
    split; [done|].
    apply elem_of_edges_from in Hab as (G1 & nbrs & G2 & HGeq & _ & _ & Hout).
    rewrite (Hbefore G1 G2 nbrs b HGeq) in Hout.
    apply Hcl in Hnb. rewrite Hnodes in Hnb. apply elem_of_seqZ in Hnb. lia.
  - intros [Hnb Hle].
    destruct (nodes_split G a) as (G1 & G2 & HGeq & _).
    { by eapply elem_of_neighbors_node. }
    apply elem_of_edges_from.
    exists G1, (neighbors G a), G2. split_and!; [done|done|apply not_elem_of_nil|].
    rewrite (Hbefore G1 G2 _ b HGeq). lia.
Qed.

Lemma elem_of_combinations2_seqZ (s : Z) (m : nat) (a b : Z) :
  (a, b) ∈ combinations2 (seqZ s (Z.of_nat m)) ↔ s ≤ a < b ∧ b < s + Z.of_nat m.
Proof.
  revert s. induction m as [|m IH]; intros s.
  - simpl. rewrite elem_of_nil. lia.
  - rewrite Nat2Z.inj_succ, seqZ_cons by lia. cbn [combinations2].
    replace (Z.pred (Z.succ (Z.of_nat m))) with (Z.of_nat m) by lia.
    rewrite elem_of_app, list_elem_of_fmap, IH. split.
    + intros [(y & [= -> ->] & Hy%elem_of_seqZ)|?]; lia.
    + intros [[Hs Hab] Hb]. destruct (decide (a = s)) as [->|Hne].
      * left. exists b. split; [done|]. apply elem_of_seqZ. lia.
      * right. lia.
Qed.

Lemma NoDup_combinations2 {A : Type} (l : list A) :
  NoDup l → NoDup (combinations2 l).
Proof.
  induction 1 as [|x l Hx Hl IH]; simpl; [apply NoDup_nil_2|].
  apply NoDup_app. split_and!; [| |done].
  - apply NoDup_fmap_2; [|done]. by intros y z [= ->].
  - intros [a b] (y & [= -> ->] & _)%list_elem_of_fmap
      [Hin _]%elem_of_combinations2. done.
Qed.

Lemma gate_edges_fst (gn src dst : list Z) :
  gate_fits gn src dst → (gate_edges gn src dst).*1 = gn.
Proof.
  intros [H1 H2]. unfold gate_edges.
  rewrite fmap_app, !fst_zip, take_drop; [done|..].
  - rewrite length_drop. lia.
  - rewrite length_take. lia.
Qed.

(** The wiring gives every node of the gates it uses one edge, in the
    order of the nodes. *)
Lemma wiring_fst (gs : list (list Z)) (pairs : list (list Z * list Z))
    (es : list (Z * Z)) :
  wiring gs pairs = Some es → es.*1 = concat (take (length pairs) gs).
Proof.
  revert gs es. induction pairs as [|p pairs IH]; intros gs es; simpl.
  - by intros [= <-].
  - destruct gs as [|gn gs]; [done|]. case_decide as Hfit; [|done].
    destruct (wiring gs pairs) as [es'|] eqn:Hes'; [|done].
    intros [= <-]. rewrite fmap_app, gate_edges_fst by done.
    by rewrite (IH gs es').
Qed.

Lemma length_bind_const {A B : Type} (f : A → list B) (l : list A) (c : Z) :
  Forall (λ x, Z.of_nat (length (f x)) = c) l →
  Z.of_nat (length (l ≫= f)) = Z.of_nat (length l) * c.
Proof.
  induction 1 as [|x l Hx Hl IH]; [done|].
  rewrite bind_cons, length_app. cbn [length]. lia.
Qed.

Lemma length_combinations2_choose2 {A : Type} (l : list A) :
  Z.of_nat (length (combinations2 l)) = choose2 (Z.of_nat (length l)).
Proof.
  unfold choose2. rewrite <- length_combinations2.
  by rewrite Z.mul_comm, Z.div_mul.
Qed.

Lemma gate_block_inj (g k k' : Z) :
  0 < g → gate_block g k = gate_block g k' → k = k'.
Proof.
  intros Hg Heq. unfold gate_block in Heq.
  assert (seqZ (k * g) g !! 0%nat = Some (k' * g)) as Hk.
  { rewrite Heq. apply lookup_seqZ. lia. }
  apply lookup_seqZ in Hk. nia.
Qed.

Lemma comp_block_inj (base b c c' : Z) :
  0 < b → comp_block base b c = comp_block base b c' → c = c'.
Proof.
  intros Hb Heq. unfold comp_block in Heq.
  assert (seqZ (base + c * b) b !! 0%nat = Some (base + c' * b)) as Hc.
  { rewrite Heq. apply lookup_seqZ. lia. }
  apply lookup_seqZ in Hc. nia.
Qed.

Lemma NoDup_block_pairs (blocks : list (list Z)) :
  NoDup blocks → Forall NoDup blocks →
  (∀ k k' x, in_block blocks k x → in_block blocks k' x → k = k') →
  NoDup (blocks ≫= combinations2).
Proof.
  intros Hnd Hall Hdisj. apply NoDup_bind; [|intros l Hl|done].
  - intros l l' [a c] [k Hk]%list_elem_of_lookup [k' Hk']%list_elem_of_lookup
      [Ha _]%elem_of_combinations2 [Ha' _]%elem_of_combinations2.
    assert (k = k') as <- by (apply (Hdisj k k' a); [by exists l|by exists l']).
    congruence.
  - rewrite Forall_forall in Hall. by apply NoDup_combinations2, Hall.
Qed.

Lemma elem_of_block_pairs (blocks : list (list Z)) (a c : Z) :
  (a, c) ∈ blocks ≫= combinations2 →
  ∃ k, in_block blocks k a ∧ in_block blocks k c.
Proof.
  intros (l & [Ha Hc]%elem_of_combinations2 & [k Hk]%list_elem_of_lookup)
    %list_elem_of_bind.
  exists k. split; by exists l.
Qed.

Section composer_edges.
Variables n b g : Z.
Variable es : list (Z * Z).
Hypothesis Hn : 0 ≤ n.
Hypothesis Hb : 0 < b.
Hypothesis Hg : 0 < g.
Hypothesis Hwiring :
  wiring (gate_blocks n g) (combinations2 (comp_blocks n b g)) = Some es.

Local Abbreviation gates := (gate_blocks n g).
Local Abbreviation comps := (comp_blocks n b g).
Local Abbreviation G :=
  (add_edges_from (union_components (complete_graph <$> (gates ++ comps))) es).

Lemma wiring_sources : es.*1 = seqZ 0 (num_gates n * g).
Proof.
  rewrite (wiring_fst _ _ _ Hwiring), length_pairs_gates, firstn_all.
  apply concat_gate_blocks. lia.
Qed.

Lemma NoDup_wiring : NoDup es.
Proof.
  apply (NoDup_fmap_1 fst). rewrite wiring_sources. apply NoDup_seqZ.
Qed.

Lemma length_wiring : Z.of_nat (length es) = num_gates n * g.
Proof.
  rewrite <- (length_fmap fst), wiring_sources, length_seqZ.
  pose proof (num_gates_nonneg n). nia.
Qed.

Lemma NoDup_gate_pairs : NoDup (gates ≫= combinations2).
Proof.
  apply NoDup_block_pairs.
  - apply NoDup_fmap_2; [|apply NoDup_seqZ].
    intros k k'. by apply gate_block_inj.
  - apply Forall_NoDup_gate_blocks.
  - apply gate_blocks_disjoint.
Qed.

Lemma NoDup_comp_pairs : NoDup (comps ≫= combinations2).
Proof.
  apply NoDup_block_pairs.
  - apply NoDup_fmap_2; [|apply NoDup_seqZ].
    intros c c'. by apply comp_block_inj.
  - apply Forall_NoDup_comp_blocks.
  - apply comp_blocks_disjoint.
Qed.

Lemma wiring_ascending (u v : Z) : (u, v) ∈ es → u < v.
Proof.
  intros (k & c & [Hk Hu]%in_gate_block & [Hc Hv]%in_comp_block)
    %(bridge_blocks n b g es Hwiring). nia.
Qed.

Lemma block_pairs_ascending (blocks : list (list Z)) (u v : Z) :
  blocks = gates ∨ blocks = comps →
  (u, v) ∈ blocks ≫= combinations2
  ↔ u < v ∧ ∃ l, l ∈ blocks ∧ u ∈ l ∧ v ∈ l.
Proof.
  intros Hblocks. rewrite list_elem_of_bind.
  assert (∀ l, l ∈ blocks →
               ∃ s m, l = seqZ s (Z.of_nat m)) as Hseq.
  { intros l [k Hk]%list_elem_of_lookup. destruct Hblocks as [-> | ->].
    - apply lookup_gate_blocks in Hk as [-> _].
      exists (Z.of_nat k * g), (Z.to_nat g). unfold gate_block.
      by rewrite Z2Nat.id by lia.
    - apply lookup_comp_blocks in Hk as [-> _].
      exists (num_gates n * g + Z.of_nat k * b), (Z.to_nat b).
      unfold comp_block. by rewrite Z2Nat.id by lia. }
  split.
  - intros (l & Huv & Hl). destruct (Hseq l Hl) as (s & m & ->).
    pose proof Huv as [Hu Hv]%elem_of_combinations2.
    apply elem_of_combinations2_seqZ in Huv. split; [lia|eauto].
  - intros (Hlt & l & Hl & Hu & Hv). exists l. split; [|done].
    destruct (Hseq l Hl) as (s & m & ->).
    apply elem_of_seqZ in Hu, Hv. apply elem_of_combinations2_seqZ. lia.
Qed.

Lemma composer_edges_perm :
  edges G ≡ₚ (gates ≫= combinations2) ++ (comps ≫= combinations2) ++ es.
Proof.
  pose proof (composer_wf n b g es) as Hwf.
  assert (nodes G = seqZ 0 (choose2 n * g + n * b)) as Hnodes.
  { apply (composer_node_list n b g); [done..|].
    rewrite make_complete_clique_gate_graph_eq.
    rewrite !decide_False by lia. by rewrite Hwiring. }
  apply NoDup_Permutation.
  - apply NoDup_edges_from; [apply Hwf|].
    apply adj_nodup_add_edges_from, adj_nodup_union_components.
  - apply NoDup_app. split_and!; [apply NoDup_gate_pairs| |].
    + intros [u v] (k & Hu & Hv)%elem_of_block_pairs
        [(c & Hc & _)%elem_of_block_pairs|Hin]%elem_of_app.
      * by apply (gate_comp_disjoint n b g k c u).
      * apply (bridge_blocks n b g es Hwiring) in Hin as (_ & c & _ & Hc).
        by apply (gate_comp_disjoint n b g k c v).
    + apply NoDup_app. split_and!; [apply NoDup_comp_pairs| |apply NoDup_wiring].
      intros [u v] (c & Hu & _)%elem_of_block_pairs
        (k & _ & Hk & _)%(bridge_blocks n b g es Hwiring).
      by apply (gate_comp_disjoint n b g k c u).
  - intros [u v].
    rewrite (elem_of_edges_ordered G _ u v Hwf Hnodes).
    rewrite (composer_neighbors n b g es).
    rewrite !elem_of_app, !block_pairs_ascending by auto. split.
    + intros [[(l & Hl & Hu & Hv & Hne)|[He|He]] Hle].
      * apply elem_of_app in Hl as [Hl|Hl]; [left|right; left];
          (split; [lia|eauto]).
      * by right; right.
      * apply wiring_ascending in He. lia.
    + intros [(Hlt & l & Hl & Hu & Hv)|[(Hlt & l & Hl & Hu & Hv)|He]].
      * split; [|lia]. left. exists l.
        split_and!; [apply elem_of_app; by left|done|done|lia].
      * split; [|lia]. left. exists l.
        split_and!; [apply elem_of_app; by right|done|done|lia].
      * pose proof (wiring_ascending _ _ He). split; [auto|lia].
Qed.

Lemma composer_edges_length :
  Z.of_nat (length (edges G))
  = choose2 n * (choose2 g + g) + n * choose2 b.
Proof.
  rewrite composer_edges_perm, !length_app, !Nat2Z.inj_add.
  rewrite (length_bind_const combinations2 gates (choose2 g)).
  2:{ apply Forall_forall. intros l Hl.
      rewrite length_combinations2_choose2, (length_gate_block n g l Hl).
      by rewrite Z2Nat.id by lia. }
  rewrite (length_bind_const combinations2 comps (choose2 b)).
  2:{ apply Forall_forall. intros l Hl.
      rewrite length_combinations2_choose2, (length_comp_block n b g l Hl).
      by rewrite Z2Nat.id by lia. }
  rewrite length_wiring, length_gate_blocks, length_comp_blocks.
  rewrite num_gates_choose2, Z2Nat.id by done. lia.
Qed.
End composer_edges.

(** X22: the composer's graph has C(n,2) * (C(g,2) + g) + n * C(b,2)
    edges for [n] big components of [b > 0] nodes and gates of [g > 0]
    nodes: the edges of C(n,2) gate cliques and of [n] component cliques,
    and one wiring edge for every gate node. *)
Theorem composer_edge_count (n b g : Z) (G : Graph Z) :
  0 ≤ n → 0 < b → 0 < g →
  make_complete_clique_gate_graph n b g = Ok G →
  Z.of_nat (length (edges G))
  = choose2 n * (choose2 g + g) + n * choose2 b.
Proof.
  intros Hn Hb Hg (_ & _ & es & Hes & ->)%composer_inv.
  by apply composer_edges_length.
Qed.

Lemma composer_edge_count_witness :
  ∃ G, make_complete_clique_gate_graph 3 2 2 = Ok G
       ∧ Z.of_nat (length (edges G)) = 12.
Proof.
  eexists. split; [by vm_compute|].
  assert (0 ≤ 3) as Hn by lia. assert (0 < 2) as Hb by lia.
  exact (composer_edge_count 3 2 2 _ Hn Hb Hb eq_refl).
Defined.
